(** * osm_graph.py: the OSM graph container, its builder, simplifier,
      geometry constructor, edge filter and GeoJSON codec.

    The Python module keeps a [networkx.MultiDiGraph] in [OSMGraph.G] and
    mutates it in place.  The development below embeds

    - the part of [networkx.MultiDiGraph] the module calls (insertion-ordered
      adjacency dictionaries, [add_edge], [add_node], [remove_edge],
      [edges(data=True)], [predecessors], [successors]);
    - the Python object store for the [ndref] lists, which [simplify] appends
      to through an alias;
    - [OSMParser.way], [OSMGraph.simplify], [construct_geometries],
      [filter_edges], [to_geojson] and [from_geojson].

    Python floats are IEEE doubles, here Rocq's primitive floats.  The module
    only stores and copies them, and hands them to [pyproj], whose geodesic
    length is a parameter of the geometry constructor. *)

From stdpp Require Import base option list strings gmap.
From Stdlib Require Import ZArith Lia.
From Stdlib Require Import PrimFloat.

Local Open Scope string_scope.
Local Open Scope list_scope.
Local Open Scope Z_scope.

(** ** Python values *)

(** Node references are Python integers ([int(u.ref)]). *)
Abbreviation node := Z.

(** A location of a mutable Python list in the object store. *)
Abbreviation loc := nat.

(** The exception classes are identified by their names. *)
Abbreviation exn := string.

(** The type of Python floats. *)
Definition Float : Type := PrimFloat.float.

(** Values that [json.dump] writes and [json.load] reads back unchanged. *)
#[local] Unset Elimination Schemes.
Inductive json : Type :=
| JNull
| JBool (b : bool)
| JInt (n : Z)
| JFloat (x : Float)
| JStr (s : string)
| JArr (items : list json)
| JObj (fields : list (string * json)).
#[local] Set Elimination Schemes.

(** A coordinate pair [(lon, lat)]. *)
Abbreviation coord := (Float * Float)%type.

(** Attribute values of nodes and edges: immutable JSON-like data (integers,
    floats, strings, ...), a reference to a mutable list of node references
    (the [ndref] attribute), or a shapely [LineString] given by its
    coordinate sequence. *)
Inductive value : Type :=
| VJson (j : json)
| VList (l : loc)
| VGeometry (g : list coord).

(** A Python [dict] with string keys whose iteration order is never
    observed: attribute dictionaries of nodes and edges. *)
Abbreviation attrs := (gmap string value).

(** The object store: the mutable lists of node references. *)
Abbreviation store := (list (list node)).

(** ** Insertion-ordered dictionaries *)

Fixpoint dict_get `{EqDecision K} {V : Type} (k : K) (d : list (K * V))
  : option V :=
  match d with
  | [] => None
  | (k', x) :: d' => if decide (k = k') then Some x else dict_get k d'
  end.

(** [d[k] = x]: an existing key keeps its position, a new key goes last. *)
Fixpoint dict_set `{EqDecision K} {V : Type} (k : K) (x : V)
    (d : list (K * V)) : list (K * V) :=
  match d with
  | [] => [(k, x)]
  | (k', y) :: d' =>
      if decide (k = k') then (k, x) :: d' else (k', y) :: dict_set k x d'
  end.

(** [del d[k]] *)
Fixpoint dict_del `{EqDecision K} {V : Type} (k : K) (d : list (K * V))
  : list (K * V) :=
  match d with
  | [] => []
  | (k', y) :: d' =>
      if decide (k = k') then d' else (k', y) :: dict_del k d'
  end.

Definition dict_keys {K V : Type} (d : list (K * V)) : list K :=
  map fst d.

(** [k in d] *)
Definition dict_mem `{EqDecision K} {V : Type} (k : K) (d : list (K * V))
  : bool :=
  match dict_get k d with Some _ => true | None => false end.

(** ** networkx.MultiDiGraph *)

(** [G._succ[u][v]] is the key dictionary of the parallel edges from [u] to
    [v].  The module never passes an edge key: [add_edge] picks
    [len(keydict)] and [remove_edge] pops the last item, so the keys of a
    key dictionary are [0 .. len - 1] in insertion order and the dictionary
    is the list of its attribute dictionaries; key [0] is its head. *)
Abbreviation keydict := (list attrs).

Abbreviation adjacency := (list (node * list (node * keydict))).

(** [_node] maps a node to its attribute dictionary, [_succ] is the outer
    adjacency dictionary.  [G._pred] shares its key dictionaries with
    [G._succ]; it is not stored, see [predecessors]. *)
Record MultiDiGraph : Type := mkGraph {
  _node : list (node * attrs);
  _succ : adjacency
}.

Definition empty_graph : MultiDiGraph := mkGraph [] [].

(** [G.nodes], in insertion order. *)
Definition nodes (G : MultiDiGraph) : list node := dict_keys (_node G).

(** The first part of [add_edge] and of [add_node]: a node that is not in
    [_succ] gets empty adjacency and attribute dictionaries. *)
Definition touch_node (n : node) (G : MultiDiGraph) : MultiDiGraph :=
  if dict_mem n (_succ G) then G
  else mkGraph (dict_set n ∅ (_node G)) (dict_set n [] (_succ G)).

(** [G.add_node(n, **attr)] *)
Definition add_node (n : node) (attr : attrs) (G : MultiDiGraph)
  : MultiDiGraph :=
  if dict_mem n (_succ G) then
    mkGraph
      (dict_set n (attr ∪ default ∅ (dict_get n (_node G))) (_node G))
      (_succ G)
  else mkGraph (dict_set n attr (_node G)) (dict_set n [] (_succ G)).

(** [G.add_edge(u, v, **attr)]: the new edge gets the next free key, that
    is, it goes last in the key dictionary of [(u, v)].  The attribute
    names are taken to differ from the parameter names of [add_edge]
    itself ([key], [u_for_edge], [v_for_edge]). *)
Definition add_edge (u v : node) (attr : attrs) (G : MultiDiGraph)
  : MultiDiGraph :=
  let G1 := touch_node v (touch_node u G) in
  let nbrs := default [] (dict_get u (_succ G1)) in
  let kd := default [] (dict_get v nbrs) in
  mkGraph (_node G1) (dict_set u (dict_set v (kd ++ [attr]) nbrs) (_succ G1)).

(** [G.remove_edge(u, v)]: pops the most recently added parallel edge and
    drops the key dictionary when it becomes empty. *)
Definition remove_edge (u v : node) (G : MultiDiGraph)
  : exn + MultiDiGraph :=
  match dict_get u (_succ G) with
  | None => inl "NetworkXError"
  | Some nbrs =>
      match dict_get v nbrs with
      | None => inl "NetworkXError"
      | Some kd =>
          let kd' := removelast kd in
          let nbrs' :=
            match kd' with
            | [] => dict_del v nbrs
            | _ => dict_set v kd' nbrs
            end in
          inr (mkGraph (_node G) (dict_set u nbrs' (_succ G)))
      end
  end.

(** One edge as [G.edges(data=True)] reports it. *)
Abbreviation edge := (node * node * attrs)%type.

Definition edges_from (u : node) (nbrs : list (node * keydict)) : list edge :=
  flat_map (fun '(v, kd) => map (fun d => (u, v, d)) kd) nbrs.

(** [G.edges(data=True)]: by source node, then by target, then by key. *)
Definition edges (G : MultiDiGraph) : list edge :=
  flat_map (fun '(u, nbrs) => edges_from u nbrs) (_succ G).

(** [G.add_edges_from([(u, v, dd)])]: a new edge whose attribute dictionary
    is a fresh copy of [dd]. *)
Definition add_edges_from (ebunch : list edge) (G : MultiDiGraph)
  : MultiDiGraph :=
  fold_left (fun G '(u, v, dd) => add_edge u v dd G) ebunch G.

(** [list(G.successors(n))] *)
Definition successors (n : node) (G : MultiDiGraph) : list node :=
  dict_keys (default [] (dict_get n (_succ G))).

(** [list(G.predecessors(n))]: the nodes with at least one edge to [n].
    networkx keeps them in [_pred[n]] in the order in which they first
    became predecessors, here they come in the order of [_succ]; the module
    only takes the length of this list and, when that is one, its single
    element. *)
Definition predecessors (n : node) (G : MultiDiGraph) : list node :=
  dict_keys (filter (fun '(_, nbrs) => dict_mem n nbrs = true) (_succ G)).

(** [G[u][v][0]] *)
Definition edge0 (u v : node) (G : MultiDiGraph) : exn + attrs :=
  match dict_get u (_succ G) with
  | None => inl "KeyError"
  | Some nbrs =>
      match dict_get v nbrs with
      | None => inl "KeyError"
      | Some kd =>
          match kd with
          | d :: _ => inr d
          | [] => inl "KeyError"
          end
      end
  end.

(** ** The builder: [OSMGraph.from_pbf] *)

(** A node of a way as osmium hands it over with [locations=True]. *)
Record NodeRef : Type := mkNodeRef {
  ref : Z;
  lon : Float;
  lat : Float
}.

(** A way record of the decoder: [w.id], [w.tags], [w.nodes]. *)
Record Way : Type := mkWay {
  w_id : Z;
  w_tags : gmap string string;
  w_nodes : list NodeRef
}.

(** The state the module mutates: the graph and the [ndref] lists. *)
Definition state : Type := MultiDiGraph * store.

Section Builder.

(** [way_filter] of [from_pbf]; [None] accepts every way. *)
Variable way_filter : option (gmap string string -> bool).

(** [OSWNormalizer(tags).normalize()], an external pure function. *)
Variable normalize : gmap string string -> attrs.

Definition accepts (w : Way) : bool :=
  match way_filter with
  | None => true
  | Some f => f (w_tags w)
  end.

Definition lonlat (x y : Float) : attrs :=
  <["lon" := VJson (JFloat x)]> (<["lat" := VJson (JFloat y)]> ∅).

(** The body of the segment loop for [i], [u = w.nodes[i]] and
    [v = w.nodes[i + 1]].  The list [[u_ref, v_ref]] is a new object. *)
Definition way_segment (d2 : attrs) (i : Z) (u v : NodeRef) (st : state)
  : state :=
  let '(G, h) := st in
  let d3 :=
    <["ndref" := VList (length h)]> (<["segment" := VJson (JInt i)]> d2) in
  let G := add_edges_from [(ref u, ref v, d3)] G in
  let G := add_node (ref u) (lonlat (lon u) (lat u)) G in
  let G := add_node (ref v) (lonlat (lon v) (lat v)) G in
  (G, h ++ [[ref u; ref v]]).

(** [for i in range(len(w.nodes) - 1)], as a recursion on the remaining
    nodes [w.nodes[i:]]. *)
Fixpoint way_loop (d2 : attrs) (i : Z) (ns : list NodeRef) (st : state)
  : state :=
  match ns with
  | u :: ((v :: _) as rest) =>
      way_loop d2 (i + 1) rest (way_segment d2 i u v st)
  | _ => st
  end.

(** [{**d, **OSWNormalizer(tags).normalize()}]: the normalizer's entries
    win over [d]. *)
Definition way_attrs (w : Way) : attrs :=
  normalize (w_tags w) ∪ {[ "osm_id" := VJson (JInt (w_id w)) ]}.

(** [OSMParser.way] *)
Definition way (w : Way) (st : state) : state :=
  if accepts w then way_loop (way_attrs w) 0 (w_nodes w) st else st.

(** [from_pbf]: the handler runs on the ways of the file in order. *)
Definition from_pbf (ways : list Way) : state :=
  fold_left (fun st w => way w st) ways (empty_graph, []).

End Builder.

(** ** Errors and in-place mutation *)

(** A computation that may raise: [inl] carries the exception. *)
Definition ebind {A B : Type} (r : exn + A) (k : A -> exn + B) : exn + B :=
  match r with
  | inl e => inl e
  | inr a => k a
  end.

(** A method that mutates the graph and the lists in place and may raise;
    when it raises, the mutations made so far stay. *)
Definition M (A : Type) : Type := state -> state * (exn + A).

Definition ret {A : Type} (a : A) : M A := fun st => (st, inr a).

Definition lift {A : Type} (r : exn + A) : M A := fun st => (st, r).

Definition bind {A B : Type} (c : M A) (k : A -> M B) : M B :=
  fun st =>
    match c st with
    | (st', inr a) => k a st'
    | (st', inl e) => (st', inl e)
    end.

Definition read_G : M MultiDiGraph := fun st => (st, inr (fst st)).

Definition modify_G (f : MultiDiGraph -> MultiDiGraph) : M unit :=
  fun st => ((f (fst st), snd st), inr tt).

Notation "'let?' x ':=' r 'in' k" := (ebind r (fun x => k))
  (at level 10, x name, r at level 100, k at level 200).
Notation "'let!' x ':=' c 'in' k" := (bind c (fun x => k))
  (at level 10, x name, c at level 100, k at level 200).
Notation "c >>> k" := (bind c (fun _ => k))
  (at level 100, k at level 200, right associativity).

(** ** The simplifier: [OSMGraph.simplify] *)

(** [(node_in, node, node_out, edge_in["segment"])] *)
Definition node_data : Type := node * node * node * Z.

Definition segment_of (x : node_data) : Z := snd x.

(** [d[k]] for the integer attributes [osm_id] and [segment].  The graphs
    of the module carry integers there; on another kind of value the model
    stops with a [TypeError]. *)
Definition get_int (k : string) (d : attrs) : exn + Z :=
  match d !! k with
  | Some (VJson (JInt z)) => inr z
  | Some _ => inl "TypeError"
  | None => inl "KeyError"
  end.

(** [d[k]] for the list attribute [ndref], as a reference to the list. *)
Definition get_list (k : string) (d : attrs) : exn + loc :=
  match d !! k with
  | Some (VList l) => inr l
  | Some _ => inl "TypeError"
  | None => inl "KeyError"
  end.

(** The body of the first loop for one node: [remove_nodes] maps a way id
    to the data of its pass-through nodes, in the order they are found. *)
Definition classify (G : MultiDiGraph)
    (remove_nodes : list (Z * list node_data)) (n : node)
  : exn + list (Z * list node_data) :=
  match predecessors n G, successors n G with
  | [node_in], [node_out] =>
      let? edge_in := edge0 node_in n G in
      let? edge_out := edge0 n node_out G in
      let? id_in := get_int "osm_id" edge_in in
      let? id_out := get_int "osm_id" edge_out in
      if decide (id_in <> id_out) then inr remove_nodes
      else
        let? s := get_int "segment" edge_in in
        let data := (node_in, n, node_out, s) in
        match dict_get id_in remove_nodes with
        | Some l => inr (dict_set id_in (l ++ [data]) remove_nodes)
        | None => inr (dict_set id_in [data] remove_nodes)
        end
  | _, _ => inr remove_nodes
  end.

(** [for node in self.G.nodes] *)
Fixpoint collect (G : MultiDiGraph) (ns : list node)
    (remove_nodes : list (Z * list node_data))
  : exn + list (Z * list node_data) :=
  match ns with
  | [] => inr remove_nodes
  | n :: ns' =>
      let? remove_nodes' := classify G remove_nodes n in
      collect G ns' remove_nodes'
  end.

(** [sorted(node_data, key=lambda x: x[3])]: a stable sort. *)
Fixpoint insert_sorted (x : node_data) (l : list node_data)
  : list node_data :=
  match l with
  | [] => [x]
  | y :: l' =>
      if segment_of y <? segment_of x then y :: insert_sorted x l'
      else x :: l
  end.

Definition sorted (l : list node_data) : list node_data :=
  foldr insert_sorted [] l.

(** The local variables of the grouping loop.  [receiving_edge] is a local
    of the method, it keeps its value from one way to the next. *)
Record grouping : Type := mkGrouping {
  groups : list (node * node * list node);
  last_s : Z;
  receiving_edge : option (node * node)
}.

(** The body of [for ni, n, no, s in sorted_node_data]. *)
Definition group_step (g : grouping) (x : node_data) : exn + grouping :=
  let '(ni, n, _, s) := x in
  let g1 :=
    if decide (s - last_s g <> 1)
    then mkGrouping (dict_set (ni, n) [] (groups g)) (last_s g)
           (Some (ni, n))
    else g in
  match receiving_edge g1 with
  | None => inl "UnboundLocalError"
  | Some e =>
      match dict_get e (groups g1) with
      | None => inl "KeyError"
      | Some l =>
          inr (mkGrouping (dict_set e (l ++ [n]) (groups g1)) s
                 (receiving_edge g1))
      end
  end.

Fixpoint group_loop (g : grouping) (l : list node_data) : exn + grouping :=
  match l with
  | [] => inr g
  | x :: l' => let? g' := group_step g x in group_loop g' l'
  end.

(** [ndref.append(x)] for the list at [l]. *)
Definition append_ndref (l : loc) (x : node) : M unit :=
  fun st => ((fst st, alter (fun c => c ++ [x]) l (snd st)), inr tt).

Definition remove_edge_M (u v : node) : M unit :=
  fun st =>
    match remove_edge u v (fst st) with
    | inl e => (st, inl e)
    | inr G' => ((G', snd st), inr tt)
    end.

(** [next(self.G.successors(node))] *)
Definition first_successor (n : node) (G : MultiDiGraph) : exn + node :=
  match successors n G with
  | [] => inl "StopIteration"
  | x :: _ => inr x
  end.

(** [for node in nodes], on the list [ndref] at [l]. *)
Fixpoint merge_run (l : loc) (ns : list node) : M unit :=
  match ns with
  | [] => ret tt
  | n :: ns' =>
      let! G := read_G in
      let! following_node := lift (first_successor n G) in
      append_ndref l following_node >>>
      remove_edge_M n following_node >>>
      merge_run l ns'
  end.

(** The body of [for (u, v), nodes in groups.items()].  After the inner
    loop [node] is the last element of [nodes]; the grouping loop appends
    to every group it opens, so the branch for an empty group is never
    taken. *)
Definition merge_group (g : node * node * list node) : M unit :=
  let '(u, v, ns) := g in
  let! G := read_G in
  let! edge_data := lift (edge0 u v G) in
  let! l := lift (get_list "ndref" edge_data) in
  merge_run l ns >>>
  match last ns with
  | None => lift (inl "UnboundLocalError")
  | Some n => modify_G (add_edges_from [(u, n, edge_data)])
  end.

Fixpoint merge_groups (gs : list (node * node * list node)) : M unit :=
  match gs with
  | [] => ret tt
  | g :: gs' => merge_group g >>> merge_groups gs'
  end.

(** The body of [for way_id, node_data in remove_nodes.items()]; returns
    the value [receiving_edge] is left with. *)
Definition simplify_way (recv : option (node * node))
    (data : list node_data) : M (option (node * node)) :=
  let! g := lift (group_loop (mkGrouping [] (-10) recv) (sorted data)) in
  merge_groups (groups g) >>>
  ret (receiving_edge g).

Fixpoint simplify_ways (recv : option (node * node))
    (remove_nodes : list (Z * list node_data)) : M unit :=
  match remove_nodes with
  | [] => ret tt
  | (_, data) :: rest =>
      let! recv' := simplify_way recv data in
      simplify_ways recv' rest
  end.

(** [OSMGraph.simplify] *)
Definition simplify : M unit :=
  let! G := read_G in
  let! remove_nodes := lift (collect G (nodes G) []) in
  simplify_ways None remove_nodes.

(** ** The geometry constructor: [OSMGraph.construct_geometries] *)

(** A loop that rewrites the items of a list in place and stops at the
    first item on which the body raises. *)
Fixpoint update_all {A : Type} (f : A -> A * option exn) (l : list A)
  : list A * option exn :=
  match l with
  | [] => ([], None)
  | x :: l' =>
      match f x with
      | (y, Some e) => (y :: l', Some e)
      | (y, None) =>
          let '(l'', r) := update_all f l' in (y :: l'', r)
      end
  end.

(** [d[k]] for the coordinates [lon] and [lat], which the builder stores
    as floats. *)
Definition get_float (k : string) (d : attrs) : exn + Float :=
  match d !! k with
  | Some (VJson (JFloat x)) => inr x
  | Some _ => inl "TypeError"
  | None => inl "KeyError"
  end.

(** [node_d = self.G._node[ref]; (node_d["lon"], node_d["lat"])] *)
Definition node_coord (G : MultiDiGraph) (r : node) : exn + coord :=
  match dict_get r (_node G) with
  | None => inl "KeyError"
  | Some node_d =>
      let? x := get_float "lon" node_d in
      let? y := get_float "lat" node_d in
      inr (x, y)
  end.

(** [for ref in d["ndref"]: coords.append(...)] *)
Fixpoint resolve (G : MultiDiGraph) (refs : list node) : exn + list coord :=
  match refs with
  | [] => inr []
  | r :: refs' =>
      let? c := node_coord G r in
      let? cs := resolve G refs' in
      inr (c :: cs)
  end.

(** [shapely.geometry.LineString(coords)] refuses a single point
    ([ValueError] in shapely 1). *)
Definition LineString (coords : list coord) : exn + list coord :=
  match coords with
  | [_] => inl "ValueError"
  | _ => inr coords
  end.

Section Geometry.

(** [self.geod.geometry_length], the geodesic length on WGS84. *)
Variable geometry_length : list coord -> Float.

(** [round(x, 1)] *)
Variable round1 : Float -> Float.

(** The body of the loop for one edge dictionary [d]. *)
Definition construct_geometry (G : MultiDiGraph) (h : store) (d : attrs)
  : exn + attrs :=
  let? l := get_list "ndref" d in
  match h !! l with
  | None => inl "KeyError"
  | Some refs =>
      let? coords := resolve G refs in
      let? geometry := LineString coords in
      inr (delete "ndref"
             (<["length" := VJson (JFloat (round1 (geometry_length geometry)))]>
                (<["geometry" := VGeometry geometry]> d)))
  end.

Definition in_place (f : attrs -> exn + attrs) (d : attrs)
  : attrs * option exn :=
  match f d with
  | inl e => (d, Some e)
  | inr d' => (d', None)
  end.

(** [for u, v, d in self.G.edges(data=True)] with a body that rewrites
    [d] in place. *)
Definition update_edges (f : attrs -> exn + attrs) (adj : adjacency)
  : adjacency * option exn :=
  update_all
    (fun '(u, nbrs) =>
       let '(nbrs', r) :=
         update_all
           (fun '(v, kd) =>
              let '(kd', r) := update_all (in_place f) kd in ((v, kd'), r))
           nbrs in
       ((u, nbrs'), r))
    adj.

(** [OSMGraph.construct_geometries]; the node dictionary is only read. *)
Definition construct_geometries : M unit :=
  fun st =>
    let '(G, h) := st in
    let '(adj, r) := update_edges (construct_geometry G h) (_succ G) in
    ((mkGraph (_node G) adj, h),
     match r with Some e => inl e | None => inr tt end).

End Geometry.

(** ** [OSMGraph.filter_edges] *)




(** ** The exchange codec: [to_geojson] and [from_geojson] *)

(** A JSON object is written from a Python [dict] and read back into one;
    the fields of a document are looked up by name. *)
Fixpoint jfield (k : string) (fields : list (string * json)) : exn + json :=
  match fields with
  | [] => inl "KeyError"
  | (k', j) :: fields' =>
      if decide (k = k') then inr j else jfield k fields'
  end.

(** [shapely.geometry.mapping] of a [LineString] *)
Definition mapping (g : list coord) : json :=
  JObj [("type", JStr "LineString");
        ("coordinates",
         JArr (map (fun c => JArr [JFloat (fst c); JFloat (snd c)]) g))].

(** What [json.dump] writes for an attribute value: JSON data as it is,
    a list of node references as an array; a geometry is refused. *)
Definition dump_value (h : store) (x : value) : exn + json :=
  match x with
  | VJson j => inr j
  | VList l =>
      match h !! l with
      | Some refs => inr (JArr (map JInt refs))
      | None => inl "KeyError"
      end
  | VGeometry _ => inl "TypeError"
  end.

Fixpoint dump_fields (h : store) (fields : list (string * value))
  : exn + list (string * json) :=
  match fields with
  | [] => inr []
  | (k, x) :: fields' =>
      let? j := dump_value h x in
      let? js := dump_fields h fields' in
      inr ((k, j) :: js)
  end.

(** The feature of one edge. *)
Definition feature_of (h : store) (e : edge) : exn + json :=
  let '(u, v, d) := e in
  let d_copy :=
    <["_v" := VJson (JInt v)]> (<["_u" := VJson (JInt u)]> d) in
  match d_copy !! "geometry" with
  | None => inl "KeyError"
  | Some (VGeometry g) =>
      let? props := dump_fields h (map_to_list (delete "geometry" d_copy)) in
      inr (JObj [("type", JStr "Feature");
                 ("geometry", mapping g);
                 ("properties", JObj props)])
  | Some _ => inl "AttributeError"
  end.

Fixpoint features_of (h : store) (es : list edge) : exn + list json :=
  match es with
  | [] => inr []
  | e :: es' =>
      let? f := feature_of h e in
      let? fs := features_of h es' in
      inr (f :: fs)
  end.

(** [to_geojson]: the document that is written to [path]. *)
Definition to_geojson (st : state) : exn + json :=
  let? fs := features_of (snd st) (edges (fst st)) in
  inr (JObj [("type", JStr "FeatureCollection"); ("features", JArr fs)]).

Definition as_object (j : json) : exn + list (string * json) :=
  match j with
  | JObj fields => inr fields
  | _ => inl "TypeError"
  end.








(** ** What the claims speak of *)

(** The list of node references an edge dictionary points to. *)
Definition chain_of (h : store) (d : attrs) : option (list node) :=
  match d !! "ndref" with
  | Some (VList l) => h !! l
  | _ => None
  end.

(** The consecutive pairs of the nodes of a way: its segments. *)
Definition segment_pairs (ns : list NodeRef) : list (NodeRef * NodeRef) :=
  zip ns (tail ns).

(** The edge of segment [i0 + k] of a way with attributes [d2], whose list
    of node references sits at [l0 + k]. *)
Definition segment_edge (d2 : attrs) (l0 : nat) (i0 : Z) (k : nat)
    (p : NodeRef * NodeRef) : edge :=
  (ref p.1, ref p.2,
   <["ndref" := VList (l0 + k)%nat]>
     (<["segment" := VJson (JInt (i0 + Z.of_nat k))]> d2)).

Definition segment_chain (p : NodeRef * NodeRef) : list node :=
  [ref p.1; ref p.2].

(** Chains that meet at their end points, read as one sequence. *)
Definition chain_join (cs : list (list node)) : list node :=
  match cs with
  | [] => []
  | c :: cs' => c ++ flat_map (drop 1) cs'
  end.

(** A reference resolves when its node is registered with coordinates. *)
Definition resolved (G : MultiDiGraph) (r : node) : bool :=
  match node_coord G r with
  | inr _ => true
  | inl _ => false
  end.





(** The chain of an edge starts at its node [u] and ends at its node [v]. *)
Definition chain_spans (h : store) (e : edge) : bool :=
  match chain_of h e.2 with
  | Some refs =>
      bool_decide (head refs = Some e.1.1)
      && bool_decide (last refs = Some e.1.2)
  | None => false
  end.

(** The invariant of a networkx graph that [filter_edges] relies on: the
    end points of every edge are registered nodes. *)
Definition wf_graph (G : MultiDiGraph) : bool :=
  forallb
    (fun e : edge => dict_mem e.1.1 (_node G) && dict_mem e.1.2 (_node G))
    (edges G).







(** The parallel edges from [u] to [v]: the key dictionary [G[u][v]]. *)
Definition edges_between (u v : node) (G : MultiDiGraph) : keydict :=
  match dict_get u (_succ G) with
  | Some nbrs => default [] (dict_get v nbrs)
  | None => []
  end.

(** The node a tuple of [remove_nodes] speaks of. *)
Definition nd_node (x : node_data) : node := x.1.1.2.

(** All tuples of [remove_nodes], whatever their way. *)
Definition all_data (remove_nodes : list (Z * list node_data))
  : list node_data :=
  flat_map snd remove_nodes.


(** The edges into and out of a node, as [G.edges] reports them. *)
Definition in_edges (n : node) (G : MultiDiGraph) : list edge :=
  filter (fun e : edge => e.1.2 = n) (edges G).



(** A list only grows at its end. *)
Definition grows (h h' : store) : Prop :=
  forall l c, h !! l = Some c -> exists c', h' !! l = Some (c ++ c').

(** ** Invariants *)

(** What [simplify] keeps of a graph: the node dictionary and the keys of
    the outer adjacency dictionary. *)
Definition frame (st st' : state) : Prop :=
  _node st'.1 = _node st.1
  /\ dict_keys (_succ st'.1) = dict_keys (_succ st.1).


(** What [simplify] does to the chains: the lists only grow at their end,
    and every edge dictionary of the graph was one before. *)
Definition extends (st st' : state) : Prop :=
  grows st.2 st'.2
  /\ forall u v d, (u, v, d) ∈ edges st'.1 ->
       exists u' v', (u', v', d) ∈ edges st.1.

(** ** Keeping the node references *)

(** The location of the list an edge dictionary points to. *)
Definition chain_loc (d : attrs) : option loc :=
  match d !! "ndref" with
  | Some (VList l) => Some l
  | _ => None
  end.

(** The edge [e] starts at [u] and its chain is the list at [l]. *)
Definition carries (u : node) (l : loc) (e : edge) : Prop :=
  e.1.1 = u /\ chain_loc e.2 = Some l.

#[global] Instance carries_dec u l e : Decision (carries u l e).
Proof. unfold carries. apply _. Defined.








(** What [simplify] is run on: no node and no adjacency entry is filed
    twice, and every edge has a list of node references that has the end
    points of the edge. *)
Definition anchored (st : state) : Prop :=
  NoDup (nodes st.1) /\ NoDup (dict_keys (_succ st.1))
  /\ forall u v d, (u, v, d) ∈ edges st.1 ->
       exists c, chain_of st.2 d = Some c /\ u ∈ c /\ v ∈ c.

(** The node references at the ends of the edges. *)
Definition end_points (G : MultiDiGraph) : list node :=
  flat_map (fun e : edge => [e.1.1; e.1.2]) (edges G).

(** What the builder keeps: no key is filed twice, and the list of an
    edge is the pair of its end points. *)
Definition tidy (G : MultiDiGraph) : Prop :=
  NoDup (nodes G) /\ NoDup (dict_keys (_succ G)).

Definition paired (st : state) : Prop :=
  forall u v d, (u, v, d) ∈ edges st.1 -> chain_of st.2 d = Some [u; v].

(** ** The way counter: [WayCounter] *)



(** ** The builder with a progress bar *)



(** ** The node collector: [WayNodes] *)

(** A node record of the decoder: [n.id], [n.tags] as the sequence of its
    key and value pairs, [n.lon], [n.lat]. *)
Record OsmNode : Type := mkOsmNode {
  n_id : Z;
  n_tags : list (string * string);
  n_lon : Float;
  n_lat : Float
}.

(** [dict(n.tags)]: a later pair with the same key replaces the value and
    keeps the place of the key. *)
Definition tags_dict (tags : list (string * string))
  : list (string * json) :=
  fold_left (fun d kv => dict_set kv.1 (JStr kv.2) d) tags [].

(** The feature [WayNodes.node] appends for [n]. *)
Definition node_feature (n : OsmNode) : json :=
  JObj [("type", JStr "Feature");
        ("geometry",
         JObj [("type", JStr "Point");
               ("coordinates", JArr [JFloat (n_lon n); JFloat (n_lat n)])]);
        ("properties",
         JObj (dict_set "osm_id" (JInt (n_id n)) (tags_dict (n_tags n))))].

(** [WayNodes.node]; [None] stands for [lambda n: True]. *)
Definition WayNodes_node (node_filter : option (OsmNode -> bool))
    (n : OsmNode) (acc : list json) : list json :=
  if match node_filter with None => true | Some f => f n end
  then acc ++ [node_feature n]
  else acc.

(** [nodes] after the handler has run on the nodes of a file; it starts
    empty. *)
Definition WayNodes (node_filter : option (OsmNode -> bool))
    (ns : list OsmNode) : list json :=
  fold_left (fun acc n => WayNodes_node node_filter n acc) ns [].

(** ** What the further properties speak of *)

(** The pairs of end points of the segments of a way. *)
Definition way_pairs (w : Way) : list (node * node) :=
  map (fun p : NodeRef * NodeRef => (ref p.1, ref p.2))
    (segment_pairs (w_nodes w)).

(** The node records the builder registers, in the order of the file:
    those of the accepted ways with two or more nodes. *)
Definition built_nodes (way_filter : option (gmap string string -> bool))
    (ways : list Way) : list NodeRef :=
  flat_map
    (fun w =>
       if accepts way_filter w && (2 <=? length (w_nodes w))%nat
       then w_nodes w else [])
    ways.

(** The coordinates of the last record in [ns] with the reference [r]. *)
Definition last_coord (ns : list NodeRef) (r : node) : option coord :=
  (fun n => (lon n, lat n)) <$> last (filter (fun n => ref n = r) ns).

(** [_node] and [_succ] have the same keys, as in every networkx graph. *)
Definition synced (G : MultiDiGraph) : Prop :=
  dict_keys (_node G) = dict_keys (_succ G).

(** The adjacency only names nodes that have an entry of their own, and
    so do the lists of node references. *)
Definition closed (G : MultiDiGraph) : Prop :=
  forall u nbrs v, (u, nbrs) ∈ _succ G -> v ∈ dict_keys nbrs ->
    v ∈ dict_keys (_succ G).

Definition sealed (st : state) : Prop :=
  closed st.1
  /\ forall l c x, st.2 !! l = Some c -> x ∈ c -> x ∈ dict_keys (_succ st.1).

(** A loop that rewrites items in place has gone through [xs] and left
    [ys], with the outcome [r]: the items it came to and converted are
    related by [R]; the item it raised on, if any, and the ones after it
    are as they were. *)
Definition converted {B : Type} (R : B -> B -> Prop) (bad : B -> exn -> Prop)
    (xs ys : list B) (r : option exn) : Prop :=
  exists xs1 xs2 ys1,
    xs = xs1 ++ xs2 /\ ys = ys1 ++ xs2 /\ Forall2 R xs1 ys1
    /\ match r with
       | None => xs2 = []
       | Some e => exists x0 rest, xs2 = x0 :: rest /\ bad x0 e
       end.

(** ** A closed way *)

(** The adjacency of a graph in which every node of [cyc] has the one edge
    [cyc] gives it, and the nodes [P] have lost theirs. *)
Definition spent_adj (P : list node) (cyc : list edge) : adjacency :=
  map (fun e : edge =>
         (e.1.1, if decide (e.1.1 ∈ P) then [] else [(e.1.2, [e.2])]))
    cyc.

(** The edges along [steps] from [r]: each step is the target of an edge
    and its dictionary, and the edge starts where the one before ends. *)
Fixpoint chain (r : node) (steps : list (node * attrs)) : list edge :=
  match steps with
  | [] => []
  | (x, d) :: steps' => (r, x, d) :: chain x steps'
  end.

(** ** Sample inputs *)

Definition pt (r : Z) (x y : Float) : NodeRef := mkNodeRef r x y.

(** The way of the concrete scenario of the specification. *)
Definition ex_way : Way :=
  mkWay 7 ∅
    [pt 100 (-122.25)%float 47.5%float; pt 101 (-122.375)%float 47.625%float;
     pt 102 (-122.5)%float 47.75%float; pt 103 (-122.625)%float 47.875%float].

Definition ex_normalize (tags : gmap string string) : attrs :=
  {[ "highway" := VJson (JStr "footway") ]}.

Definition ex_built : state := from_pbf None ex_normalize [ex_way].

(** A way with a single node reference. *)
Definition ex_short : Way := mkWay 8 ∅ [pt 5 (-122.0)%float 47.0%float].


(** Two ways that run over the same segment from 1 to 2. *)
Definition ex_overlap : state :=
  from_pbf None ex_normalize
    [mkWay 1 ∅ [pt 1 (-122.125)%float 47.125%float;
                pt 2 (-122.25)%float 47.25%float;
                pt 3 (-122.375)%float 47.375%float];
     mkWay 2 ∅ [pt 1 (-122.125)%float 47.125%float;
                pt 2 (-122.25)%float 47.25%float]].

(** Two ways that meet at node 2. *)
Definition ex_junction : state :=
  from_pbf None ex_normalize
    [mkWay 1 ∅ [pt 1 (-122.125)%float 47.125%float;
                pt 2 (-122.25)%float 47.25%float];
     mkWay 2 ∅ [pt 2 (-122.25)%float 47.25%float;
                pt 3 (-122.375)%float 47.375%float]].


Definition ex_length (g : list coord) : Float := 0%float.

Definition ex_round (x : Float) : Float := x.

(** A finished graph, and one whose edge uses the reserved key [_u]. *)
Definition ex_finished : state :=
  (construct_geometries ex_length ex_round ex_junction).1.







(** A node with two tags of the same key and a tag [osm_id]. *)
Definition ex_node : OsmNode :=
  mkOsmNode 9 [("highway", "path"); ("osm_id", "x"); ("highway", "steps")]
    (-122.125)%float 47.125%float.

(** The edge of the first segment of the sample way. *)
Definition ex_segment : edge :=
  segment_edge (way_attrs ex_normalize ex_way) 0 0 0
    (pt 100 (-122.25)%float 47.5%float, pt 101 (-122.375)%float 47.625%float).

(** The first edge of the built sample graph. *)
Definition ex_first : edge := default (0, 0, ∅) (head (edges ex_built.1)).

(** The graph built from one way of two nodes. *)
Definition ex_two : state :=
  from_pbf None ex_normalize
    [mkWay 3 ∅ [pt 1 (-122.125)%float 47.125%float;
                pt 2 (-122.25)%float 47.25%float]].

(** The document written for the finished sample graph. *)
Definition ex_finished_doc : json :=
  match to_geojson ex_finished with
  | inr fc => fc
  | inl _ => JNull
  end.

(** A closed way: it ends at the node where it starts. *)
Definition ex_ring : Way :=
  mkWay 3 ∅
    [pt 1 (-122.125)%float 47.125%float; pt 2 (-122.25)%float 47.25%float;
     pt 3 (-122.375)%float 47.375%float; pt 1 (-122.125)%float 47.125%float].

(** The edge dictionary of the first segment of the closed way. *)
Definition ex_ring_edge : attrs :=
  <["ndref" := VList 0%nat]>
    (<["segment" := VJson (JInt 0)]> (way_attrs ex_normalize ex_ring)).

(** ** A way without repeated nodes *)

(** The adjacency of a path from [r] along [steps], each a target node
    with the dictionary of the edge that leads to it. *)
Fixpoint path_adj (r : node) (steps : list (node * attrs)) : adjacency :=
  match steps with
  | [] => [(r, [])]
  | (r', d) :: steps' => (r, [(r', [d])]) :: path_adj r' steps'
  end.

(** The steps of a way: the target and the edge dictionary of each
    segment. *)
Definition way_steps (d2 : attrs) (l0 : nat) (i0 : Z) (ns : list NodeRef)
  : list (node * attrs) :=
  imap (fun k p => (ref p.2, (segment_edge d2 l0 i0 k p).2))
    (segment_pairs ns).

Definition node_entry (n : NodeRef) : node * attrs :=
  (ref n, lonlat (lon n) (lat n)).

(** The tuples the first loop files for a path that starts at [r] with an
    edge of segment [i]. *)
Fixpoint path_triples (r : node) (i : Z) (steps : list (node * attrs))
  : list node_data :=
  match steps with
  | (x, _) :: (((q, _) :: _) as rest) =>
      (r, x, q, i) :: path_triples x (i + 1) rest
  | _ => []
  end.

(** [remove_nodes] with the tuples [acc] of one way. *)
Definition filed (way_id : Z) (acc : list node_data)
  : list (Z * list node_data) :=
  match acc with
  | [] => []
  | _ => [(way_id, acc)]
  end.



(** * Properties *)

(** ** Insertion-ordered dictionaries *)

Section Dict.

Context `{EqDecision K} {V : Type}.
Implicit Types (k : K) (d : list (K * V)).

Lemma dict_get_set_eq k x d : dict_get k (dict_set k x d) = Some x.
Proof.
  induction d as [|[k' y] d IH]; simpl.
  - by rewrite decide_True.
  - destruct (decide (k = k')) as [->|Hne]; simpl.
    + by rewrite decide_True.
    + by rewrite decide_False.
Qed.

Lemma dict_get_set_ne k k' x d :
  k <> k' -> dict_get k (dict_set k' x d) = dict_get k d.
Proof.
  intros Hne. induction d as [|[k'' y] d IH]; simpl.
  - by rewrite decide_False.
  - destruct (decide (k' = k'')) as [->|Hne']; simpl.
    + by rewrite !decide_False.
    + destruct (decide (k = k'')); auto.
Qed.

Lemma dict_keys_set_in k x y d :
  dict_get k d = Some y -> dict_keys (dict_set k x d) = dict_keys d.
Proof.
  induction d as [|[k' z] d IH]; simpl; [done|].
  destruct (decide (k = k')) as [->|Hne]; simpl; [done|].
  intros H. f_equal. by apply IH.
Qed.

Lemma dict_set_fresh k x d :
  dict_get k d = None -> dict_set k x d = d ++ [(k, x)].
Proof.
  induction d as [|[k' z] d IH]; simpl; [done|].
  destruct (decide (k = k')) as [->|Hne]; [done|].
  intros H. f_equal. by apply IH.
Qed.

Lemma dict_get_Some_in k x d : dict_get k d = Some x -> (k, x) ∈ d.
Proof.
  induction d as [|[k' z] d IH]; simpl; [done|].
  destruct (decide (k = k')) as [->|Hne].
  - intros [= ->]. left.
  - intros H. right. by apply IH.
Qed.

Lemma dict_get_None_keys k d : dict_get k d = None <-> k ∉ dict_keys d.
Proof.
  induction d as [|[k' z] d IH]; simpl.
  - split; [intros _; apply not_elem_of_nil | done].
  - destruct (decide (k = k')) as [->|Hne].
    + split; [done|]. intros H. exfalso. apply H. left.
    + rewrite IH, not_elem_of_cons. tauto.
Qed.

Lemma dict_mem_true k d : dict_mem k d = true <-> k ∈ dict_keys d.
Proof.
  unfold dict_mem. destruct (dict_get k d) eqn:E.
  - split; [|done]. intros _.
    apply dict_get_Some_in in E.
    apply list_elem_of_fmap. by exists (k, v).
  - apply dict_get_None_keys in E. split; [done|]. intros; contradiction.
Qed.

(** Replacing the value under a present key changes a flattening of the
    dictionary by what the new value adds. *)
Lemma flat_map_dict_set_in {B : Type} (F : K * V -> list B) k x y d
    (extra : list B) :
  dict_get k d = Some x ->
  F (k, y) ≡ₚ F (k, x) ++ extra ->
  flat_map F (dict_set k y d) ≡ₚ flat_map F d ++ extra.
Proof.
  intros Hget HF. induction d as [|[k' z] d IH]; simpl in *; [done|].
  destruct (decide (k = k')) as [->|Hne]; simpl.
  - injection Hget as ->. rewrite HF.
    rewrite <- !(assoc_L (++)). f_equiv. apply Permutation_app_comm.
  - rewrite IH by done. by rewrite (assoc_L (++)).
Qed.

Lemma flat_map_dict_set_fresh {B : Type} (F : K * V -> list B) k y d :
  dict_get k d = None ->
  flat_map F (dict_set k y d) = flat_map F d ++ F (k, y).
Proof.
  intros Hget. rewrite dict_set_fresh by done.
  rewrite flat_map_app. simpl. by rewrite app_nil_r.
Qed.

End Dict.

(** ** The graph operations and the edge list *)

Lemma edges_touch_node n G : edges (touch_node n G) = edges G.
Proof.
  unfold touch_node, dict_mem.
  destruct (dict_get n (_succ G)) eqn:E; [done|].
  unfold edges; simpl. rewrite flat_map_dict_set_fresh by done.
  simpl. by rewrite app_nil_r.
Qed.

Lemma touch_node_mem n G : dict_mem n (_succ (touch_node n G)) = true.
Proof.
  unfold touch_node. destruct (dict_mem n (_succ G)) eqn:E; [done|].
  simpl. unfold dict_mem. by rewrite dict_get_set_eq.
Qed.

Lemma touch_node_mem_mono n m G :
  dict_mem n (_succ G) = true -> dict_mem n (_succ (touch_node m G)) = true.
Proof.
  unfold touch_node. destruct (dict_mem m (_succ G)) eqn:E; [done|].
  simpl. unfold dict_mem. intros H.
  destruct (decide (n = m)) as [->|Hne]; [by rewrite dict_get_set_eq|].
  by rewrite dict_get_set_ne.
Qed.

Lemma edges_add_node n a G : edges (add_node n a G) = edges G.
Proof.
  unfold add_node, dict_mem.
  destruct (dict_get n (_succ G)) eqn:E; [done|].
  unfold edges; simpl. rewrite flat_map_dict_set_fresh by done.
  simpl. by rewrite app_nil_r.
Qed.

Lemma edges_from_set u v kd d nbrs :
  default [] (dict_get v nbrs) = kd ->
  edges_from u (dict_set v (kd ++ [d]) nbrs)
  ≡ₚ edges_from u nbrs ++ [(u, v, d)].
Proof.
  intros Hkd. unfold edges_from.
  destruct (dict_get v nbrs) as [kd0|] eqn:E; simpl in Hkd; subst kd.
  - eapply flat_map_dict_set_in; [done|]. by rewrite map_app.
  - by rewrite flat_map_dict_set_fresh.
Qed.

(** [add_edge] adds exactly one edge to those the graph reports. *)
Lemma edges_add_edge u v d G :
  edges (add_edge u v d G) ≡ₚ edges G ++ [(u, v, d)].
Proof.
  unfold add_edge.
  set (G1 := touch_node v (touch_node u G)).
  assert (HG1 : edges G1 = edges G)
    by (unfold G1; by rewrite !edges_touch_node).
  assert (Hu : dict_mem u (_succ G1) = true)
    by (apply touch_node_mem_mono, touch_node_mem).
  unfold dict_mem in Hu.
  destruct (dict_get u (_succ G1)) as [nbrs|] eqn:E; [|done]. simpl.
  rewrite <- HG1. unfold edges at 1 2. simpl.
  eapply flat_map_dict_set_in; [done|].
  by apply edges_from_set.
Qed.


(** ** The builder *)

Lemma way_segment_edges d2 i u v G h :
  edges (fst (way_segment d2 i u v (G, h)))
  ≡ₚ edges G ++ [segment_edge d2 (length h) i 0 (u, v)].
Proof.
  unfold way_segment, segment_edge. simpl.
  rewrite !edges_add_node, edges_add_edge.
  by rewrite Nat.add_0_r, Z.add_0_r.
Qed.

Lemma way_loop_spec d2 ns : forall i G h,
  edges (fst (way_loop d2 i ns (G, h)))
  ≡ₚ edges G ++ imap (segment_edge d2 (length h) i) (segment_pairs ns)
  /\ snd (way_loop d2 i ns (G, h)) = h ++ map segment_chain (segment_pairs ns).
Proof.
  induction ns as [|u ns IH]; intros i G h.
  { simpl. by rewrite !app_nil_r. }
  destruct ns as [|v rest].
  { simpl. by rewrite !app_nil_r. }
  change (way_loop d2 i (u :: v :: rest) (G, h))
    with (way_loop d2 (i + 1) (v :: rest) (way_segment d2 i u v (G, h))).
  pose proof (way_segment_edges d2 i u v G h) as Hseg.
  destruct (way_segment d2 i u v (G, h)) as [G1 h1] eqn:E.
  assert (Hh1 : h1 = h ++ [segment_chain (u, v)])
    by (unfold way_segment in E; by injection E as _ <-).
  destruct (IH (i + 1) G1 h1) as [IHe IHh].
  simpl in Hseg. split.
  - rewrite IHe, Hseg.
    change (segment_pairs (u :: v :: rest))
      with ((u, v) :: segment_pairs (v :: rest)).
    rewrite imap_cons, <- (assoc_L (++)). simpl.
    assert (Himap :
      imap (segment_edge d2 (length h1) (i + 1)) (segment_pairs (v :: rest))
      = imap (segment_edge d2 (length h) i ∘ S) (segment_pairs (v :: rest))).
    { apply imap_ext. intros k p _.
      unfold segment_edge. simpl. subst h1. rewrite length_app. simpl.
      replace (length h + 1 + k)%nat with (length h + S k)%nat by lia.
      replace (i + 1 + Z.of_nat k) with (i + Z.of_nat (S k)) by lia.
      done. }
    by rewrite Himap.
  - rewrite IHh. subst h1.
    change (segment_pairs (u :: v :: rest))
      with ((u, v) :: segment_pairs (v :: rest)).
    simpl. by rewrite <- (assoc_L (++)).
Qed.

Lemma segment_pairs_length ns :
  length (segment_pairs ns) = (length ns - 1)%nat.
Proof.
  unfold segment_pairs. rewrite length_zip_with.
  destruct ns as [|x l]; [done|].
  cbn [tail length]. rewrite Nat.min_r; lia.
Qed.

Lemma chain_join_segments u ns :
  chain_join (map segment_chain (segment_pairs (u :: ns)))
  = match ns with [] => [] | _ => map ref (u :: ns) end.
Proof.
  destruct ns as [|v rest]; [done|].
  change (segment_pairs (u :: v :: rest))
    with ((u, v) :: segment_pairs (v :: rest)).
  simpl. do 2 f_equal.
  revert v. induction rest as [|x rest IH]; intros v; [done|].
  change (segment_pairs (v :: x :: rest))
    with ((v, x) :: segment_pairs (x :: rest)).
  simpl. f_equal. apply IH.
Qed.

Lemma segment_pairs_lookup ns i u v :
  ns !! i = Some u -> ns !! S i = Some v ->
  segment_pairs ns !! i = Some (u, v).
Proof.
  intros Hu Hv. unfold segment_pairs.
  rewrite lookup_zip_with, Hu. simpl. by rewrite lookup_tail, Hv.
Qed.

Lemma chain_of_segment_edge d2 (h : store) i0 k p (cs : list (list node)) :
  cs !! k = Some (segment_chain p) ->
  chain_of (h ++ cs) (segment_edge d2 (length h) i0 k p).2
  = Some (segment_chain p).
Proof.
  intros Hk. unfold chain_of, segment_edge. cbn [snd].
  rewrite lookup_insert_eq.
  rewrite lookup_app_r by lia.
  by replace (length h + k - length h)%nat with k by lia.
Qed.

Lemma chains_of_segment_edges d2 (h : store) i0 ps :
  omap (fun e : edge => chain_of (h ++ map segment_chain ps) e.2)
    (imap (segment_edge d2 (length h) i0) ps)
  = map segment_chain ps.
Proof.
  assert (Hall : forall j, (j <= length ps)%nat ->
    omap (fun e : edge => chain_of (h ++ map segment_chain ps) e.2)
      (take j (imap (segment_edge d2 (length h) i0) ps))
    = take j (map segment_chain ps)).
  { induction j as [|j IHj]; intros Hj; [done|].
    destruct (lookup_lt_is_Some_2 ps j) as [q Hq]; [lia|].
    rewrite (take_S_r _ _ (segment_edge d2 (length h) i0 j q))
      by (by rewrite list_lookup_imap, Hq).
    rewrite (take_S_r _ _ (segment_chain q))
      by (by rewrite list_lookup_fmap, Hq).
    rewrite omap_app, IHj by lia. f_equal.
    cbn [omap list_omap].
    rewrite chain_of_segment_edge; [done|].
    by rewrite list_lookup_fmap, Hq. }
  specialize (Hall (length ps) (le_n _)).
  by rewrite !firstn_all2 in Hall
    by (rewrite ?length_imap, ?length_map; lia).
Qed.

(** C3: for an accepted way with nodes [n0, ..., nk] the builder adds
    exactly the [k] segment edges to the edges of the graph: edge [i] goes
    from [n_i] to [n_{i+1}], carries [segment = i] and a chain
    [[ref n_i, ref n_{i+1}]], and the chains of the added edges, joined in
    segment order, give back the node sequence of the way. *)
Theorem way_emits_segments
    (way_filter : option (gmap string string -> bool))
    (normalize : gmap string string -> attrs)
    (w : Way) (G : MultiDiGraph) (h : store) :
  accepts way_filter w = true ->
  let emitted :=
    imap (segment_edge (way_attrs normalize w) (length h) 0)
      (segment_pairs (w_nodes w)) in
  let st' := way way_filter normalize w (G, h) in
  edges (fst st') ≡ₚ edges G ++ emitted
  /\ length emitted = (length (w_nodes w) - 1)%nat
  /\ (forall i u v,
        w_nodes w !! i = Some u -> w_nodes w !! S i = Some v ->
        exists d, emitted !! i = Some (ref u, ref v, d)
          /\ d !! "segment" = Some (VJson (JInt (Z.of_nat i)))
          /\ chain_of (snd st') d = Some [ref u; ref v])
  /\ ((2 <= length (w_nodes w))%nat ->
        chain_join (omap (fun e : edge => chain_of (snd st') e.2) emitted)
        = map ref (w_nodes w)).
Proof.
  intros Hacc emitted st'.
  assert (Hst : st' = way_loop (way_attrs normalize w) 0 (w_nodes w) (G, h))
    by (unfold st', way; by rewrite Hacc).
  destruct (way_loop_spec (way_attrs normalize w) (w_nodes w) 0 G h)
    as [He Hh].
  rewrite <- Hst in He, Hh.
  split; [exact He|]. split.
  { unfold emitted. by rewrite length_imap, segment_pairs_length. }
  split.
  - intros i u v Hu Hv.
    pose proof (segment_pairs_lookup _ _ _ _ Hu Hv) as Hp.
    eexists. split; [|split].
    + unfold emitted. rewrite list_lookup_imap, Hp. reflexivity.
    + simpl. rewrite lookup_insert_ne by done.
      by rewrite lookup_insert_eq.
    + rewrite Hh.
      apply (chain_of_segment_edge _ h 0 i (u, v)).
      by rewrite list_lookup_fmap, Hp.
  - intros Hlen. rewrite Hh. unfold emitted.
    rewrite chains_of_segment_edges.
    destruct (w_nodes w) as [|u [|v rest]]; simpl in Hlen; [lia|lia|].
    by rewrite chain_join_segments.
Qed.

(** C10: a way with fewer than two node references leaves the graph and
    the store as they are: no edge is added and no node is registered. *)
Theorem way_short_is_noop
    (way_filter : option (gmap string string -> bool))
    (normalize : gmap string string -> attrs)
    (w : Way) (st : state) :
  (length (w_nodes w) < 2)%nat ->
  way way_filter normalize w st = st.
Proof.
  intros Hlen. unfold way.
  destruct (accepts way_filter w); [|done].
  destruct (w_nodes w) as [|u [|v rest]]; simpl in *; [done|done|lia].
Qed.

(** ** The simplifier leaves the node dictionary alone *)

Lemma frame_refl st : frame st st.
Proof. done. Qed.

Lemma frame_trans st1 st2 st3 : frame st1 st2 -> frame st2 st3 -> frame st1 st3.
Proof. intros [? ?] [? ?]. split; congruence. Qed.

Lemma remove_edge_frame u v G G' h h' :
  remove_edge u v G = inr G' -> frame (G, h) (G', h').
Proof.
  unfold remove_edge.
  destruct (dict_get u (_succ G)) as [nbrs|] eqn:Eu; [|done].
  destruct (dict_get v nbrs) as [kd|]; [|done].
  intros [= <-]. split; simpl; [done|].
  by eapply dict_keys_set_in.
Qed.

Lemma first_successor_key n G x :
  first_successor n G = inr x -> n ∈ dict_keys (_succ G).
Proof.
  unfold first_successor, successors.
  destruct (dict_get n (_succ G)) as [nbrs|] eqn:E; [|done].
  intros _. apply dict_mem_true. unfold dict_mem. by rewrite E.
Qed.

Lemma edge0_key u v G d : edge0 u v G = inr d -> u ∈ dict_keys (_succ G).
Proof.
  unfold edge0.
  destruct (dict_get u (_succ G)) as [nbrs|] eqn:E; [|done].
  intros _. apply dict_mem_true. unfold dict_mem. by rewrite E.
Qed.

Lemma merge_run_cons l n ns st :
  merge_run l (n :: ns) st =
  match first_successor n st.1 with
  | inl e => (st, inl e)
  | inr x =>
      let h1 := alter (fun c => c ++ [x]) l st.2 in
      match remove_edge n x st.1 with
      | inl e => ((st.1, h1), inl e)
      | inr G' => merge_run l ns (G', h1)
      end
  end.
Proof.
  cbn [merge_run]. unfold bind, read_G, lift, append_ndref, remove_edge_M.
  cbn [fst snd].
  destruct (first_successor n st.1) as [e|x]; [done|].
  by destruct (remove_edge n x st.1).
Qed.

Lemma merge_run_frame l ns : forall st,
  frame st (merge_run l ns st).1
  /\ ((merge_run l ns st).2 = inr tt ->
      forall n, n ∈ ns -> n ∈ dict_keys (_succ st.1)).
Proof.
  induction ns as [|n ns IH]; intros st.
  { split; [apply frame_refl|]. intros _ n Hn. by apply elem_of_nil in Hn. }
  rewrite merge_run_cons.
  destruct (first_successor n st.1) as [e|x] eqn:Ef.
  { split; [apply frame_refl|done]. }
  cbn zeta.
  destruct (remove_edge n x st.1) as [e|G'] eqn:Er.
  { split; [done|done]. }
  destruct (IH (G', alter (fun c => c ++ [x]) l st.2)) as [IHf IHk].
  pose proof (remove_edge_frame _ _ _ _ st.2
                (alter (fun c => c ++ [x]) l st.2) Er) as Hfr.
  assert (Hfr' : frame st (G', alter (fun c => c ++ [x]) l st.2))
    by (destruct st; exact Hfr).
  split.
  - eapply frame_trans; [exact Hfr'|exact IHf].
  - intros Hok m Hm. apply elem_of_cons in Hm as [->|Hm].
    + by eapply first_successor_key.
    + specialize (IHk Hok m Hm). destruct Hfr' as [_ Hk].
      simpl in Hk. by rewrite <- Hk.
Qed.

Lemma touch_node_present n G :
  n ∈ dict_keys (_succ G) -> touch_node n G = G.
Proof.
  intros Hn. unfold touch_node.
  apply dict_mem_true in Hn. by rewrite Hn.
Qed.

Lemma add_edge_frame u v d G h h' :
  u ∈ dict_keys (_succ G) -> v ∈ dict_keys (_succ G) ->
  frame (G, h) (add_edge u v d G, h').
Proof.
  intros Hu Hv. unfold add_edge.
  rewrite (touch_node_present u), (touch_node_present v) by done.
  split; simpl; [done|].
  apply dict_mem_true in Hu. unfold dict_mem in Hu.
  destruct (dict_get u (_succ G)) eqn:E; [|done].
  by eapply dict_keys_set_in.
Qed.

Lemma merge_group_frame g st : frame st (merge_group g st).1.
Proof.
  destruct g as [[u v] ns]. unfold merge_group.
  unfold bind at 1. unfold read_G at 1. cbn [fst snd].
  unfold bind at 1. unfold lift at 1.
  destruct (edge0 u v st.1) as [e|edge_data] eqn:E0; [apply frame_refl|].
  unfold bind at 1. unfold lift at 1.
  destruct (get_list "ndref" edge_data) as [e|l]; [apply frame_refl|].
  unfold bind.
  destruct (merge_run_frame l ns st) as [Hfr Hkeys].
  destruct (merge_run l ns st) as [st1 [e|[]]]; [exact Hfr|].
  cbn [fst snd] in *.
  destruct (last ns) as [n|] eqn:El; [|exact Hfr].
  unfold modify_G, add_edges_from. cbn [fst snd fold_left].
  eapply frame_trans; [exact Hfr|].
  destruct Hfr as [_ Hk].
  destruct st1 as [G1 h1]. cbn [fst snd] in *.
  apply add_edge_frame; rewrite Hk.
  - by eapply edge0_key.
  - apply Hkeys; [done|]. apply last_Some in El as [l' ->].
    apply elem_of_app. right. left.
Qed.

Lemma merge_groups_frame gs : forall st, frame st (merge_groups gs st).1.
Proof.
  induction gs as [|g gs IH]; intros st; [apply frame_refl|].
  cbn [merge_groups]. unfold bind.
  pose proof (merge_group_frame g st) as Hg.
  destruct (merge_group g st) as [st1 [e|[]]]; [exact Hg|].
  eapply frame_trans; [exact Hg|apply IH].
Qed.

Lemma simplify_way_frame recv data st :
  frame st (simplify_way recv data st).1.
Proof.
  unfold simplify_way. unfold bind at 1. unfold lift.
  destruct (group_loop _ _) as [e|g]; [apply frame_refl|].
  unfold bind.
  pose proof (merge_groups_frame (groups g) st) as Hg.
  destruct (merge_groups (groups g) st) as [st1 [e|[]]]; exact Hg.
Qed.

Lemma simplify_ways_frame rn : forall recv st,
  frame st (simplify_ways recv rn st).1.
Proof.
  induction rn as [|[id data] rn IH]; intros recv st; [apply frame_refl|].
  cbn [simplify_ways]. unfold bind.
  pose proof (simplify_way_frame recv data st) as Hw.
  destruct (simplify_way recv data st) as [st1 [e|recv']]; [exact Hw|].
  eapply frame_trans; [exact Hw|apply IH].
Qed.

Lemma simplify_frame st : frame st (simplify st).1.
Proof.
  unfold simplify. unfold bind at 1. unfold read_G. cbn [fst snd].
  unfold bind. unfold lift.
  destruct (collect st.1 (nodes st.1) []) as [e|rn]; [done|].
  apply simplify_ways_frame.
Qed.

(** C9: whatever the graph and however [simplify] ends, the node
    dictionary afterwards is the one before: the same nodes in the same
    order with the same attributes. *)
Theorem simplify_keeps_nodes (st : state) :
  _node (simplify st).1.1 = _node st.1.
Proof. apply simplify_frame. Qed.

(** ** The geometry constructor *)

Lemma update_all_spec {A : Type} (f : A -> A * option exn) (l : list A) :
  match (update_all f l).2 with
  | None =>
      Forall2 (fun x y => f x = (y, None)) l (update_all f l).1
  | Some e => exists x, x ∈ l /\ (f x).2 = Some e
  end.
Proof.
  induction l as [|x l IH]; simpl; [constructor|].
  destruct (f x) as [y [e|]] eqn:Ef; simpl.
  - exists x. split; [left|]. by rewrite Ef.
  - destruct (update_all f l) as [l' r] eqn:Eu. simpl in *.
    destruct r as [e|].
    + destruct IH as (z & Hz & Hfz). exists z. split; [by right|done].
    + by constructor.
Qed.

(** The edges a failed or finished pass has gone through. *)
Lemma update_edges_spec (f : attrs -> exn + attrs) (adj : adjacency) :
  match (update_edges f adj).2 with
  | None =>
      Forall2 (fun e e' : edge => e'.1 = e.1 /\ f e.2 = inr e'.2)
        (edges (mkGraph [] adj)) (edges (mkGraph [] (update_edges f adj).1))
  | Some e =>
      exists u v d, (u, v, d) ∈ edges (mkGraph [] adj) /\ f d = inl e
  end.
Proof.
  unfold update_edges, edges. cbn [_succ].
  set (fk := in_place f).
  set (fn := fun '(v, kd) =>
    let '(kd', r) := update_all fk kd in ((v, kd') : node * keydict, r)).
  set (fu := fun '(u, nbrs) =>
    let '(nbrs', r) := update_all fn nbrs in
    ((u, nbrs') : node * list (node * keydict), r)).
  assert (Hk : forall (u v : node) kd,
    match (update_all fk kd).2 with
    | None =>
        Forall2 (fun e e' : edge => e'.1 = e.1 /\ f e.2 = inr e'.2)
          (map (fun d => (u, v, d)) kd)
          (map (fun d => (u, v, d)) (update_all fk kd).1)
    | Some e => exists d, d ∈ kd /\ f d = inl e
    end).
  { intros u v kd. pose proof (update_all_spec fk kd) as H.
    destruct (update_all fk kd).2 as [e|].
    - destruct H as (d & Hd & Hf). exists d. split; [done|].
      unfold fk, in_place in Hf. destruct (f d); simpl in Hf; congruence.
    - apply Forall2_fmap. eapply Forall2_impl; [exact H|].
      intros d d' Hf. simpl. split; [done|].
      unfold fk, in_place in Hf. destruct (f d); congruence. }
  assert (Hn : forall (u : node) nbrs,
    match (update_all fn nbrs).2 with
    | None =>
        Forall2 (fun e e' : edge => e'.1 = e.1 /\ f e.2 = inr e'.2)
          (edges_from u nbrs) (edges_from u (update_all fn nbrs).1)
    | Some e => exists v d, (u, v, d) ∈ edges_from u nbrs /\ f d = inl e
    end).
  { intros u nbrs. pose proof (update_all_spec fn nbrs) as H.
    destruct (update_all fn nbrs).2 as [e|].
    - destruct H as ([v kd] & Hin & Hf). simpl in Hf.
      specialize (Hk u v kd).
      destruct (update_all fk kd) as [kd' r]. simpl in *. subst r.
      destruct Hk as (d & Hd & Hfd). exists v, d. split; [|done].
      unfold edges_from. apply list_elem_of_In, in_flat_map.
      exists (v, kd). split; [by apply list_elem_of_In|].
      apply list_elem_of_In, list_elem_of_fmap. by exists d.
    - unfold edges_from. induction H as [|[v kd] [v' kd'] l l' Hf Hl IH];
        simpl; [constructor|].
      apply Forall2_app; [|exact IH].
      specialize (Hk u v kd). simpl in Hf.
      destruct (update_all fk kd) as [kd2 r]. simpl in *.
      injection Hf as -> -> ->. exact Hk. }
  pose proof (update_all_spec fu adj) as H.
  destruct (update_all fu adj).2 as [e|].
  - destruct H as ([u nbrs] & Hin & Hf). simpl in Hf.
    specialize (Hn u nbrs).
    destruct (update_all fn nbrs) as [nbrs' r]. simpl in *. subst r.
    destruct Hn as (v & d & Hd & Hfd). exists u, v, d. split; [|done].
    apply list_elem_of_In, in_flat_map.
    exists (u, nbrs). split; [by apply list_elem_of_In|].
    by apply list_elem_of_In.
  - induction H as [|[u nbrs] [u' nbrs'] l l' Hf Hl IH];
      simpl; [constructor|].
    apply Forall2_app; [|exact IH].
    specialize (Hn u nbrs). simpl in Hf.
    destruct (update_all fn nbrs) as [nbrs2 r]. simpl in *.
    injection Hf as -> -> ->. exact Hn.
Qed.

Lemma resolve_spec G refs coords :
  resolve G refs = inr coords ->
  Forall2 (fun r c => node_coord G r = inr c) refs coords.
Proof.
  revert coords. induction refs as [|r refs IH]; intros coords; simpl.
  - intros [= <-]. constructor.
  - destruct (node_coord G r) as [e|c] eqn:Ec; simpl; [done|].
    destruct (resolve G refs) as [e|cs]; simpl; [done|].
    intros [= <-]. constructor; [done|by apply IH].
Qed.

Lemma resolve_all G refs :
  forallb (resolved G) refs = true -> exists coords, resolve G refs = inr coords.
Proof.
  induction refs as [|r refs IH]; simpl; [by eexists|].
  intros [Hr Hrs]%andb_prop. destruct (IH Hrs) as [cs Hcs].
  unfold resolved in Hr. destruct (node_coord G r) as [e|c]; [done|].
  simpl. rewrite Hcs. simpl. by eexists.
Qed.




Lemma LineString_ok coords :
  (2 <= length coords)%nat -> LineString coords = inr coords.
Proof. destruct coords as [|c [|c' cs]]; simpl; [lia|lia|done]. Qed.

Lemma chain_of_get_list h d refs :
  chain_of h d = Some refs ->
  exists l, get_list "ndref" d = inr l /\ h !! l = Some refs.
Proof.
  unfold chain_of, get_list.
  destruct (d !! "ndref") as [[| |]|]; try done. intros H. by eexists.
Qed.



Lemma LineString_inr coords g : LineString coords = inr g -> g = coords.
Proof. destruct coords as [|c [|c' cs]]; simpl; congruence. Qed.

Lemma construct_geometry_inr gl r1 G h d d' :
  construct_geometry gl r1 G h d = inr d' ->
  exists refs coords,
    chain_of h d = Some refs /\ resolve G refs = inr coords
    /\ d' !! "geometry" = Some (VGeometry coords).
Proof.
  unfold construct_geometry, chain_of, get_list.
  destruct (d !! "ndref") as [[j|l|g]|]; simpl; try done.
  destruct (h !! l) as [refs|]; [|done].
  destruct (resolve G refs) as [e|coords] eqn:Er; simpl; [done|].
  destruct (LineString coords) as [e|g] eqn:El; simpl; [done|].
  apply LineString_inr in El as ->. intros [= <-].
  exists refs, coords. split; [done|]. split; [done|].
  rewrite lookup_delete_ne by done.
  rewrite lookup_insert_ne by done. by rewrite lookup_insert_eq.
Qed.

(** When every chain starts at the edge's [u] and ends at its [v], a
    pass of [construct_geometries] that ends without an error leaves every
    edge with a geometry whose first and last coordinates are the
    registered coordinates of [u] and of [v]. *)
Lemma geometry_endpoints
    (geometry_length : list coord -> Float) (round1 : Float -> Float)
    (st : state) :
  forallb (chain_spans st.2) (edges st.1) = true ->
  (construct_geometries geometry_length round1 st).2 = inr tt ->
  forall u v d',
    (u, v, d') ∈ edges (construct_geometries geometry_length round1 st).1.1 ->
    exists g cu cv,
      d' !! "geometry" = Some (VGeometry g)
      /\ node_coord st.1 u = inr cu /\ node_coord st.1 v = inr cv
      /\ head g = Some cu /\ last g = Some cv.
Proof.
  destruct st as [G h]. unfold construct_geometries. cbn [fst snd].
  pose proof (update_edges_spec
    (construct_geometry geometry_length round1 G h) (_succ G)) as Hspec.
  destruct (update_edges _ (_succ G)) as [adj r]. cbn [fst snd] in *.
  intros Hspan Hok u v d' Hin. destruct r as [e|]; [done|].
  change (edges {| _node := _node G; _succ := adj |})
    with (edges (mkGraph [] adj)) in Hin.
  apply list_elem_of_lookup in Hin as [i Hi].
  destruct (Forall2_lookup_r _ _ _ i _ Hspec Hi)
    as ([[u0 v0] d] & Hi0 & Huv & Hd).
  simpl in Huv, Hd. injection Huv as <- <-.
  rewrite forallb_forall in Hspan.
  assert (Hin0 : In (u, v, d) (edges G)).
  { apply list_elem_of_In, list_elem_of_lookup. by exists i. }
  specialize (Hspan _ Hin0). unfold chain_spans in Hspan. simpl in Hspan.
  apply construct_geometry_inr in Hd as (refs & coords & Hc & Hr & Hg).
  rewrite Hc in Hspan. apply andb_prop in Hspan as [Hh Hl].
  apply bool_decide_eq_true in Hh, Hl.
  apply resolve_spec in Hr.
  destruct refs as [|r0 refs]; [done|]. simpl in Hh. injection Hh as ->.
  apply last_Some in Hl as [front Hfront].
  pose proof Hr as Hr'. rewrite Hfront in Hr'.
  apply Forall2_app_inv_l in Hr' as (cf & cl & Hcf & Hcl & Hcoords).
  apply Forall2_cons_inv_l in Hcl as (cv & cl' & Hcv & Hnil & ->).
  apply Forall2_nil_inv_l in Hnil as ->.
  apply Forall2_cons_inv_l in Hr as (cu & cs & Hcu & _ & Hcs).
  exists coords, cu, cv. repeat split; try done.
  - by rewrite Hcs.
  - rewrite Hcoords. by rewrite last_snoc.
Qed.

(** ** The edge filter *)

Lemma dict_keys_set_fresh `{EqDecision K} {V : Type} (k : K) (x : V) d :
  dict_get k d = None -> dict_keys (dict_set k x d) = dict_keys d ++ [k].
Proof.
  intros H. rewrite dict_set_fresh by done.
  unfold dict_keys. by rewrite map_app.
Qed.

Lemma dict_get_keys_eq `{EqDecision K} {V W : Type} (k : K)
    (d : list (K * V)) (d' : list (K * W)) :
  dict_keys d = dict_keys d' ->
  dict_get k d = None <-> dict_get k d' = None.
Proof. intros H. by rewrite !dict_get_None_keys, H. Qed.










(** ** The exchange codec *)









(** ** The first loop of the simplifier *)



(** ** The second loop keeps the edges out of the other nodes *)

Lemma elem_of_edges u v d G :
  (u, v, d) ∈ edges G <->
  exists nbrs kd, (u, nbrs) ∈ _succ G /\ (v, kd) ∈ nbrs /\ d ∈ kd.
Proof.
  unfold edges. rewrite list_elem_of_In, in_flat_map. split.
  - intros ([u' nbrs] & Hin & He). unfold edges_from in He.
    apply in_flat_map in He as ([v' kd] & Hin' & Hd).
    apply list_elem_of_In, list_elem_of_fmap in Hd as (d' & [= -> -> ->] & Hd).
    exists nbrs, kd.
    split; [by apply list_elem_of_In|]. split; [by apply list_elem_of_In|done].
  - intros (nbrs & kd & Hu & Hv & Hd). exists (u, nbrs).
    split; [by apply list_elem_of_In|].
    unfold edges_from. apply in_flat_map. exists (v, kd).
    split; [by apply list_elem_of_In|].
    apply list_elem_of_In, list_elem_of_fmap. by exists d.
Qed.


Lemma elem_of_dict_set `{EqDecision K} {V : Type} (k k' : K) (x y : V) d :
  (k, x) ∈ dict_set k' y d -> (k, x) = (k', y) \/ (k, x) ∈ d.
Proof.
  induction d as [|[k0 z] d IH]; simpl.
  - intros [->|H]%elem_of_cons; [by left|by right].
  - destruct (decide (k' = k0)) as [->|Hne].
    + intros [->|H]%elem_of_cons; [by left|]. right. by right.
    + intros [->|H]%elem_of_cons; [right; left|].
      destruct (IH H) as [?|?]; [by left|]. right. by right.
Qed.













Lemma edges_between_elem u v d G :
  d ∈ edges_between u v G -> (u, v, d) ∈ edges G.
Proof.
  unfold edges_between.
  destruct (dict_get u (_succ G)) as [nbrs|] eqn:Eu;
    [|intros H; by apply elem_of_nil in H].
  destruct (dict_get v nbrs) as [kd|] eqn:Ev;
    [|intros H; by apply elem_of_nil in H].
  simpl. intros Hd. apply elem_of_edges. exists nbrs, kd.
  split; [by apply dict_get_Some_in|]. split; [by apply dict_get_Some_in|done].
Qed.

Lemma edge0_between u v d G :
  edge0 u v G = inr d -> head (edges_between u v G) = Some d.
Proof.
  unfold edge0, edges_between.
  destruct (dict_get u (_succ G)) as [nbrs|]; [|done].
  destruct (dict_get v nbrs) as [[|d0 kd]|]; try done.
  by intros [= ->].
Qed.



(** ** The simplifier only extends chains *)

Lemma grows_refl h : grows h h.
Proof. intros l c H. exists []. by rewrite app_nil_r. Qed.

Lemma grows_trans h1 h2 h3 : grows h1 h2 -> grows h2 h3 -> grows h1 h3.
Proof.
  intros H12 H23 l c H. destruct (H12 l c H) as [c1 H1].
  destruct (H23 l _ H1) as [c2 H2]. exists (c1 ++ c2).
  by rewrite (assoc_L (++)).
Qed.

Lemma grows_append (h : store) l x : grows h (alter (fun c => c ++ [x]) l h).
Proof.
  intros l0 c H. destruct (decide (l0 = l)) as [->|Hne].
  - exists [x]. by rewrite list_lookup_alter_eq, H.
  - exists []. by rewrite list_lookup_alter_ne, app_nil_r.
Qed.

Lemma extends_refl st : extends st st.
Proof. split; [apply grows_refl|]. intros u v d H. by exists u, v. Qed.

Lemma extends_trans st1 st2 st3 :
  extends st1 st2 -> extends st2 st3 -> extends st1 st3.
Proof.
  intros [Hg1 He1] [Hg2 He2]. split; [by eapply grows_trans|].
  intros u v d H. destruct (He2 u v d H) as (u' & v' & H').
  by apply (He1 u' v' d).
Qed.

Lemma elem_of_dict_del `{EqDecision K} {V : Type} (k k' : K) (x : V) d :
  (k, x) ∈ dict_del k' d -> (k, x) ∈ d.
Proof.
  induction d as [|[k0 z] d IH]; simpl; [done|].
  destruct (decide (k' = k0)); intros H; [by right|].
  apply elem_of_cons in H as [->|H]; [left|right; by apply IH].
Qed.

Lemma elem_of_removelast {A : Type} (x : A) (l : list A) :
  x ∈ removelast l -> x ∈ l.
Proof.
  induction l as [|y l IH]; simpl; [done|].
  destruct l as [|z l]; [intros H; by apply elem_of_nil in H|].
  intros [->|H]%elem_of_cons; [left|right; by apply IH].
Qed.

Lemma remove_edge_subset m f G G' u v d :
  remove_edge m f G = inr G' ->
  (u, v, d) ∈ edges G' -> (u, v, d) ∈ edges G.
Proof.
  unfold remove_edge.
  destruct (dict_get m (_succ G)) as [nbrs|] eqn:Em; [|done].
  destruct (dict_get f nbrs) as [kd|] eqn:Ef; [|done].
  intros [= <-]. rewrite !elem_of_edges. simpl.
  intros (nbrs0 & kd0 & Hu & Hv & Hd).
  apply elem_of_dict_set in Hu as [[= -> ->]|Hu]; [|by exists nbrs0, kd0].
  exists nbrs. apply dict_get_Some_in in Em, Ef.
  destruct (removelast kd) as [|d0 kd'] eqn:Er.
  - apply elem_of_dict_del in Hv. by exists kd0.
  - apply elem_of_dict_set in Hv as [[= -> ->]|Hv]; [|by exists kd0].
    exists kd. split; [done|]. split; [done|].
    apply elem_of_removelast. by rewrite Er.
Qed.

Lemma merge_run_extends l ns : forall st, extends st (merge_run l ns st).1.
Proof.
  induction ns as [|n ns IH]; intros st; [apply extends_refl|].
  rewrite merge_run_cons.
  destruct (first_successor n st.1) as [e|x]; [apply extends_refl|].
  cbn zeta.
  assert (H1 : extends st (st.1, alter (fun c => c ++ [x]) l st.2)).
  { split; [apply grows_append|]. intros u v d H. by exists u, v. }
  destruct (remove_edge n x st.1) as [e|G'] eqn:Er; [exact H1|].
  eapply extends_trans; [|apply IH].
  split; [apply grows_append|]. simpl. intros u v d H.
  exists u, v. by eapply remove_edge_subset.
Qed.

Lemma edge0_elem u v d G : edge0 u v G = inr d -> (u, v, d) ∈ edges G.
Proof.
  intros H. apply edges_between_elem. apply edge0_between in H.
  destruct (edges_between u v G) as [|d0 kd]; [done|].
  injection H as ->. left.
Qed.

Lemma merge_group_extends g st : extends st (merge_group g st).1.
Proof.
  destruct g as [[u v] ns]. unfold merge_group.
  unfold bind at 1. unfold read_G at 1. cbn [fst snd].
  unfold bind at 1. unfold lift at 1.
  destruct (edge0 u v st.1) as [e|edge_data] eqn:E0; [apply extends_refl|].
  unfold bind at 1. unfold lift at 1.
  destruct (get_list "ndref" edge_data) as [e|l]; [apply extends_refl|].
  unfold bind.
  pose proof (merge_run_extends l ns st) as Hrun.
  destruct (merge_run l ns st) as [st1 [e|[]]]; [exact Hrun|].
  cbn [fst snd] in *.
  destruct (last ns) as [n|]; [|exact Hrun].
  unfold modify_G, add_edges_from. cbn [fst snd fold_left].
  destruct Hrun as [Hg He]. split; [exact Hg|]. cbn [fst snd].
  intros a b d Hin. rewrite edges_add_edge in Hin.
  apply elem_of_app in Hin as [Hin|Hin]; [by apply (He a b d)|].
  apply list_elem_of_singleton in Hin as [= -> -> ->].
  exists u, v. by apply edge0_elem.
Qed.

Lemma merge_groups_extends gs : forall st, extends st (merge_groups gs st).1.
Proof.
  induction gs as [|g gs IH]; intros st; [apply extends_refl|].
  cbn [merge_groups]. unfold bind.
  pose proof (merge_group_extends g st) as Hg.
  destruct (merge_group g st) as [st1 [e|[]]]; [exact Hg|].
  eapply extends_trans; [exact Hg|apply IH].
Qed.

Lemma simplify_way_extends recv data st :
  extends st (simplify_way recv data st).1.
Proof.
  unfold simplify_way. unfold bind at 1. unfold lift.
  destruct (group_loop _ _) as [e|g]; [apply extends_refl|].
  unfold bind.
  pose proof (merge_groups_extends (groups g) st) as Hg.
  destruct (merge_groups (groups g) st) as [st1 [e|[]]]; exact Hg.
Qed.

Lemma simplify_ways_extends rn : forall recv st,
  extends st (simplify_ways recv rn st).1.
Proof.
  induction rn as [|[id data] rn IH]; intros recv st; [apply extends_refl|].
  cbn [simplify_ways]. unfold bind.
  pose proof (simplify_way_extends recv data st) as Hw.
  destruct (simplify_way recv data st) as [st1 [e|recv']]; [exact Hw|].
  eapply extends_trans; [exact Hw|apply IH].
Qed.

Lemma simplify_extends st : extends st (simplify st).1.
Proof.
  unfold simplify. unfold bind at 1. unfold read_G. cbn [fst snd].
  unfold bind. unfold lift.
  destruct (collect st.1 (nodes st.1) []) as [e|rn]; [apply extends_refl|].
  apply simplify_ways_extends.
Qed.

(** ** A way without repeated nodes *)

Section DictApp.
Context `{EqDecision K} {V : Type}.
Implicit Types (k : K) (d : list (K * V)).

Lemma dict_get_app_l k d d' x :
  dict_get k d = Some x -> dict_get k (d ++ d') = Some x.
Proof.
  induction d as [|[k' y] d IH]; simpl; [done|].
  destruct (decide (k = k')); [done|apply IH].
Qed.

Lemma dict_get_app_r k d d' :
  k ∉ dict_keys d -> dict_get k (d ++ d') = dict_get k d'.
Proof.
  induction d as [|[k' y] d IH]; simpl; [done|].
  intros [Hne Hk]%not_elem_of_cons.
  rewrite decide_False by done. by apply IH.
Qed.

Lemma dict_set_app_r k x d d' :
  k ∉ dict_keys d -> dict_set k x (d ++ d') = d ++ dict_set k x d'.
Proof.
  induction d as [|[k' y] d IH]; simpl; [done|].
  intros [Hne Hk]%not_elem_of_cons.
  rewrite decide_False by done. f_equal. by apply IH.
Qed.

Lemma dict_keys_app d d' : dict_keys (d ++ d') = dict_keys d ++ dict_keys d'.
Proof. unfold dict_keys. apply map_app. Qed.

Lemma dict_get_head k x d : dict_get k ((k, x) :: d) = Some x.
Proof. simpl. by rewrite decide_True. Qed.

Lemma dict_get_tail k k' x d :
  k <> k' -> dict_get k ((k', x) :: d) = dict_get k d.
Proof. intros. simpl. by rewrite decide_False. Qed.

Lemma dict_set_head k x y d : dict_set k x ((k, y) :: d) = (k, x) :: d.
Proof. simpl. by rewrite decide_True. Qed.

Lemma dict_set_tail k k' x y d :
  k <> k' -> dict_set k x ((k', y) :: d) = (k', y) :: dict_set k x d.
Proof. intros. simpl. by rewrite decide_False. Qed.

End DictApp.

Lemma lonlat_idemp x y : lonlat x y ∪ lonlat x y = lonlat x y.
Proof. apply (idemp_L (∪)). Qed.

(** One pass of the segment loop at the end of a path under
    construction. *)
Lemma way_segment_path d2 i u v (N : list (node * attrs)) (A : adjacency)
    (h : store) (a : attrs) :
  dict_keys N = dict_keys A ->
  ref u ∉ dict_keys A -> ref v ∉ dict_keys A -> ref u <> ref v ->
  lonlat (lon u) (lat u) ∪ a = lonlat (lon u) (lat u) ->
  way_segment d2 i u v (mkGraph (N ++ [(ref u, a)]) (A ++ [(ref u, [])]), h)
  = (mkGraph ((N ++ [(ref u, lonlat (lon u) (lat u))])
                ++ [(ref v, lonlat (lon v) (lat v))])
       ((A ++ [(ref u, [(ref v, [(segment_edge d2 (length h) i 0 (u, v)).2])])])
          ++ [(ref v, [])]),
     h ++ [segment_chain (u, v)]).
Proof.
  intros Hk Hu Hv Huv Ha.
  assert (HuN : ref u ∉ dict_keys N) by by rewrite Hk.
  assert (HvN : ref v ∉ dict_keys N) by by rewrite Hk.
  unfold way_segment, add_edges_from. cbn [fold_left].
  unfold segment_edge, segment_chain. cbn [fst snd].
  rewrite Nat.add_0_r, Z.add_0_r.
  set (d3 := <["ndref":=VList (length h)]> (<["segment":=VJson (JInt i)]> d2)).
  f_equal.
  (* add_edge *)
  unfold add_edge.
  assert (Ht1 : touch_node (ref u)
    (mkGraph (N ++ [(ref u, a)]) (A ++ [(ref u, [])]))
    = mkGraph (N ++ [(ref u, a)]) (A ++ [(ref u, [])])).
  { apply touch_node_present. simpl. rewrite dict_keys_app.
    apply elem_of_app. right. left. }
  rewrite Ht1.
  assert (Ht2 : touch_node (ref v)
    (mkGraph (N ++ [(ref u, a)]) (A ++ [(ref u, [])]))
    = mkGraph (N ++ [(ref u, a); (ref v, ∅)])
        (A ++ [(ref u, []); (ref v, [])])).
  { unfold touch_node, dict_mem. simpl.
    rewrite (dict_get_app_r (ref v) A) by done.
    rewrite dict_get_tail by done. simpl.
    rewrite !dict_set_app_r by done.
    rewrite !dict_set_tail by done. done. }
  rewrite Ht2. cbn [_succ _node].
  rewrite (dict_get_app_r (ref u) A) by done.
  rewrite dict_get_head. cbn [default from_option id dict_get dict_set app].
  rewrite dict_set_app_r by done. rewrite dict_set_head.
  (* add_node u *)
  unfold add_node at 2. cbn [_succ _node]. unfold dict_mem.
  rewrite (dict_get_app_r (ref u) A) by done. rewrite dict_get_head.
  rewrite (dict_get_app_r (ref u) N) by done. rewrite dict_get_head.
  cbn [default from_option id]. rewrite Ha.
  rewrite dict_set_app_r by done. rewrite dict_set_head.
  (* add_node v *)
  unfold add_node. cbn [_succ _node]. unfold dict_mem.
  rewrite (dict_get_app_r (ref v) A) by done.
  rewrite dict_get_tail, dict_get_head by done.
  rewrite (dict_get_app_r (ref v) N) by done.
  rewrite dict_get_tail, dict_get_head by done.
  cbn [default from_option id]. rewrite (right_id_L ∅ (∪)).
  rewrite dict_set_app_r by done.
  rewrite dict_set_tail, dict_set_head by done.
  by rewrite <- !(assoc_L (++)).
Qed.

Lemma segment_pairs_cons u v rest :
  segment_pairs (u :: v :: rest) = (u, v) :: segment_pairs (v :: rest).
Proof. done. Qed.

Lemma way_steps_cons d2 l0 i0 u v rest :
  way_steps d2 l0 i0 (u :: v :: rest)
  = (ref v, (segment_edge d2 l0 i0 0 (u, v)).2)
    :: way_steps d2 (l0 + 1) (i0 + 1) (v :: rest).
Proof.
  unfold way_steps. rewrite segment_pairs_cons, imap_cons. f_equal.
  apply imap_ext. intros k p _. unfold segment_edge. simpl.
  replace (l0 + 1 + k)%nat with (l0 + S k)%nat by lia.
  replace (i0 + 1 + Z.of_nat k) with (i0 + Z.of_nat (S k)) by lia.
  done.
Qed.

Lemma NoDup_ref_head u ns :
  NoDup (map ref (u :: ns)) -> forall n, n ∈ ns -> ref n <> ref u.
Proof.
  intros Hnd n Hn Heq. change (NoDup (ref u :: map ref ns)) in Hnd.
  apply NoDup_cons in Hnd as [Hnd _]. apply Hnd. rewrite <- Heq.
  apply list_elem_of_fmap. by exists n.
Qed.

Lemma NoDup_ref_tail u ns :
  NoDup (map ref (u :: ns)) -> NoDup (map ref ns).
Proof.
  intros Hnd. change (NoDup (ref u :: map ref ns)) in Hnd.
  by apply NoDup_cons in Hnd as [_ Hnd].
Qed.

(** The segment loop on a way without repeated nodes, from the state in
    which its first node ends the adjacency dictionary. *)
Lemma way_loop_path d2 rest : forall u v i (N : list (node * attrs))
    (A : adjacency) (h : store) (a : attrs),
  dict_keys N = dict_keys A ->
  NoDup (map ref (u :: v :: rest)) ->
  (forall n, n ∈ u :: v :: rest -> ref n ∉ dict_keys A) ->
  lonlat (lon u) (lat u) ∪ a = lonlat (lon u) (lat u) ->
  way_loop d2 i (u :: v :: rest)
    (mkGraph (N ++ [(ref u, a)]) (A ++ [(ref u, [])]), h)
  = (mkGraph (N ++ map node_entry (u :: v :: rest))
       (A ++ path_adj (ref u) (way_steps d2 (length h) i (u :: v :: rest))),
     h ++ map segment_chain (segment_pairs (u :: v :: rest))).
Proof.
  induction rest as [|w rest IH]; intros u v i N A h a Hk Hnd HA Ha.
  - change (way_loop d2 i [u; v] ?st) with (way_segment d2 i u v st).
    assert (Huv : ref u <> ref v)
      by (intros Heq; by apply (NoDup_ref_head u [v] Hnd v); [left|]).
    rewrite way_segment_path; try done.
    + by rewrite <- !(assoc_L (++)).
    + apply HA. left.
    + apply HA. right. left.
  - change (way_loop d2 i (u :: v :: w :: rest) ?st)
      with (way_loop d2 (i + 1) (v :: w :: rest) (way_segment d2 i u v st)).
    assert (Huv : ref u <> ref v)
      by (intros Heq; by apply (NoDup_ref_head u _ Hnd v); [left|]).
    rewrite way_segment_path; try done;
      [|apply HA; left|apply HA; right; left].
    rewrite IH.
    + rewrite (way_steps_cons d2 (length h) i u v (w :: rest)).
      rewrite (segment_pairs_cons u v (w :: rest)).
      rewrite length_app. cbn [length path_adj map].
      by rewrite <- !(assoc_L (++)).
    + rewrite !dict_keys_app. simpl. by rewrite Hk.
    + by apply NoDup_ref_tail in Hnd.
    + intros n Hn. rewrite dict_keys_app. simpl.
      apply not_elem_of_app. split; [apply HA; by right|].
      apply not_elem_of_cons. split; [|apply not_elem_of_nil].
      by apply (NoDup_ref_head u _ Hnd).
    + apply lonlat_idemp.
Qed.

(** The graph the builder makes of one way without repeated nodes. *)
Lemma from_pbf_path way_filter normalize (w : Way) u v rest :
  accepts way_filter w = true ->
  w_nodes w = u :: v :: rest ->
  NoDup (map ref (w_nodes w)) ->
  from_pbf way_filter normalize [w]
  = (mkGraph (map node_entry (w_nodes w))
       (path_adj (ref u)
          (way_steps (way_attrs normalize w) 0 0 (w_nodes w))),
     map segment_chain (segment_pairs (w_nodes w))).
Proof.
  intros Hacc Hns Hnd. unfold from_pbf. cbn [fold_left]. unfold way.
  rewrite Hacc, Hns in *.
  set (d2 := way_attrs normalize w).
  change (way_loop d2 0 (u :: v :: rest) ?st)
    with (way_loop d2 (0 + 1) (v :: rest) (way_segment d2 0 u v st)).
  assert (Huv : ref u <> ref v)
    by (intros Heq; by apply (NoDup_ref_head u _ Hnd v); [left|]).
  assert (Hseg : way_segment d2 0 u v (empty_graph, [])
    = way_segment d2 0 u v
        (mkGraph ([] ++ [(ref u, ∅)]) ([] ++ [(ref u, [])]), [])).
  { unfold way_segment, add_edges_from. cbn [fold_left]. unfold add_edge.
    rewrite (touch_node_present (ref u) (mkGraph ([] ++ _) _))
      by (simpl; left).
    reflexivity. }
  rewrite Hseg, way_segment_path;
    [|done|apply not_elem_of_nil|apply not_elem_of_nil|done
     |by rewrite (right_id_L ∅ (∪))].
  destruct rest as [|w' rest].
  - by cbn.
  - rewrite (way_loop_path d2 rest v w' (0 + 1) _ _ _
               (lonlat (lon v) (lat v))).
    + rewrite (way_steps_cons d2 0 0 u v). by cbn.
    + done.
    + by apply NoDup_ref_tail in Hnd.
    + intros n Hn. simpl. apply not_elem_of_cons.
      split; [|apply not_elem_of_nil].
      by apply (NoDup_ref_head u _ Hnd).
    + apply lonlat_idemp.
Qed.

Lemma path_adj_keys r steps :
  dict_keys (path_adj r steps) = r :: map fst steps.
Proof.
  revert r. induction steps as [|[r' d] steps IH]; intros r; simpl; [done|].
  f_equal. apply IH.
Qed.





Lemma default_last_cons {A : Type} (a b c : A) (l : list A) :
  default a (last (c :: l)) = default b (last (c :: l)).
Proof.
  revert c. induction l as [|x l IH]; intros c; [done|].
  rewrite !last_cons_cons. apply IH.
Qed.







Lemma path_triples_head r i steps :
  match path_triples r i steps with
  | [] => True
  | y :: _ => segment_of y = i
  end.
Proof. by destruct steps as [|[x d] [|[q dq] rest]]. Qed.

(** The tuples of a path come sorted. *)
Lemma sorted_path_triples steps : forall r i,
  sorted (path_triples r i steps) = path_triples r i steps.
Proof.
  induction steps as [|[x d] steps IH]; intros r i; [done|].
  destruct steps as [|[q dq] rest]; [done|].
  change (path_triples r i ((x, d) :: (q, dq) :: rest))
    with ((r, x, q, i) :: path_triples x (i + 1) ((q, dq) :: rest)).
  change (sorted (?a :: ?l)) with (insert_sorted a (sorted l)).
  rewrite IH.
  pose proof (path_triples_head x (i + 1) ((q, dq) :: rest)) as Hhd.
  destruct (path_triples x (i + 1) ((q, dq) :: rest)) as [|y l]; [done|].
  cbn [insert_sorted]. rewrite Hhd. unfold segment_of at 1. cbn [snd].
  by rewrite (proj2 (Z.ltb_ge (i + 1) i)) by lia.
Qed.

Lemma path_triples_nodes steps : forall r i,
  map nd_node (path_triples r i steps) = map fst (removelast steps).
Proof.
  induction steps as [|[x d] steps IH]; intros r i; [done|].
  destruct steps as [|[q dq] rest]; [done|].
  change (path_triples r i ((x, d) :: (q, dq) :: rest))
    with ((r, x, q, i) :: path_triples x (i + 1) ((q, dq) :: rest)).
  change (removelast ((x, d) :: (q, dq) :: rest))
    with ((x, d) :: removelast ((q, dq) :: rest)).
  cbn [map]. f_equal. apply IH.
Qed.





Lemma edges_path_single N r x d :
  edges (mkGraph N (path_adj r [(x, d)])) = [(r, x, d)].
Proof. done. Qed.


Lemma way_steps_targets d2 l0 i0 u ns :
  map fst (way_steps d2 l0 i0 (u :: ns)) = map ref ns.
Proof.
  revert u l0 i0. induction ns as [|v ns IH]; intros u l0 i0; [done|].
  rewrite way_steps_cons. cbn [map fst]. f_equal. apply IH.
Qed.

Lemma way_steps_lookup d2 l0 i0 ns j x d :
  way_steps d2 l0 i0 ns !! j = Some (x, d) ->
  exists p, d = (segment_edge d2 l0 i0 j p).2.
Proof.
  unfold way_steps. rewrite list_lookup_imap.
  destruct (segment_pairs ns !! j) as [p|]; [|done].
  intros [= _ <-]. by exists p.
Qed.

Lemma way_attrs_osm_id normalize (w : Way) :
  normalize (w_tags w) !! "osm_id" = None ->
  get_int "osm_id" (way_attrs normalize w) = inr (w_id w).
Proof.
  intros Hn. unfold get_int, way_attrs.
  rewrite lookup_union_r by done. by rewrite lookup_singleton_eq.
Qed.


(** ** No node reference is lost *)



Section DictPerm.
Context `{EqDecision K} {V B : Type}.
Implicit Types (k : K) (d : list (K * V)).



End DictPerm.











Lemma simplify_ways_cons recv id data rn st :
  simplify_ways recv ((id, data) :: rn) st =
  match group_loop (mkGrouping [] (-10) recv) (sorted data) with
  | inl e => (st, inl e)
  | inr g =>
      match merge_groups (groups g) st with
      | (st1, inl e) => (st1, inl e)
      | (st1, inr _) => simplify_ways (receiving_edge g) rn st1
      end
  end.
Proof.
  cbn [simplify_ways]. unfold simplify_way, bind, lift, ret.
  destruct (group_loop _ (sorted data)) as [e|g]; [done|].
  by destruct (merge_groups (groups g) st) as [st1 [e|[]]].
Qed.






Lemma merge_group_eq a b ns st :
  merge_group (a, b, ns) st =
  match edge0 a b st.1 with
  | inl e => (st, inl e)
  | inr d =>
      match get_list "ndref" d with
      | inl e => (st, inl e)
      | inr l =>
          match merge_run l ns st with
          | (st1, inl e) => (st1, inl e)
          | (st1, inr _) =>
              match last ns with
              | None => (st1, inl "UnboundLocalError")
              | Some n => ((add_edge a n d st1.1, st1.2), inr tt)
              end
          end
      end
  end.
Proof.
  unfold merge_group, bind, read_G, lift, modify_G. cbn [fst snd].
  destruct (edge0 a b st.1) as [e|d]; [done|].
  destruct (get_list "ndref" d) as [e|l]; [done|].
  destruct (merge_run l ns st) as [st1 [e|[]]]; [done|].
  by destruct (last ns).
Qed.

Section NoLoss.

(** The graph before [simplify] and the nodes the second loop visits. *)
Variable G0 : MultiDiGraph.
Variable cand : list node.






Hypothesis cand_succ :
  forall n, n ∈ cand -> exists f, first_successor n G0 = inr f.




Variable targets : list node.



End NoLoss.

Lemma dict_get_NoDup `{EqDecision K} {V : Type} (k : K) (x : V) d :
  NoDup (dict_keys d) -> (k, x) ∈ d -> dict_get k d = Some x.
Proof.
  induction d as [|[k' z] d IH]; simpl; intros Hnd Hin.
  { by apply elem_of_nil in Hin. }
  apply NoDup_cons in Hnd as [Hk Hnd].
  apply elem_of_cons in Hin as [[= <- <-]|Hin].
  - by rewrite decide_True.
  - rewrite decide_False; [by apply IH|]. intros ->. apply Hk.
    apply list_elem_of_fmap. by exists (k', x).
Qed.


Lemma elem_of_end_points x G :
  x ∈ end_points G
  <-> exists u v d, (u, v, d) ∈ edges G /\ (x = u \/ x = v).
Proof.
  unfold end_points. rewrite list_elem_of_In, in_flat_map. split.
  - intros ([[u v] d] & Hin & Hx). exists u, v, d.
    split; [by apply list_elem_of_In|]. simpl in Hx.
    destruct Hx as [<-|[<-|[]]]; auto.
  - intros (u & v & d & Hin & Hx). exists (u, v, d).
    split; [by apply list_elem_of_In|]. simpl. destruct Hx as [->| ->]; auto.
Qed.



Lemma simplify_eq st :
  simplify st =
  match collect st.1 (nodes st.1) [] with
  | inl e => (st, inl e)
  | inr rn => simplify_ways None rn st
  end.
Proof.
  unfold simplify, bind, read_G, lift. cbn [fst snd].
  by destruct (collect st.1 (nodes st.1) []).
Qed.


Lemma dict_keys_set_NoDup `{EqDecision K} {V : Type} (k : K) (x : V) d :
  NoDup (dict_keys d) -> NoDup (dict_keys (dict_set k x d)).
Proof.
  intros Hnd. destruct (dict_get k d) as [y|] eqn:E.
  - by rewrite (dict_keys_set_in k x y d E).
  - rewrite dict_set_fresh by done. unfold dict_keys in *.
    rewrite map_app. simpl. apply NoDup_app. split; [done|].
    split; [|apply NoDup_singleton].
    intros k' Hk' ->%list_elem_of_singleton.
    by apply dict_get_None_keys in E.
Qed.

Lemma touch_node_tidy n G : tidy G -> tidy (touch_node n G).
Proof.
  intros [H1 H2]. unfold touch_node. destruct (dict_mem n (_succ G)); [done|].
  split; unfold nodes; simpl; by apply dict_keys_set_NoDup.
Qed.

Lemma add_node_tidy n a G : tidy G -> tidy (add_node n a G).
Proof.
  intros [H1 H2]. unfold add_node. destruct (dict_mem n (_succ G)).
  - split; unfold nodes; simpl; [by apply dict_keys_set_NoDup|done].
  - split; unfold nodes; simpl; by apply dict_keys_set_NoDup.
Qed.

Lemma add_edge_tidy u v d G : tidy G -> tidy (add_edge u v d G).
Proof.
  intros HG. unfold add_edge.
  destruct (touch_node_tidy v _ (touch_node_tidy u G HG)) as [H1 H2].
  split; unfold nodes; simpl; [done|by apply dict_keys_set_NoDup].
Qed.

Lemma way_segment_tidy d2 i u v st :
  tidy st.1 -> tidy (way_segment d2 i u v st).1.
Proof.
  destruct st as [G h]. intros HG. unfold way_segment. cbn [fst].
  by apply add_node_tidy, add_node_tidy, add_edge_tidy.
Qed.

Lemma way_loop_tidy d2 ns : forall i st,
  tidy st.1 -> tidy (way_loop d2 i ns st).1.
Proof.
  induction ns as [|u ns IH]; intros i st HG; [done|].
  destruct ns as [|v rest]; [done|].
  change (way_loop d2 i (u :: v :: rest) st)
    with (way_loop d2 (i + 1) (v :: rest) (way_segment d2 i u v st)).
  by apply IH, way_segment_tidy.
Qed.

Lemma chain_of_app (h cs : store) d c :
  chain_of h d = Some c -> chain_of (h ++ cs) d = Some c.
Proof.
  unfold chain_of. destruct (d !! "ndref") as [[| |]|]; try done.
  apply lookup_app_l_Some.
Qed.

Lemma way_loop_paired d2 ns i st :
  paired st -> paired (way_loop d2 i ns st).
Proof.
  destruct st as [G h]. intros Hp u v d Hin.
  destruct (way_loop_spec d2 ns i G h) as [He Hh].
  cbn [fst snd] in *. rewrite Hh. rewrite He in Hin.
  apply elem_of_app in Hin as [Hin|Hin].
  - apply chain_of_app. by apply Hp.
  - apply list_elem_of_lookup in Hin as [k Hk].
    rewrite list_lookup_imap in Hk.
    destruct (segment_pairs ns !! k) as [p|] eqn:Ek; [|done].
    simpl in Hk. injection Hk as Hu Hv Hd. subst u v. rewrite <- Hd.
    apply (chain_of_segment_edge d2 h i k p
             (map segment_chain (segment_pairs ns))).
    by rewrite list_lookup_fmap, Ek.
Qed.

Section BuiltGraph.
Variable way_filter : option (gmap string string -> bool).
Variable normalize : gmap string string -> attrs.

Lemma way_tidy w st : tidy st.1 -> tidy (way way_filter normalize w st).1.
Proof.
  intros H. unfold way. destruct (accepts way_filter w); [|done].
  by apply way_loop_tidy.
Qed.

Lemma way_paired w st : paired st -> paired (way way_filter normalize w st).
Proof.
  intros H. unfold way. destruct (accepts way_filter w); [|done].
  by apply way_loop_paired.
Qed.

Lemma way_end_points_mono w st x :
  x ∈ end_points st.1 -> x ∈ end_points (way way_filter normalize w st).1.
Proof.
  unfold way. destruct (accepts way_filter w); [|done].
  destruct st as [G h]. rewrite !elem_of_end_points.
  intros (u & v & d & Hin & Hx). exists u, v, d. split; [|done].
  destruct (way_loop_spec (way_attrs normalize w) (w_nodes w) 0 G h)
    as [He _].
  rewrite He. apply elem_of_app. by left.
Qed.

Lemma way_end_points w st x :
  accepts way_filter w = true -> (2 <= length (w_nodes w))%nat ->
  x ∈ map ref (w_nodes w) ->
  x ∈ end_points (way way_filter normalize w st).1.
Proof.
  intros Hacc Hlen Hx. unfold way. rewrite Hacc.
  destruct st as [G h].
  destruct (way_loop_spec (way_attrs normalize w) (w_nodes w) 0 G h)
    as [He _].
  apply list_elem_of_fmap in Hx as (nd & -> & Hnd).
  apply list_elem_of_lookup in Hnd as [i Hi].
  assert (Hpair : exists k p, segment_pairs (w_nodes w) !! k = Some p
                    /\ (nd = p.1 \/ nd = p.2)).
  { destruct (w_nodes w !! S i) as [v|] eqn:Ev.
    - exists i, (nd, v). split; [by apply segment_pairs_lookup|by left].
    - apply lookup_ge_None in Ev. apply lookup_lt_Some in Hi as Hlt.
      destruct i as [|j]; [lia|].
      destruct (lookup_lt_is_Some_2 (w_nodes w) j ltac:(lia)) as [u Hu].
      exists j, (u, nd). split; [by apply segment_pairs_lookup|by right]. }
  destruct Hpair as (k & p & Hk & Hp).
  apply elem_of_end_points.
  exists (ref p.1), (ref p.2),
    (segment_edge (way_attrs normalize w) (length h) 0 k p).2.
  split; [|destruct Hp as [->| ->]; auto].
  rewrite He. apply elem_of_app. right.
  apply list_elem_of_lookup. exists k. rewrite list_lookup_imap, Hk. done.
Qed.

Lemma ways_built ways : forall st,
  tidy st.1 -> paired st ->
  let st' := fold_left (fun st w => way way_filter normalize w st) ways st in
  tidy st'.1 /\ paired st'
  /\ (forall x, x ∈ end_points st.1 -> x ∈ end_points st'.1)
  /\ forall w x, w ∈ ways -> accepts way_filter w = true ->
       (2 <= length (w_nodes w))%nat -> x ∈ map ref (w_nodes w) ->
       x ∈ end_points st'.1.
Proof.
  induction ways as [|w ways IH]; intros st Ht Hp; cbn [fold_left].
  { split; [done|]. split; [done|]. split; [done|].
    intros w x Hw. by apply elem_of_nil in Hw. }
  destruct (IH (way way_filter normalize w st) (way_tidy w st Ht)
              (way_paired w st Hp)) as (H1 & H2 & H3 & H4).
  split; [done|]. split; [done|]. split.
  - intros x Hx. by apply H3, way_end_points_mono.
  - intros w' x [->|Hw]%elem_of_cons Hacc Hlen Hx.
    + by apply H3, way_end_points.
    + by eapply H4.
Qed.

Lemma from_pbf_anchored ways : anchored (from_pbf way_filter normalize ways).
Proof.
  unfold from_pbf.
  destruct (ways_built ways (empty_graph, [])) as ((H1 & H2) & H3 & _).
  - split; apply NoDup_nil_2.
  - intros u v d Hin. by apply elem_of_nil in Hin.
  - split; [done|]. split; [done|]. intros u v d Hin.
    exists [u; v]. split; [by apply H3|]. split; [left|right; left].
Qed.

End BuiltGraph.



(** ** The sample inputs *)

(** C1 at the way [100, 101, 102, 103]: [simplify] ends without an error
    and leaves two edges, from 100 to 101 and from 100 to 102; both carry
    the chain of the whole way, and none ends at 103. *)
Theorem simplify_sample_way :
  (simplify ex_built).2 = inr tt
  /\ map (fun e : edge => (e.1, chain_of (simplify ex_built).1.2 e.2))
       (edges (simplify ex_built).1.1)
     = [((100, 101), Some [100; 101; 102; 103]);
        ((100, 102), Some [100; 101; 102; 103])].
Proof. split; vm_compute; reflexivity. Qed.


(** C4 at the sample way, built, simplified and given geometries: both
    edges get the geometry of the whole way, so the edge from 100 to 102
    ends at the coordinates of node 103, which are not those registered
    for its node [v = 102]. *)
Theorem geometry_sample_way :
  let st := (construct_geometries ex_length ex_round (simplify ex_built).1).1 in
  let whole :=
    [((-122.25)%float, 47.5%float); ((-122.375)%float, 47.625%float);
     ((-122.5)%float, 47.75%float); ((-122.625)%float, 47.875%float)] in
  map (fun e : edge => (e.1, e.2 !! "geometry")) (edges st.1)
  = [((100, 101), Some (VGeometry whole)); ((100, 102), Some (VGeometry whole))]
  /\ last whole = Some ((-122.625)%float, 47.875%float)
  /\ node_coord st.1 102 = inr ((-122.5)%float, 47.75%float)
  /\ ((-122.625)%float, 47.875%float) <> ((-122.5)%float, 47.75%float).
Proof.
  split; [vm_compute; reflexivity|]. split; [reflexivity|].
  split; [vm_compute; reflexivity|]. discriminate.
Qed.

(** The sample way is accepted, and its three segments are added to the
    empty graph. *)
Lemma way_emits_segments_witness :
  accepts None ex_way = true
  /\ edges (way None ex_normalize ex_way (empty_graph, [])).1
     ≡ₚ edges empty_graph
        ++ imap (segment_edge (way_attrs ex_normalize ex_way) 0 0)
             (segment_pairs (w_nodes ex_way)).
Proof.
  split; [reflexivity|].
  exact (proj1 (way_emits_segments None ex_normalize ex_way empty_graph []
                  eq_refl)).
Defined.

(** A way with one node reference leaves the built sample graph as it
    is. *)
Lemma way_short_is_noop_witness :
  (length (w_nodes ex_short) < 2)%nat
  /\ way None ex_normalize ex_short ex_built = ex_built.
Proof.
  split; [simpl; lia|].
  apply (way_short_is_noop None ex_normalize ex_short ex_built).
  simpl; lia.
Defined.








(** The same counting files node 2 of [ex_overlap], which has two incoming
    edges, one of each way. *)
Lemma parallel_edges_are_filed :
  exists rn, collect ex_overlap.1 (nodes ex_overlap.1) [] = inr rn
    /\ (1, 2, 3, 0) ∈ all_data rn
    /\ length (in_edges 2 ex_overlap.1) = 2%nat.
Proof.
  eexists. split; [vm_compute; reflexivity|].
  split; [left|vm_compute; reflexivity].
Qed.



(** * Further properties *)

(** ** The way counter and the progress bar *)




(** ** The node collector *)

Lemma jfield_dict_get k fields :
  jfield k fields
  = match dict_get k fields with Some j => inr j | None => inl "KeyError" end.
Proof.
  induction fields as [|[k' j] fields IH]; simpl; [done|].
  by destruct (decide (k = k')).
Qed.

Lemma tags_dict_snoc tags kv :
  tags_dict (tags ++ [kv]) = dict_set kv.1 (JStr kv.2) (tags_dict tags).
Proof. unfold tags_dict. by rewrite fold_left_app. Qed.

Lemma tags_dict_get k tags :
  dict_get k (tags_dict tags)
  = (fun kv : string * string => JStr kv.2)
      <$> last (filter (fun kv : string * string => kv.1 = k) tags).
Proof.
  induction tags as [|kv tags IH] using rev_ind; [done|].
  rewrite tags_dict_snoc, filter_app.
  destruct (decide (kv.1 = k)) as [<-|Hne].
  - rewrite dict_get_set_eq.
    rewrite (filter_cons_True _ kv []) by done.
    rewrite filter_nil. by rewrite last_snoc.
  - rewrite dict_get_set_ne by done.
    rewrite (filter_cons_False _ kv []) by done.
    rewrite filter_nil, app_nil_r. exact IH.
Qed.

Lemma WayNodes_fold node_filter ns : forall acc,
  fold_left (fun acc n => WayNodes_node node_filter n acc) ns acc
  = acc ++ map node_feature
      (filter (fun n => match node_filter with
                        | None => true
                        | Some f => f n
                        end = true) ns).
Proof.
  induction ns as [|n ns IH]; intros acc; simpl; [by rewrite app_nil_r|].
  rewrite IH. unfold WayNodes_node.
  destruct (match node_filter with None => true | Some f => f n end) eqn:E.
  - rewrite filter_cons_True by done. simpl. by rewrite <- (assoc_L (++)).
  - rewrite filter_cons_False by (by rewrite E). done.
Qed.

(** [WayNodes] collects one feature for every node that passes the
    filter, in the order of the file.  The [osm_id] of a feature is the id
    of the node whatever its tags say; under every other key it has the
    value of the last tag with that key. *)
Theorem way_nodes_features (node_filter : option (OsmNode -> bool))
    (ns : list OsmNode) :
  WayNodes node_filter ns
  = map node_feature
      (filter (fun n => match node_filter with
                        | None => true
                        | Some f => f n
                        end = true) ns)
  /\ forall n : OsmNode, exists props,
       (let? fields := as_object (node_feature n) in
        jfield "properties" fields) = inr (JObj props)
       /\ jfield "osm_id" props = inr (JInt (n_id n))
       /\ forall k, k <> "osm_id" ->
            jfield k props
            = match last (filter (fun kv : string * string => kv.1 = k)
                            (n_tags n)) with
              | Some kv => inr (JStr kv.2)
              | None => inl "KeyError"
              end.
Proof.
  split; [apply (WayNodes_fold node_filter ns [])|].
  intros n. eexists. split; [reflexivity|]. split.
  - by rewrite jfield_dict_get, dict_get_set_eq.
  - intros k Hk. rewrite jfield_dict_get, dict_get_set_ne by done.
    rewrite tags_dict_get. by destruct (last _).
Qed.

(** ** The attributes and the end points the builder gives its edges *)

Lemma way_attrs_lookup normalize w k :
  way_attrs normalize w !! k
  = match normalize (w_tags w) !! k with
    | Some x => Some x
    | None => if decide (k = "osm_id") then Some (VJson (JInt (w_id w)))
              else None
    end.
Proof.
  unfold way_attrs. rewrite lookup_union.
  destruct (normalize (w_tags w) !! k) as [x|] eqn:E.
  - by destruct (({["osm_id" := VJson (JInt (w_id w))]} : attrs) !! k).
  - destruct (decide (k = "osm_id")) as [->|Hne].
    + by rewrite lookup_singleton_eq.
    + by rewrite lookup_singleton_ne.
Qed.

(** Every edge a way adds carries: the number of its segment under
    [segment] and a new list with its two end points under [ndref],
    whatever the normalizer gave under these keys; under [osm_id] what
    the normalizer gave, and the id of the way only when the normalizer
    gave nothing; under every other key what the normalizer gave. *)
Theorem way_edge_attributes
    (way_filter : option (gmap string string -> bool))
    (normalize : gmap string string -> attrs)
    (w : Way) (G : MultiDiGraph) (h : store) :
  accepts way_filter w = true ->
  let st' := way way_filter normalize w (G, h) in
  forall u v d, (u, v, d) ∈ edges st'.1 ->
    (u, v, d) ∈ edges G
    \/ exists i : nat,
         (S i < length (w_nodes w))%nat
         /\ d !! "segment" = Some (VJson (JInt (Z.of_nat i)))
         /\ d !! "ndref" = Some (VList (length h + i)%nat)
         /\ st'.2 !! (length h + i)%nat = Some [u; v]
         /\ d !! "osm_id"
            = Some (default (VJson (JInt (w_id w)))
                      (normalize (w_tags w) !! "osm_id"))
         /\ forall k, k <> "segment" -> k <> "ndref" -> k <> "osm_id" ->
              d !! k = normalize (w_tags w) !! k.
Proof.
  intros Hacc st' u v d Hin. unfold st', way in *. rewrite Hacc in *.
  destruct (way_loop_spec (way_attrs normalize w) (w_nodes w) 0 G h)
    as [He Hh].
  rewrite He in Hin. apply elem_of_app in Hin as [Hin|Hin]; [by left|].
  right. apply list_elem_of_lookup in Hin as [i Hi].
  rewrite list_lookup_imap in Hi.
  destruct (segment_pairs (w_nodes w) !! i) as [p|] eqn:Ep; [|done].
  simpl in Hi. injection Hi as Hu Hv Hd. exists i.
  pose proof (lookup_lt_Some _ _ _ Ep) as Hlt.
  rewrite segment_pairs_length in Hlt.
  split; [lia|]. rewrite <- Hd.
  split; [by rewrite lookup_insert_ne, lookup_insert_eq|].
  split; [by rewrite lookup_insert_eq|]. split.
  { rewrite Hh, lookup_app_r by lia.
    replace (length h + i - length h)%nat with i by lia.
    rewrite list_lookup_fmap, Ep. simpl. unfold segment_chain.
    by rewrite Hu, Hv. }
  split.
  - rewrite !lookup_insert_ne by done. rewrite way_attrs_lookup.
    by destruct (normalize (w_tags w) !! "osm_id").
  - intros k H1 H2 H3. rewrite !lookup_insert_ne by done.
    rewrite way_attrs_lookup. rewrite decide_False by done.
    by destruct (normalize (w_tags w) !! k).
Qed.

(** ** The edges and the nodes of a built graph *)

Lemma imap_segment_edge_ends d2 l0 i0 ps :
  map (fun e : edge => e.1) (imap (segment_edge d2 l0 i0) ps)
  = map (fun p : NodeRef * NodeRef => (ref p.1, ref p.2)) ps.
Proof.
  apply list_eq. intros i.
  rewrite !list_lookup_fmap, list_lookup_imap.
  by destruct (ps !! i).
Qed.

Lemma way_ends way_filter normalize w st :
  map (fun e : edge => e.1) (edges (way way_filter normalize w st).1)
  ≡ₚ map (fun e : edge => e.1) (edges st.1)
     ++ (if accepts way_filter w then way_pairs w else []).
Proof.
  unfold way. destruct (accepts way_filter w); [|by rewrite app_nil_r].
  destruct st as [G h].
  destruct (way_loop_spec (way_attrs normalize w) (w_nodes w) 0 G h)
    as [He _].
  cbn [fst] in *. rewrite He, map_app. by rewrite imap_segment_edge_ends.
Qed.

Lemma way_store way_filter normalize w st :
  (way way_filter normalize w st).2
  = st.2 ++ (if accepts way_filter w
             then map (fun p : node * node => [p.1; p.2]) (way_pairs w)
             else []).
Proof.
  unfold way. destruct (accepts way_filter w); [|by rewrite app_nil_r].
  destruct st as [G h].
  destruct (way_loop_spec (way_attrs normalize w) (w_nodes w) 0 G h)
    as [_ Hh].
  cbn [snd] in *. rewrite Hh. f_equal. unfold way_pairs.
  by rewrite map_map.
Qed.

Lemma ways_ends way_filter normalize ways : forall st,
  let st' := fold_left (fun st w => way way_filter normalize w st) ways st in
  map (fun e : edge => e.1) (edges st'.1)
  ≡ₚ map (fun e : edge => e.1) (edges st.1)
     ++ flat_map way_pairs
          (filter (fun w => accepts way_filter w = true) ways)
  /\ st'.2 = st.2
       ++ map (fun p : node * node => [p.1; p.2])
            (flat_map way_pairs
               (filter (fun w => accepts way_filter w = true) ways)).
Proof.
  induction ways as [|w ways IH]; intros st; cbn [fold_left].
  { simpl. by rewrite !app_nil_r. }
  destruct (IH (way way_filter normalize w st)) as [IH1 IH2].
  cbn zeta. rewrite IH1, IH2, way_ends, way_store.
  destruct (accepts way_filter w) eqn:E.
  - rewrite filter_cons_True by done. cbn [flat_map].
    rewrite map_app, <- !(assoc_L (++)). done.
  - rewrite filter_cons_False by (by rewrite E).
    by rewrite !app_nil_r.
Qed.

(** The edges of a built graph run between the consecutive node
    references of the ways that passed the filter, one edge for each such
    pair, and the lists of node references are these pairs in the order of
    the file, one list for each edge. *)
Theorem from_pbf_edge_ends
    (way_filter : option (gmap string string -> bool))
    (normalize : gmap string string -> attrs) (ways : list Way) :
  let st := from_pbf way_filter normalize ways in
  let pairs :=
    flat_map way_pairs (filter (fun w => accepts way_filter w = true) ways) in
  map (fun e : edge => e.1) (edges st.1) ≡ₚ pairs
  /\ st.2 = map (fun p : node * node => [p.1; p.2]) pairs
  /\ length (edges st.1) = length st.2.
Proof.
  intros st pairs. unfold st, pairs, from_pbf.
  destruct (ways_ends way_filter normalize ways (empty_graph, []))
    as [H1 H2].
  simpl in H1, H2.
  split; [exact H1|]. split; [exact H2|].
  rewrite H2, length_map, <- H1. by rewrite length_map.
Qed.

(** ** The nodes of a built graph and their coordinates *)

Lemma elem_of_dict_keys_set `{EqDecision K} {V : Type} (k k' : K) (x : V) d :
  k ∈ dict_keys (dict_set k' x d) <-> k ∈ dict_keys d \/ k = k'.
Proof.
  destruct (dict_get k' d) as [y|] eqn:E.
  - rewrite (dict_keys_set_in k' x y d E). split; [by left|].
    intros [H| ->]; [done|]. apply dict_mem_true. unfold dict_mem. by rewrite E.
  - rewrite dict_keys_set_fresh by done. rewrite elem_of_app.
    by rewrite list_elem_of_singleton.
Qed.

Lemma dict_keys_set_sync `{EqDecision K} {V W : Type} (k : K) (x : V) (y : W)
    (d : list (K * V)) (d' : list (K * W)) :
  dict_keys d = dict_keys d' ->
  dict_keys (dict_set k x d) = dict_keys (dict_set k y d').
Proof.
  intros H. destruct (dict_get k d) as [z|] eqn:E.
  - destruct (dict_get k d') as [z'|] eqn:E'.
    + by rewrite (dict_keys_set_in k x z d E), (dict_keys_set_in k y z' d' E').
    + apply (dict_get_keys_eq k d d' H) in E'. congruence.
  - pose proof E as E'. apply (dict_get_keys_eq k d d' H) in E'.
    rewrite !dict_keys_set_fresh by done. by rewrite H.
Qed.

Lemma synced_touch_node n G : synced G -> synced (touch_node n G).
Proof.
  intros H. unfold touch_node. destruct (dict_mem n (_succ G)); [done|].
  unfold synced. simpl. by apply dict_keys_set_sync.
Qed.

Lemma synced_add_node n a G : synced G -> synced (add_node n a G).
Proof.
  intros H. unfold add_node, synced.
  destruct (dict_mem n (_succ G)) eqn:E; simpl.
  - unfold dict_mem in E.
    destruct (dict_get n (_succ G)) as [nb|] eqn:En; [|done].
    destruct (dict_get n (_node G)) as [old|] eqn:Eo.
    + by rewrite (dict_keys_set_in _ _ _ _ Eo).
    + apply (dict_get_keys_eq n _ _ H) in Eo. congruence.
  - by apply dict_keys_set_sync.
Qed.

Lemma synced_add_edge u v d G : synced G -> synced (add_edge u v d G).
Proof.
  intros H. unfold add_edge.
  pose proof (synced_touch_node v _ (synced_touch_node u G H)) as H1.
  set (G1 := touch_node v (touch_node u G)) in *.
  assert (Hu : dict_mem u (_succ G1) = true)
    by (apply touch_node_mem_mono, touch_node_mem).
  unfold dict_mem in Hu.
  destruct (dict_get u (_succ G1)) as [nbrs|] eqn:E; [|done].
  unfold synced. simpl. by rewrite (dict_keys_set_in _ _ _ _ E).
Qed.

Lemma nodes_touch_node_synced n m G :
  synced G -> m ∈ nodes (touch_node n G) <-> m ∈ nodes G \/ m = n.
Proof.
  intros H. unfold touch_node, nodes.
  destruct (dict_mem n (_succ G)) eqn:E; simpl.
  - split; [by left|]. intros [Hm| ->]; [done|].
    rewrite H. by apply dict_mem_true.
  - apply elem_of_dict_keys_set.
Qed.

Lemma nodes_add_node n a m G :
  synced G -> m ∈ nodes (add_node n a G) <-> m ∈ nodes G \/ m = n.
Proof.
  intros H. unfold add_node, nodes.
  destruct (dict_mem n (_succ G)) eqn:E; simpl;
    apply elem_of_dict_keys_set.
Qed.

Lemma nodes_add_edge_synced u v d m G :
  synced G -> m ∈ nodes (add_edge u v d G) <-> m ∈ nodes G \/ m = u \/ m = v.
Proof.
  intros H. unfold add_edge, nodes. cbn [_node].
  fold (nodes (touch_node v (touch_node u G))).
  rewrite nodes_touch_node_synced by (by apply synced_touch_node).
  rewrite nodes_touch_node_synced by done. tauto.
Qed.

Lemma node_coord_touch_node n r G :
  synced G -> node_coord (touch_node n G) r = node_coord G r.
Proof.
  intros H. unfold touch_node.
  destruct (dict_mem n (_succ G)) eqn:E; [done|].
  unfold dict_mem in E. destruct (dict_get n (_succ G)) eqn:En; [done|].
  apply (dict_get_keys_eq n _ _ H) in En.
  unfold node_coord. simpl. destruct (decide (r = n)) as [->|Hne].
  - by rewrite dict_get_set_eq, En.
  - by rewrite dict_get_set_ne.
Qed.

Lemma node_coord_add_edge u v d r G :
  synced G -> node_coord (add_edge u v d G) r = node_coord G r.
Proof.
  intros H. unfold add_edge.
  transitivity (node_coord (touch_node v (touch_node u G)) r); [done|].
  rewrite node_coord_touch_node by (by apply synced_touch_node).
  by apply node_coord_touch_node.
Qed.

Lemma node_coord_add_node n x y r G :
  node_coord (add_node n (lonlat x y) G) r
  = if decide (r = n) then inr (x, y) else node_coord G r.
Proof.
  unfold add_node, node_coord.
  destruct (dict_mem n (_succ G)); simpl;
    (destruct (decide (r = n)) as [->|Hne];
     [rewrite dict_get_set_eq|by rewrite dict_get_set_ne]).
  - unfold get_float, lonlat.
    rewrite (lookup_union_Some_l _ _ "lon" (VJson (JFloat x)))
      by (by rewrite lookup_insert_eq).
    rewrite (lookup_union_Some_l _ _ "lat" (VJson (JFloat y)))
      by (by rewrite lookup_insert_ne, lookup_insert_eq).
    done.
  - unfold get_float, lonlat.
    by rewrite lookup_insert_eq, lookup_insert_ne, lookup_insert_eq.
Qed.

Lemma way_segment_nodes d2 i u v st :
  synced st.1 ->
  let st' := way_segment d2 i u v st in
  synced st'.1
  /\ (forall r, r ∈ nodes st'.1 <-> r ∈ nodes st.1 \/ r = ref u \/ r = ref v)
  /\ forall r, node_coord st'.1 r
       = if decide (r = ref v) then inr (lon v, lat v)
         else if decide (r = ref u) then inr (lon u, lat u)
         else node_coord st.1 r.
Proof.
  destruct st as [G h]. intros H. unfold way_segment.
  cbn [fst snd add_edges_from fold_left].
  pose proof (synced_add_edge (ref u) (ref v)
    (<["ndref":=VList (length h)]> (<["segment":=VJson (JInt i)]> d2)) G H)
    as H1.
  set (G1 := add_edge _ _ _ G) in *.
  pose proof (synced_add_node (ref u) (lonlat (lon u) (lat u)) G1 H1) as H2.
  split; [by apply synced_add_node|]. split.
  - intros r. rewrite nodes_add_node by done.
    rewrite nodes_add_node by done. unfold G1.
    rewrite nodes_add_edge_synced by done. tauto.
  - intros r. rewrite !node_coord_add_node. unfold G1.
    by rewrite node_coord_add_edge.
Qed.

Lemma last_coord_app a b r :
  last_coord (a ++ b) r
  = match last_coord b r with Some c => Some c | None => last_coord a r end.
Proof.
  unfold last_coord. rewrite filter_app.
  destruct (filter (fun n => ref n = r) b) as [|x l] using rev_ind.
  - by rewrite app_nil_r.
  - by rewrite (assoc_L (++)), !last_snoc.
Qed.

Lemma last_coord_cons n ns r :
  last_coord (n :: ns) r
  = match last_coord ns r with
    | Some c => Some c
    | None => if decide (ref n = r) then Some (lon n, lat n) else None
    end.
Proof.
  change (n :: ns) with ([n] ++ ns). rewrite last_coord_app.
  destruct (last_coord ns r); [done|]. unfold last_coord.
  destruct (decide (ref n = r)).
  - by rewrite filter_cons_True.
  - by rewrite filter_cons_False.
Qed.

Lemma last_coord_None ns r : last_coord ns r = None <-> r ∉ map ref ns.
Proof.
  induction ns as [|n ns IH]; [split; [intros _; apply not_elem_of_nil|done]|].
  rewrite last_coord_cons. cbn [map]. rewrite not_elem_of_cons.
  destruct (last_coord ns r) as [c|].
  - split; [done|]. intros [_ H]. by apply IH in H.
  - destruct (decide (ref n = r)) as [<-|Hne].
    + split; [done|]. intros [Hc _]. by destruct Hc.
    + split; [|done]. intros _. split; [done|]. by apply IH.
Qed.

Lemma way_loop_nodes d2 rest : forall i u v st,
  synced st.1 ->
  let st' := way_loop d2 i (u :: v :: rest) st in
  synced st'.1
  /\ (forall r, r ∈ nodes st'.1
        <-> r ∈ nodes st.1 \/ r ∈ map ref (u :: v :: rest))
  /\ forall r, node_coord st'.1 r
       = match last_coord (u :: v :: rest) r with
         | Some c => inr c
         | None => node_coord st.1 r
         end.
Proof.
  induction rest as [|x rest IH]; intros i u v st H.
  - change (way_loop d2 i [u; v] st) with (way_segment d2 i u v st).
    destruct (way_segment_nodes d2 i u v st H) as (H1 & H2 & H3).
    split; [done|]. split.
    + intros r. rewrite H2. cbn [map]. rewrite !elem_of_cons.
      rewrite elem_of_nil. tauto.
    + intros r. rewrite H3, !last_coord_cons. unfold last_coord. simpl.
      repeat case_decide; congruence.
  - change (way_loop d2 i (u :: v :: x :: rest) st)
      with (way_loop d2 (i + 1) (v :: x :: rest) (way_segment d2 i u v st)).
    destruct (way_segment_nodes d2 i u v st H) as (H1 & H2 & H3).
    destruct (IH (i + 1) v x _ H1) as (I1 & I2 & I3).
    split; [done|]. split.
    + intros r. rewrite I2, H2. cbn [map]. rewrite !elem_of_cons. tauto.
    + intros r. rewrite I3, H3. rewrite (last_coord_cons u).
      destruct (last_coord (v :: x :: rest) r) as [c|] eqn:E; [done|].
      apply last_coord_None in E. cbn [map] in E.
      apply not_elem_of_cons in E as [Hv _].
      repeat case_decide; congruence.
Qed.

Lemma way_nodes way_filter normalize w st :
  synced st.1 ->
  let st' := way way_filter normalize w st in
  let ns := built_nodes way_filter [w] in
  synced st'.1
  /\ (forall r, r ∈ nodes st'.1 <-> r ∈ nodes st.1 \/ r ∈ map ref ns)
  /\ forall r, node_coord st'.1 r
       = match last_coord ns r with
         | Some c => inr c
         | None => node_coord st.1 r
         end.
Proof.
  intros H. unfold way, built_nodes. cbn [flat_map]. rewrite app_nil_r.
  destruct (accepts way_filter w); cbn [andb].
  2:{ split; [done|]. split; [|done]. intros r. rewrite elem_of_nil. tauto. }
  destruct (w_nodes w) as [|u [|v rest]] eqn:E.
  - split; [done|]. split; [|done]. intros r. simpl. rewrite elem_of_nil. tauto.
  - split; [done|]. split; [|done]. intros r. simpl. rewrite elem_of_nil. tauto.
  - change ((2 <=? length (u :: v :: rest))%nat) with true. cbv iota.
    by apply way_loop_nodes.
Qed.

Lemma ways_nodes way_filter normalize ways : forall st,
  synced st.1 ->
  let st' := fold_left (fun st w => way way_filter normalize w st) ways st in
  let ns := built_nodes way_filter ways in
  synced st'.1
  /\ (forall r, r ∈ nodes st'.1 <-> r ∈ nodes st.1 \/ r ∈ map ref ns)
  /\ forall r, node_coord st'.1 r
       = match last_coord ns r with
         | Some c => inr c
         | None => node_coord st.1 r
         end.
Proof.
  induction ways as [|w ways IH]; intros st H; cbn [fold_left].
  { split; [done|]. split; [|done]. intros r. simpl.
    rewrite elem_of_nil. tauto. }
  destruct (way_nodes way_filter normalize w st H) as (H1 & H2 & H3).
  destruct (IH _ H1) as (I1 & I2 & I3).
  assert (Happ : built_nodes way_filter (w :: ways)
                 = built_nodes way_filter [w] ++ built_nodes way_filter ways).
  { unfold built_nodes. cbn [flat_map]. by rewrite app_nil_r. }
  cbn zeta. rewrite Happ. split; [done|]. split.
  - intros r. rewrite I2, H2, map_app, elem_of_app. tauto.
  - intros r. rewrite I3, H3, last_coord_app.
    by destruct (last_coord (built_nodes way_filter ways) r).
Qed.

Lemma way_pairs_built way_filter w u v :
  accepts way_filter w = true -> (u, v) ∈ way_pairs w ->
  u ∈ map ref (built_nodes way_filter [w])
  /\ v ∈ map ref (built_nodes way_filter [w]).
Proof.
  intros Hacc Hin. unfold way_pairs in Hin.
  apply list_elem_of_fmap in Hin as ([p q] & [= -> ->] & Hp).
  assert (Hlen : (2 <= length (w_nodes w))%nat).
  { apply list_elem_of_lookup in Hp as [i Hi].
    apply lookup_lt_Some in Hi. rewrite segment_pairs_length in Hi. lia. }
  unfold built_nodes. cbn [flat_map]. rewrite app_nil_r, Hacc.
  apply Nat.leb_le in Hlen. rewrite Hlen. cbn [andb fst snd].
  unfold segment_pairs in Hp. split.
  - apply list_elem_of_fmap. exists p. split; [done|].
    by apply elem_of_zip_l in Hp.
  - apply list_elem_of_fmap. exists q. split; [done|].
    apply elem_of_zip_r in Hp.
    destruct (w_nodes w) as [|x l]; [done|]. by right.
Qed.

Lemma built_nodes_elem way_filter ways w r :
  w ∈ ways -> r ∈ map ref (built_nodes way_filter [w]) ->
  r ∈ map ref (built_nodes way_filter ways).
Proof.
  intros Hw Hr. unfold built_nodes in *. cbn [flat_map] in Hr.
  rewrite app_nil_r in Hr.
  apply list_elem_of_fmap in Hr as (n & -> & Hn).
  apply list_elem_of_fmap. exists n. split; [done|].
  apply list_elem_of_In, in_flat_map. exists w.
  split; by apply list_elem_of_In.
Qed.

Lemma from_pbf_ends_built way_filter normalize ways u v d :
  (u, v, d) ∈ edges (from_pbf way_filter normalize ways).1 ->
  u ∈ map ref (built_nodes way_filter ways)
  /\ v ∈ map ref (built_nodes way_filter ways).
Proof.
  intros Hin.
  destruct (ways_ends way_filter normalize ways (empty_graph, []))
    as [H1 _].
  assert (Huv : (u, v) ∈ map (fun e : edge => e.1)
                  (edges (from_pbf way_filter normalize ways).1)).
  { apply list_elem_of_fmap. by exists (u, v, d). }
  unfold from_pbf in Huv. rewrite H1 in Huv. simpl in Huv.
  apply list_elem_of_In, in_flat_map in Huv as (w & Hw & Hp).
  apply list_elem_of_In, list_elem_of_filter in Hw as [Hacc Hw].
  apply list_elem_of_In in Hp.
  destruct (way_pairs_built way_filter w u v Hacc Hp) as [Hu Hv].
  split; by eapply built_nodes_elem.
Qed.

(** The nodes of a built graph are the node references of the accepted
    ways with two or more nodes, each filed once.  A node has the
    coordinates of the last record of the file with its reference, so
    every node has coordinates; and the end points of every edge are
    nodes. *)
Theorem from_pbf_nodes
    (way_filter : option (gmap string string -> bool))
    (normalize : gmap string string -> attrs) (ways : list Way) :
  let G := (from_pbf way_filter normalize ways).1 in
  let ns := built_nodes way_filter ways in
  (forall r, r ∈ nodes G <-> r ∈ map ref ns)
  /\ (forall r, node_coord G r
        = match last_coord ns r with
          | Some c => inr c
          | None => inl "KeyError"
          end)
  /\ NoDup (nodes G)
  /\ wf_graph G = true.
Proof.
  intros G ns.
  destruct (ways_nodes way_filter normalize ways (empty_graph, []))
    as (H1 & H2 & H3); [done|].
  fold (from_pbf way_filter normalize ways) in H1, H2, H3.
  cbn zeta in H2, H3. fold G ns in H2, H3.
  assert (Hn : forall r, r ∈ nodes G <-> r ∈ map ref ns).
  { intros r. rewrite H2. simpl. rewrite elem_of_nil. tauto. }
  split; [exact Hn|]. split; [exact H3|]. split.
  { apply (from_pbf_anchored way_filter normalize ways). }
  unfold wf_graph. apply forallb_forall. intros [[u v] d] Hin.
  apply list_elem_of_In in Hin.
  destruct (from_pbf_ends_built _ _ _ _ _ _ Hin) as [Hu Hv].
  cbn [fst snd]. apply andb_true_intro.
  split; apply dict_mem_true; by apply Hn.
Qed.

(** ** Geometries for a built graph *)

Lemma from_pbf_paired way_filter normalize ways :
  paired (from_pbf way_filter normalize ways).
Proof.
  unfold from_pbf.
  destruct (ways_built way_filter normalize ways (empty_graph, []))
    as (_ & H & _); [split; apply NoDup_nil_2| |done].
  intros u v d Hin. by apply elem_of_nil in Hin.
Qed.

Lemma from_pbf_coords way_filter normalize ways r :
  r ∈ nodes (from_pbf way_filter normalize ways).1 ->
  exists c, node_coord (from_pbf way_filter normalize ways).1 r = inr c.
Proof.
  destruct (ways_nodes way_filter normalize ways (empty_graph, []))
    as (_ & H2 & H3); [done|].
  fold (from_pbf way_filter normalize ways) in H2, H3. cbn zeta in H2, H3.
  intros Hr. apply H2 in Hr as [Hr|Hr]; [by apply elem_of_nil in Hr|].
  rewrite H3.
  destruct (last_coord (built_nodes way_filter ways) r) as [c|] eqn:E;
    [by exists c|].
  by apply last_coord_None in E.
Qed.

(** When the body of the loop succeeds on every edge, the loop ends
    without an error and has rewritten every edge dictionary. *)
Lemma construct_geometries_ok gl r1 st :
  (forall u v d, (u, v, d) ∈ edges st.1 ->
     exists d', construct_geometry gl r1 st.1 st.2 d = inr d') ->
  (construct_geometries gl r1 st).2 = inr tt
  /\ Forall2
       (fun e e' : edge =>
          e'.1 = e.1 /\ construct_geometry gl r1 st.1 st.2 e.2 = inr e'.2)
       (edges st.1) (edges (construct_geometries gl r1 st).1.1).
Proof.
  destruct st as [G h]. cbn [fst snd]. intros Hall.
  unfold construct_geometries.
  pose proof (update_edges_spec (construct_geometry gl r1 G h) (_succ G))
    as Hspec.
  destruct (update_edges _ (_succ G)) as [adj r]. cbn [fst snd] in *.
  destruct r as [e|].
  - exfalso. destruct Hspec as (u & v & d & Hin & Hfail).
    destruct (Hall u v d Hin) as [d' Hd']. congruence.
  - split; [done|]. exact Hspec.
Qed.

(** On a built graph [construct_geometries] ends without an error, and
    every edge gets the two-point line between the coordinates of its end
    points, the rounded length of that line, and loses [ndref]; its other
    attributes and its end points stay. *)
Theorem built_geometries
    (geometry_length : list coord -> Float) (round1 : Float -> Float)
    (way_filter : option (gmap string string -> bool))
    (normalize : gmap string string -> attrs) (ways : list Way) :
  let st := from_pbf way_filter normalize ways in
  let r := construct_geometries geometry_length round1 st in
  r.2 = inr tt
  /\ Forall2
       (fun e e' : edge =>
          e'.1 = e.1
          /\ exists cu cv,
               node_coord st.1 e.1.1 = inr cu
               /\ node_coord st.1 e.1.2 = inr cv
               /\ e'.2 = delete "ndref"
                    (<["length" :=
                         VJson (JFloat (round1 (geometry_length [cu; cv])))]>
                       (<["geometry" := VGeometry [cu; cv]]> e.2)))
       (edges st.1) (edges r.1.1).
Proof.
  intros st r. subst r. unfold st. clear st.
  set (st := from_pbf way_filter normalize ways).
  assert (Hbody : forall u v d, (u, v, d) ∈ edges st.1 ->
    exists cu cv, node_coord st.1 u = inr cu /\ node_coord st.1 v = inr cv
      /\ construct_geometry geometry_length round1 st.1 st.2 d
         = inr (delete "ndref"
             (<["length" :=
                  VJson (JFloat (round1 (geometry_length [cu; cv])))]>
                (<["geometry" := VGeometry [cu; cv]]> d)))).
  { intros u v d Hin.
    pose proof (from_pbf_paired way_filter normalize ways u v d Hin) as Hc.
    destruct (from_pbf_ends_built _ _ _ _ _ _ Hin) as [Hu Hv].
    destruct (ways_nodes way_filter normalize ways (empty_graph, []))
      as (_ & H2 & _); [done|].
    fold (from_pbf way_filter normalize ways) in H2. cbn zeta in H2.
    destruct (from_pbf_coords way_filter normalize ways u) as [cu Hcu];
      [apply H2; by right|].
    destruct (from_pbf_coords way_filter normalize ways v) as [cv Hcv];
      [apply H2; by right|].
    exists cu, cv. fold st in Hc, Hcu, Hcv.
    split; [done|]. split; [done|].
    apply chain_of_get_list in Hc as (l & Hl & Hh).
    unfold construct_geometry. rewrite Hl. cbn [ebind].
    rewrite Hh. cbn [resolve]. rewrite Hcu, Hcv. done. }
  destruct (construct_geometries_ok geometry_length round1 st) as [Hok Hall].
  { intros u v d Hin. destruct (Hbody u v d Hin) as (cu & cv & _ & _ & H).
    by eexists. }
  split; [exact Hok|].
  apply Forall2_same_length_lookup.
  split; [by eapply Forall2_length|].
  intros i [[u v] d] e' Hi Hi'.
  destruct (Forall2_lookup_lr _ _ _ i _ _ Hall Hi Hi') as [He Hd].
  split; [done|]. cbn [fst snd] in *.
  destruct (Hbody u v d) as (cu & cv & Hcu & Hcv & Hcg).
  { apply list_elem_of_lookup. by exists i. }
  exists cu, cv. split; [done|]. split; [done|]. congruence.
Qed.

(** ** Geometries after [simplify] *)

Lemma dict_keys_del_sub `{EqDecision K} {V : Type} (k k' : K)
    (d : list (K * V)) :
  k ∈ dict_keys (dict_del k' d) -> k ∈ dict_keys d.
Proof.
  induction d as [|[k0 z] d IH]; simpl; [done|].
  destruct (decide (k' = k0)) as [->|Hne]; simpl.
  - intros H. by right.
  - intros [->|H]%elem_of_cons; [left|right; by apply IH].
Qed.

Lemma keys_touch_node n k G :
  k ∈ dict_keys (_succ G) -> k ∈ dict_keys (_succ (touch_node n G)).
Proof.
  intros H. unfold touch_node. destruct (dict_mem n (_succ G)); [done|].
  simpl. apply elem_of_dict_keys_set. by left.
Qed.

Lemma keys_add_edge u v d k G :
  k ∈ dict_keys (_succ G) -> k ∈ dict_keys (_succ (add_edge u v d G)).
Proof.
  intros H. unfold add_edge. simpl. apply elem_of_dict_keys_set. left.
  by apply keys_touch_node, keys_touch_node.
Qed.

Lemma keys_add_node n a k G :
  k ∈ dict_keys (_succ G) -> k ∈ dict_keys (_succ (add_node n a G)).
Proof.
  intros H. unfold add_node. destruct (dict_mem n (_succ G)); [done|].
  simpl. apply elem_of_dict_keys_set. by left.
Qed.

Lemma closed_touch_node n G : closed G -> closed (touch_node n G).
Proof.
  intros HG u nbrs v Hin Hv. apply keys_touch_node.
  unfold touch_node in Hin. destruct (dict_mem n (_succ G)).
  - by eapply HG.
  - simpl in Hin. apply elem_of_dict_set in Hin as [[= -> ->]|Hin].
    + by apply elem_of_nil in Hv.
    + by eapply HG.
Qed.

Lemma closed_add_node n a G : closed G -> closed (add_node n a G).
Proof.
  intros HG u nbrs v Hin Hv. apply keys_add_node.
  unfold add_node in Hin. destruct (dict_mem n (_succ G)).
  - by eapply HG.
  - simpl in Hin. apply elem_of_dict_set in Hin as [[= -> ->]|Hin].
    + by apply elem_of_nil in Hv.
    + by eapply HG.
Qed.

Lemma add_edge_ends u v d G :
  u ∈ dict_keys (_succ (add_edge u v d G))
  /\ v ∈ dict_keys (_succ (add_edge u v d G)).
Proof.
  unfold add_edge. simpl. split; apply elem_of_dict_keys_set.
  - by right.
  - left. apply dict_mem_true, touch_node_mem.
Qed.

Lemma closed_add_edge u v d G : closed G -> closed (add_edge u v d G).
Proof.
  intros HG a nb k Hin Hk.
  pose proof (closed_touch_node v _ (closed_touch_node u G HG)) as H1.
  unfold add_edge in *. set (G1 := touch_node v (touch_node u G)) in *.
  simpl in *. apply elem_of_dict_set in Hin as [[= -> ->]|Hin].
  - apply elem_of_dict_keys_set in Hk as [Hk| ->].
    + apply elem_of_dict_keys_set. left.
      destruct (dict_get u (_succ G1)) as [nbrs|] eqn:E;
        [|by apply elem_of_nil in Hk].
      apply dict_get_Some_in in E. by eapply H1.
    + apply elem_of_dict_keys_set. left.
      apply dict_mem_true, touch_node_mem.
  - apply elem_of_dict_keys_set. left. by eapply H1.
Qed.

Lemma sealed_add_edge u v d G h :
  sealed (G, h) -> sealed (add_edge u v d G, h).
Proof.
  intros [H1 H2]. split; [by apply closed_add_edge|].
  intros l c x Hl Hx. apply keys_add_edge. by eapply H2.
Qed.

Lemma sealed_remove_edge n f G G' h :
  remove_edge n f G = inr G' -> sealed (G, h) -> sealed (G', h).
Proof.
  unfold remove_edge.
  destruct (dict_get n (_succ G)) as [nbrs|] eqn:En; [|done].
  destruct (dict_get f nbrs) as [kd|] eqn:Ef; [|done].
  intros [= <-] [H1 H2].
  assert (Hk : forall k, k ∈ dict_keys (_succ G) ->
            k ∈ dict_keys (dict_set n
              match removelast kd with
              | [] => dict_del f nbrs
              | _ :: _ => dict_set f (removelast kd) nbrs
              end (_succ G))).
  { intros k Hk. apply elem_of_dict_keys_set. by left. }
  split; cbn [fst snd _succ] in *.
  - intros a nb k Hin Hk'. apply Hk.
    apply elem_of_dict_set in Hin as [[= -> ->]|Hin]; [|by eapply H1].
    apply dict_get_Some_in in En. apply (H1 n nbrs k En).
    destruct (removelast kd).
    + by eapply dict_keys_del_sub.
    + by rewrite (dict_keys_set_in _ _ _ _ Ef) in Hk'.
  - intros l c x Hl Hx. apply Hk. by eapply H2.
Qed.

Lemma sealed_append n x l G (h : store) :
  sealed (G, h) -> first_successor n G = inr x ->
  sealed (G, alter (fun c => c ++ [x]) l h).
Proof.
  intros [H1 H2] Hf. split; [done|]. cbn [fst snd] in *.
  assert (Hx : x ∈ dict_keys (_succ G)).
  { unfold first_successor, successors in Hf.
    destruct (dict_get n (_succ G)) as [nbrs|] eqn:En; [|done].
    apply dict_get_Some_in in En. apply (H1 n nbrs x En).
    simpl in Hf. destruct (dict_keys nbrs) as [|y ks]; [done|].
    injection Hf as ->. left. }
  intros l' c y Hl Hy. destruct (decide (l' = l)) as [->|Hne].
  - rewrite list_lookup_alter_eq in Hl.
    destruct (h !! l) as [c0|] eqn:E; [|done]. injection Hl as <-.
    apply elem_of_app in Hy as [Hy|Hy]; [by eapply H2|].
    by apply list_elem_of_singleton in Hy as ->.
  - rewrite list_lookup_alter_ne in Hl by done. by eapply H2.
Qed.

Lemma sealed_merge_run l ns : forall st,
  sealed st -> sealed (merge_run l ns st).1.
Proof.
  induction ns as [|n ns IH]; intros [G h] Hs; [done|].
  rewrite merge_run_cons. cbn [fst snd].
  destruct (first_successor n G) as [e|x] eqn:Ef; [done|]. cbn zeta.
  pose proof (sealed_append n x l G h Hs Ef) as Hs1.
  destruct (remove_edge n x G) as [e|G'] eqn:Er; [done|].
  apply IH. by eapply sealed_remove_edge.
Qed.

Lemma sealed_merge_group g st : sealed st -> sealed (merge_group g st).1.
Proof.
  destruct g as [[a b] ns]. intros Hs. rewrite merge_group_eq.
  destruct (edge0 a b st.1) as [e|d]; [done|].
  destruct (get_list "ndref" d) as [e|l]; [done|].
  pose proof (sealed_merge_run l ns st Hs) as H1.
  destruct (merge_run l ns st) as [[G1 h1] [e|[]]]; [done|].
  destruct (last ns) as [n|]; [|done].
  by apply sealed_add_edge.
Qed.

Lemma sealed_merge_groups gs : forall st,
  sealed st -> sealed (merge_groups gs st).1.
Proof.
  induction gs as [|g gs IH]; intros st Hs; [done|].
  cbn [merge_groups]. unfold bind.
  pose proof (sealed_merge_group g st Hs) as H1.
  destruct (merge_group g st) as [st1 [e|[]]]; [done|]. by apply IH.
Qed.

Lemma sealed_simplify_ways rn : forall recv st,
  sealed st -> sealed (simplify_ways recv rn st).1.
Proof.
  induction rn as [|[id data] rn IH]; intros recv st Hs; [done|].
  rewrite simplify_ways_cons.
  destruct (group_loop _ (sorted data)) as [e|g]; [done|].
  pose proof (sealed_merge_groups (groups g) st Hs) as H1.
  destruct (merge_groups (groups g) st) as [st1 [e|[]]]; [done|].
  by apply IH.
Qed.

Lemma sealed_simplify st : sealed st -> sealed (simplify st).1.
Proof.
  intros Hs. rewrite simplify_eq.
  destruct (collect st.1 (nodes st.1) []) as [e|rn]; [done|].
  by apply sealed_simplify_ways.
Qed.

Lemma sealed_way_segment d2 i u v st :
  sealed st -> sealed (way_segment d2 i u v st).
Proof.
  destruct st as [G h]. intros Hs. unfold way_segment.
  cbn [add_edges_from fold_left].
  set (d3 := <["ndref":=VList (length h)]> _).
  destruct (sealed_add_edge (ref u) (ref v) d3 G h Hs) as [H1 H2].
  destruct (add_edge_ends (ref u) (ref v) d3 G) as [Hu Hv].
  set (G1 := add_edge _ _ d3 G) in *. cbn [fst snd] in *.
  split; cbn [fst snd].
  - by apply closed_add_node, closed_add_node.
  - intros l c x Hl Hx. apply keys_add_node, keys_add_node.
    apply lookup_app_Some in Hl as [Hl|[_ Hl]]; [by eapply H2|].
    destruct (l - length h)%nat as [|k]; [|done].
    injection Hl as <-.
    apply elem_of_cons in Hx as [->|Hx]; [done|].
    by apply list_elem_of_singleton in Hx as ->.
Qed.

Lemma sealed_way_loop d2 ns : forall i st,
  sealed st -> sealed (way_loop d2 i ns st).
Proof.
  induction ns as [|u ns IH]; intros i st Hs; [done|].
  destruct ns as [|v rest]; [done|].
  change (way_loop d2 i (u :: v :: rest) st)
    with (way_loop d2 (i + 1) (v :: rest) (way_segment d2 i u v st)).
  by apply IH, sealed_way_segment.
Qed.

Lemma sealed_from_pbf way_filter normalize ways :
  sealed (from_pbf way_filter normalize ways).
Proof.
  unfold from_pbf.
  assert (H : forall st, sealed st ->
    sealed (fold_left (fun st w => way way_filter normalize w st) ways st)).
  { induction ways as [|w ways IH]; intros st Hs; [done|].
    cbn [fold_left]. apply IH. unfold way.
    destruct (accepts way_filter w); [|done]. by apply sealed_way_loop. }
  apply H. split.
  - intros u nbrs v Hin. by apply elem_of_nil in Hin.
  - intros l c x Hl. done.
Qed.

(** The body of [construct_geometries] on an edge of a built graph
    that [simplify] has worked on. *)
Lemma simplified_body gl r1 way_filter normalize ways u v d :
  let st0 := from_pbf way_filter normalize ways in
  let st := (simplify st0).1 in
  (u, v, d) ∈ edges st.1 ->
  exists u' v' coords,
    (u', v', d) ∈ edges st0.1 /\ (2 <= length coords)%nat
    /\ construct_geometry gl r1 st.1 st.2 d
       = inr (delete "ndref"
           (<["length" := VJson (JFloat (r1 (gl coords)))]>
              (<["geometry" := VGeometry coords]> d))).
Proof.
  intros st0 st Hin.
  destruct (simplify_frame st0) as [Hnode Hkeys]. fold st in Hnode, Hkeys.
  destruct (simplify_extends st0) as [Hgrow Hdict]. fold st in Hgrow, Hdict.
  destruct (sealed_simplify st0 (sealed_from_pbf _ _ _)) as [_ Hrefs].
  fold st in Hrefs.
  destruct (ways_nodes way_filter normalize ways (empty_graph, []))
    as (Hsync & _ & _); [done|].
  fold (from_pbf way_filter normalize ways) in Hsync. fold st0 in Hsync.
  assert (Hres : forall l c, st.2 !! l = Some c ->
            forallb (resolved st.1) c = true).
  { intros l c Hl. apply forallb_forall. intros x Hx.
    apply list_elem_of_In in Hx.
    pose proof (Hrefs l c x Hl Hx) as Hk.
    rewrite Hkeys, <- Hsync in Hk.
    destruct (from_pbf_coords way_filter normalize ways x Hk) as [cx Hcx].
    unfold resolved, node_coord. rewrite Hnode.
    unfold node_coord in Hcx. fold st0 in Hcx. by rewrite Hcx. }
  destruct (Hdict u v d Hin) as (u' & v' & Hin').
  pose proof (from_pbf_paired way_filter normalize ways u' v' d Hin') as Hc.
  fold st0 in Hc. apply chain_of_get_list in Hc as (l & Hl & Hh).
  destruct (Hgrow l _ Hh) as [c' Hh'].
  destruct (resolve_all st.1 _ (Hres l _ Hh')) as [coords Hcoords].
  pose proof (Forall2_length _ _ _ (resolve_spec _ _ _ Hcoords)) as Hlen.
  rewrite length_app in Hlen. simpl in Hlen.
  exists u', v', coords. split; [done|]. split; [lia|].
  unfold construct_geometry. rewrite Hl. cbn [ebind]. rewrite Hh'.
  rewrite Hcoords. cbn [ebind]. rewrite LineString_ok by lia. done.
Qed.

(** On a built graph that [simplify] has worked on, whether [simplify]
    returned or raised, [construct_geometries] ends without an error:
    every node reference of every list resolves to coordinates.  Every
    edge then has a line of two or more points, and no [ndref]. *)
Theorem simplified_geometries
    (geometry_length : list coord -> Float) (round1 : Float -> Float)
    (way_filter : option (gmap string string -> bool))
    (normalize : gmap string string -> attrs) (ways : list Way) :
  let st := (simplify (from_pbf way_filter normalize ways)).1 in
  let r := construct_geometries geometry_length round1 st in
  r.2 = inr tt
  /\ forall u v d', (u, v, d') ∈ edges r.1.1 ->
       d' !! "ndref" = None
       /\ exists g, d' !! "geometry" = Some (VGeometry g)
            /\ (2 <= length g)%nat.
Proof.
  intros st r. subst r. unfold st. clear st.
  set (st := (simplify (from_pbf way_filter normalize ways)).1).
  pose proof (simplified_body geometry_length round1 way_filter normalize
                ways) as Hbody.
  cbn zeta in Hbody. fold st in Hbody.
  destruct (construct_geometries_ok geometry_length round1 st) as [Hok Hall].
  { intros u v d Hin.
    destruct (Hbody u v d Hin) as (u' & v' & coords & _ & _ & H). by eexists. }
  split; [exact Hok|].
  intros u v d' Hin. apply list_elem_of_lookup in Hin as [i Hi].
  destruct (Forall2_lookup_r _ _ _ i _ Hall Hi) as ([[u0 v0] d] & Hi0 & _ & Hd).
  cbn [fst snd] in Hd.
  destruct (Hbody u0 v0 d) as (u' & v' & coords & _ & Hlen & Hcg).
  { apply list_elem_of_lookup. by exists i. }
  rewrite Hcg in Hd. injection Hd as <-.
  split; [by rewrite lookup_delete_eq|].
  exists coords. split; [|done].
  by rewrite lookup_delete_ne, lookup_insert_ne, lookup_insert_eq.
Qed.

(** ** What a pass of [construct_geometries] leaves behind *)

Section Converted.
Context {B : Type} (R : B -> B -> Prop) (bad : B -> exn -> Prop).

Lemma converted_nil : converted R bad [] [] None.
Proof. exists [], [], []. by repeat split. Qed.

Lemma converted_stop xs ys e (zs : list B) :
  converted R bad xs ys (Some e) ->
  converted R bad (xs ++ zs) (ys ++ zs) (Some e).
Proof.
  intros (xs1 & xs2 & ys1 & -> & -> & HR & x0 & rest & -> & Hbad).
  exists xs1, ((x0 :: rest) ++ zs), ys1.
  rewrite <- !(assoc_L (++)). repeat split; [done|]. by exists x0, (rest ++ zs).
Qed.

Lemma converted_app xs ys xs' ys' r :
  converted R bad xs ys None -> converted R bad xs' ys' r ->
  converted R bad (xs ++ xs') (ys ++ ys') r.
Proof.
  intros (xs1 & xs2 & ys1 & -> & -> & HR & ->).
  intros (xs1' & xs2' & ys1' & -> & -> & HR' & Hr).
  rewrite !app_nil_r.
  exists (xs1 ++ xs1'), xs2', (ys1 ++ ys1').
  rewrite <- !(assoc_L (++)). repeat split; [by apply Forall2_app|done].
Qed.

Lemma update_all_converted {A : Type} (f : A -> A * option exn)
    (F : A -> list B) :
  (forall x, converted R bad (F x) (F (f x).1) (f x).2) ->
  forall l, converted R bad (flat_map F l)
              (flat_map F (update_all f l).1) (update_all f l).2.
Proof.
  intros Hf. induction l as [|x l IH]; simpl; [apply converted_nil|].
  specialize (Hf x). destruct (f x) as [y [e|]]; simpl in *.
  - by apply converted_stop.
  - destruct (update_all f l) as [l' r]. simpl in *.
    by apply converted_app.
Qed.

End Converted.

Lemma update_edges_converted (f : attrs -> exn + attrs) (adj : adjacency) :
  converted (fun e e' : edge => e'.1 = e.1 /\ f e.2 = inr e'.2)
    (fun (e : edge) err => f e.2 = inl err)
    (edges (mkGraph [] adj)) (edges (mkGraph [] (update_edges f adj).1))
    (update_edges f adj).2.
Proof.
  set (R := fun e e' : edge => e'.1 = e.1 /\ f e.2 = inr e'.2).
  set (bad := fun (e : edge) err => f e.2 = inl err).
  assert (Hk : forall (u v : node) (kd : keydict),
    converted R bad (map (fun d => (u, v, d)) kd)
      (map (fun d => (u, v, d)) (update_all (in_place f) kd).1)
      (update_all (in_place f) kd).2).
  { intros u v kd.
    assert (Hflat : forall l : keydict,
      map (fun d => (u, v, d)) l = flat_map (fun d => [(u, v, d)]) l).
    { induction l as [|d l IH]; simpl; [done|]. by rewrite IH. }
    rewrite !Hflat. apply update_all_converted.
    intros d. unfold in_place. destruct (f d) as [e|d'] eqn:E; simpl.
    - exists [], [(u, v, d)], []. repeat split; [constructor|].
      by exists (u, v, d), [].
    - exists [(u, v, d)], [], [(u, v, d')].
      repeat split. by repeat constructor. }
  set (fn := fun '(v, kd) =>
    let '(kd', r) := update_all (in_place f) kd in
    ((v, kd') : node * keydict, r)).
  assert (Hn : forall (u : node) (nbrs : list (node * keydict)),
    converted R bad (edges_from u nbrs)
      (edges_from u (update_all fn nbrs).1) (update_all fn nbrs).2).
  { intros u nbrs. unfold edges_from. apply update_all_converted.
    intros [v kd]. specialize (Hk u v kd). unfold fn.
    by destruct (update_all (in_place f) kd) as [kd' r]. }
  unfold update_edges, edges. cbn [_succ]. fold fn.
  apply (update_all_converted R bad _ (fun '(u, nbrs) => edges_from u nbrs)).
  intros [u nbrs]. specialize (Hn u nbrs).
  by destruct (update_all fn nbrs) as [nbrs' r].
Qed.

(** [construct_geometries] never touches the nodes or the lists of node
    references.  It goes through the edges in the order of [G.edges]:
    the edges before the first one on which the body raises are
    converted, that edge and the ones after it are as they were, and the
    error is the one of that edge; without such an edge all are
    converted and the call returns. *)
Theorem construct_geometries_pass
    (geometry_length : list coord -> Float) (round1 : Float -> Float)
    (st : state) :
  let r := construct_geometries geometry_length round1 st in
  let body := construct_geometry geometry_length round1 st.1 st.2 in
  _node r.1.1 = _node st.1
  /\ r.1.2 = st.2
  /\ exists done rest done',
       edges st.1 = done ++ rest
       /\ edges r.1.1 = done' ++ rest
       /\ Forall2 (fun e e' : edge => e'.1 = e.1 /\ body e.2 = inr e'.2)
            done done'
       /\ match r.2 with
          | inr _ => rest = []
          | inl err => exists e rest', rest = e :: rest' /\ body e.2 = inl err
          end.
Proof.
  destruct st as [G h]. cbn zeta. unfold construct_geometries.
  cbn [fst snd].
  pose proof (update_edges_converted
    (construct_geometry geometry_length round1 G h) (_succ G)) as Hc.
  destruct (update_edges _ (_succ G)) as [adj r]. cbn [fst snd] in *.
  split; [done|]. split; [done|].
  destruct Hc as (xs1 & xs2 & ys1 & H1 & H2 & H3 & H4).
  exists xs1, xs2, ys1. split; [exact H1|]. split; [exact H2|].
  split; [exact H3|]. by destruct r.
Qed.

Lemma update_all_id {A : Type} (f : A -> A * option exn) (l : list A) :
  (forall x, x ∈ l -> (f x).1 = x) -> (update_all f l).1 = l.
Proof.
  induction l as [|x l IH]; intros H; simpl; [done|].
  pose proof (H x ltac:(left)) as Hx.
  destruct (f x) as [y [e|]]; simpl in *; [by rewrite Hx|].
  destruct (update_all f l) as [l' r]. simpl in *. rewrite Hx. f_equal.
  apply IH. intros z Hz. apply H. by right.
Qed.

Lemma update_edges_id (f : attrs -> exn + attrs) (adj : adjacency) :
  (forall u v d, (u, v, d) ∈ edges (mkGraph [] adj) -> exists e, f d = inl e) ->
  (update_edges f adj).1 = adj.
Proof.
  intros H. unfold update_edges. apply update_all_id.
  intros [u nbrs] Hu.
  assert (Hn : (update_all
    (fun '(v, kd) =>
       let '(kd', r) := update_all (in_place f) kd in
       ((v, kd') : node * keydict, r)) nbrs).1 = nbrs).
  { apply update_all_id. intros [v kd] Hv.
    assert (Hk : (update_all (in_place f) kd).1 = kd).
    { apply update_all_id. intros d Hd.
      destruct (H u v d) as [e He].
      - apply elem_of_edges. by exists nbrs, kd.
      - unfold in_place. by rewrite He. }
    destruct (update_all (in_place f) kd) as [kd' r]. simpl in *.
    by rewrite Hk. }
  destruct (update_all _ nbrs) as [nbrs' r]. simpl in *. by rewrite Hn.
Qed.

Lemma construct_geometry_drops gl r1 G h d d' :
  construct_geometry gl r1 G h d = inr d' -> d' !! "ndref" = None.
Proof.
  unfold construct_geometry.
  destruct (get_list "ndref" d) as [e|l]; [done|]. cbn [ebind].
  destruct (h !! l) as [refs|]; [|done].
  destruct (resolve G refs) as [e|coords]; [done|]. cbn [ebind].
  destruct (LineString coords) as [e|g]; [done|]. cbn [ebind].
  intros [= <-]. by rewrite lookup_delete_eq.
Qed.

Lemma construct_geometry_no_list gl r1 G h d :
  d !! "ndref" = None -> construct_geometry gl r1 G h d = inl "KeyError".
Proof. intros H. unfold construct_geometry, get_list. by rewrite H. Qed.

(** [construct_geometries] does not run twice: after a pass that returned
    on a graph with an edge, another pass raises [KeyError], for [ndref]
    is gone, and leaves the graph as it is. *)
Theorem construct_geometries_twice
    (geometry_length : list coord -> Float) (round1 : Float -> Float)
    (st : state) :
  (construct_geometries geometry_length round1 st).2 = inr tt ->
  edges st.1 <> [] ->
  let st1 := (construct_geometries geometry_length round1 st).1 in
  construct_geometries geometry_length round1 st1 = (st1, inl "KeyError").
Proof.
  destruct st as [G h]. unfold construct_geometries at 1 2. cbn [fst snd].
  pose proof (update_edges_converted
    (construct_geometry geometry_length round1 G h) (_succ G)) as Hc.
  destruct (update_edges _ (_succ G)) as [adj r]. cbn [fst snd] in *.
  intros Hok Hne. destruct r as [e|]; [done|].
  destruct Hc as (xs1 & xs2 & ys1 & H1 & H2 & H3 & ->).
  rewrite app_nil_r in H1, H2.
  change (edges (mkGraph [] (_succ G))) with (edges G) in H1. subst xs1.
  cbn zeta. set (G1 := mkGraph (_node G) adj).
  assert (Hgone : forall u v d', (u, v, d') ∈ edges (mkGraph [] adj) ->
            construct_geometry geometry_length round1 G1 h d'
            = inl "KeyError").
  { intros u v d' Hin. rewrite H2 in Hin.
    apply list_elem_of_lookup in Hin as [i Hi].
    destruct (Forall2_lookup_r _ _ _ i _ H3 Hi) as (e & _ & _ & He).
    apply construct_geometry_no_list.
    by eapply construct_geometry_drops. }
  unfold construct_geometries.
  pose proof (update_edges_converted
    (construct_geometry geometry_length round1 G1 h) (_succ G1)) as Hc.
  pose proof (update_edges_id
    (construct_geometry geometry_length round1 G1 h) (_succ G1)) as Hid.
  destruct (update_edges _ (_succ G1)) as [adj' r']. cbn [fst snd] in *.
  rewrite Hid by (intros u v d' Hin; exists "KeyError"; by eapply Hgone).
  f_equal.
  destruct Hc as (xs1 & xs2 & ys1' & E1 & E2 & E3 & E4).
  destruct r' as [e|].
  - destruct E4 as ([[u v] d'] & rest' & -> & Hbad). cbn [snd] in Hbad.
    rewrite (Hgone u v d') in Hbad; [by injection Hbad as <-|].
    unfold G1 in E1. cbn [_succ] in E1. rewrite E1.
    apply elem_of_app. right. left.
  - exfalso. subst xs2. rewrite app_nil_r in E1. subst xs1.
    change (edges (mkGraph [] (_succ G1)))
      with (edges (mkGraph [] adj)) in E3.
    assert (Hlen : length (edges (mkGraph [] adj)) = length (edges G)).
    { rewrite H2. symmetry. by eapply Forall2_length. }
    destruct (edges (mkGraph [] adj)) as [|[[u v] d'] es] eqn:Ees.
    + destruct (edges G); [done|]. simpl in Hlen. lia.
    + apply Forall2_cons_inv_l in E3 as (e' & l' & [_ He'] & _ & _).
      cbn [snd] in He'. rewrite (Hgone u v d') in He'; [done|left].
Qed.

(** ** Filtering twice *)



(** ** What [to_geojson] writes and when it raises *)

Lemma features_of_inr h es fs :
  features_of h es = inr fs ->
  Forall2 (fun e f => feature_of h e = inr f) es fs.
Proof.
  revert fs. induction es as [|e es IH]; intros fs; simpl.
  { intros [= <-]. constructor. }
  destruct (feature_of h e) as [err|f] eqn:Ef; [done|]. cbn [ebind].
  destruct (features_of h es) as [err|fs'] eqn:Efs; [done|]. cbn [ebind].
  intros [= <-]. constructor; [done|]. by apply IH.
Qed.

Lemma features_of_error h es e err :
  e ∈ es -> feature_of h e = inl err ->
  exists err', features_of h es = inl err'.
Proof.
  induction es as [|e0 es IH]; intros Hin Hf; [by apply elem_of_nil in Hin|].
  simpl. destruct (feature_of h e0) as [err0|f0] eqn:E0; [by eexists|].
  cbn [ebind]. apply elem_of_cons in Hin as [->|Hin]; [congruence|].
  destruct (IH Hin Hf) as [err' ->]. by eexists.
Qed.

Lemma feature_of_no_geometry h u v d :
  d !! "geometry" = None -> feature_of h (u, v, d) = inl "KeyError".
Proof.
  intros H. unfold feature_of.
  by rewrite !lookup_insert_ne, H.
Qed.

(** [to_geojson] needs a geometry on every edge: with an edge that has
    none, as before [construct_geometries], it raises and writes
    nothing; the error is [KeyError] when the first edge is such an
    edge. *)
Theorem to_geojson_needs_geometry (st : state) (e : edge) :
  e ∈ edges st.1 -> e.2 !! "geometry" = None ->
  (exists err, to_geojson st = inl err)
  /\ (head (edges st.1) = Some e -> to_geojson st = inl "KeyError").
Proof.
  destruct e as [[u v] d]. cbn [snd]. intros Hin Hd.
  pose proof (feature_of_no_geometry st.2 u v d Hd) as Hf.
  unfold to_geojson. split.
  - destruct (features_of_error _ _ _ _ Hin Hf) as [err ->]. by exists err.
  - intros Hhead. destruct (edges st.1) as [|e0 es]; [done|].
    injection Hhead as ->. cbn [features_of]. by rewrite Hf.
Qed.

Lemma dump_fields_jfield h fields : forall js k x j,
  dump_fields h fields = inr js ->
  NoDup (map fst fields) -> (k, x) ∈ fields -> dump_value h x = inr j ->
  jfield k js = inr j.
Proof.
  induction fields as [|[k0 x0] fields IH]; intros js k x j; simpl.
  { intros _ _ Hin. by apply elem_of_nil in Hin. }
  destruct (dump_value h x0) as [err|j0] eqn:E0; [done|]. cbn [ebind].
  destruct (dump_fields h fields) as [err|js'] eqn:Ejs; [done|]. cbn [ebind].
  intros [= <-] Hnd Hin Hx. apply NoDup_cons in Hnd as [Hk0 Hnd].
  simpl. apply elem_of_cons in Hin as [[= -> ->]|Hin].
  - rewrite decide_True by done. congruence.
  - rewrite decide_False; [by eapply IH|].
    intros ->. apply Hk0. apply list_elem_of_fmap. by exists (k0, x).
Qed.

(** When [to_geojson] returns, the document has one feature for every
    edge, in the order of [G.edges].  The feature of an edge has the
    line of the edge as geometry and the end points of the edge under
    [_u] and [_v], whatever the edge had under these two keys. *)
Theorem to_geojson_features (st : state) (fc : json) :
  to_geojson st = inr fc ->
  exists fs,
    fc = JObj [("type", JStr "FeatureCollection"); ("features", JArr fs)]
    /\ Forall2
         (fun (e : edge) (f : json) =>
            exists g props,
              e.2 !! "geometry" = Some (VGeometry g)
              /\ f = JObj [("type", JStr "Feature");
                           ("geometry", mapping g);
                           ("properties", JObj props)]
              /\ jfield "_u" props = inr (JInt e.1.1)
              /\ jfield "_v" props = inr (JInt e.1.2))
         (edges st.1) fs.
Proof.
  unfold to_geojson.
  destruct (features_of st.2 (edges st.1)) as [err|fs] eqn:E; [done|].
  cbn [ebind]. intros [= <-]. exists fs. split; [done|].
  apply features_of_inr in E.
  eapply Forall2_impl; [exact E|]. clear E.
  intros [[u v] d] f Hf. unfold feature_of in Hf. cbn [fst snd].
  rewrite !lookup_insert_ne in Hf by done.
  destruct (d !! "geometry") as [[j|l|g]|] eqn:Eg; try done.
  set (m := delete "geometry" (<["_v":=VJson (JInt v)]>
                                 (<["_u":=VJson (JInt u)]> d))) in *.
  destruct (dump_fields st.2 (map_to_list m)) as [err|props] eqn:Ep; [done|].
  cbn [ebind] in Hf. injection Hf as <-.
  exists g, props. split; [done|]. split; [done|].
  split.
  - eapply (dump_fields_jfield _ _ _ "_u" (VJson (JInt u)));
      [exact Ep| | |done].
    + apply NoDup_fst_map_to_list.
    + apply elem_of_map_to_list. unfold m.
      by rewrite lookup_delete_ne, lookup_insert_ne, lookup_insert_eq.
  - eapply (dump_fields_jfield _ _ _ "_v" (VJson (JInt v)));
      [exact Ep| | |done].
    + apply NoDup_fst_map_to_list.
    + apply elem_of_map_to_list. unfold m.
      by rewrite lookup_delete_ne, lookup_insert_eq.
Qed.

(** ** From the file to the exchange format *)








(** ** What [from_geojson] reads *)






(** ** [simplify] on a graph without a node to merge *)

Lemma classify_skip G rn n :
  length (predecessors n G) <> 1%nat \/ length (successors n G) <> 1%nat ->
  classify G rn n = inr rn.
Proof.
  intros H. unfold classify.
  destruct (predecessors n G) as [|p [|]]; try done.
  destruct (successors n G) as [|q [|]]; try done.
  simpl in H. lia.
Qed.

(** When no node has exactly one predecessor and exactly one successor,
    [simplify] returns and changes nothing. *)
Theorem simplify_nothing_to_merge (st : state) :
  (forall n, n ∈ nodes st.1 ->
     length (predecessors n st.1) <> 1%nat
     \/ length (successors n st.1) <> 1%nat) ->
  simplify st = (st, inr tt).
Proof.
  intros H. rewrite simplify_eq.
  assert (Hc : forall ns rn, (forall n, n ∈ ns -> n ∈ nodes st.1) ->
            collect st.1 ns rn = inr rn).
  { induction ns as [|n ns IH]; intros rn Hns; [done|]. simpl.
    rewrite classify_skip by (apply H, Hns; left). cbn [ebind].
    apply IH. intros m Hm. apply Hns. by right. }
  by rewrite Hc.
Qed.

(** ** The further properties on the sample inputs *)

(** The feature of [ex_node] has the id 9 under [osm_id] and the value of
    the later of its two [highway] tags. *)
Lemma way_nodes_features_witness :
  "highway" <> "osm_id"
  /\ exists props,
       (let? fields := as_object (node_feature ex_node) in
        jfield "properties" fields) = inr (JObj props)
       /\ jfield "osm_id" props = inr (JInt 9)
       /\ jfield "highway" props = inr (JStr "steps").
Proof.
  split; [discriminate|].
  destruct (proj2 (way_nodes_features None []) ex_node)
    as (props & H1 & H2 & H3).
  exists props. split; [exact H1|]. split; [exact H2|].
  rewrite (H3 "highway") by discriminate. reflexivity.
Defined.

(** The first edge the sample way adds. *)
Lemma way_edge_attributes_witness :
  accepts None ex_way = true
  /\ (100, 101, ex_segment.2)
     ∈ edges (way None ex_normalize ex_way (empty_graph, [])).1
  /\ ((100, 101, ex_segment.2) ∈ edges empty_graph
      \/ exists i : nat,
           (S i < length (w_nodes ex_way))%nat
           /\ ex_segment.2 !! "segment" = Some (VJson (JInt (Z.of_nat i)))
           /\ ex_segment.2 !! "ndref" = Some (VList (0 + i)%nat)
           /\ (way None ex_normalize ex_way (empty_graph, [])).2
                !! (0 + i)%nat = Some [100; 101]
           /\ ex_segment.2 !! "osm_id"
              = Some (default (VJson (JInt 7))
                        (ex_normalize (w_tags ex_way) !! "osm_id"))
           /\ forall k, k <> "segment" -> k <> "ndref" -> k <> "osm_id" ->
                ex_segment.2 !! k = ex_normalize (w_tags ex_way) !! k).
Proof.
  assert (Hin : (100, 101, ex_segment.2)
                ∈ edges (way None ex_normalize ex_way (empty_graph, [])).1).
  { unfold way. change (accepts None ex_way) with true. cbv iota.
    rewrite (proj1 (way_loop_spec (way_attrs ex_normalize ex_way)
                      (w_nodes ex_way) 0 empty_graph [])).
    apply elem_of_app. right. left. }
  split; [reflexivity|]. split; [exact Hin|].
  exact (way_edge_attributes None ex_normalize ex_way empty_graph []
           eq_refl 100 101 ex_segment.2 Hin).
Defined.

(** A second pass over the finished sample graph. *)
Lemma construct_geometries_twice_witness :
  (construct_geometries ex_length ex_round ex_junction).2 = inr tt
  /\ edges ex_junction.1 <> []
  /\ construct_geometries ex_length ex_round ex_finished
     = (ex_finished, inl "KeyError").
Proof.
  assert (Hne : edges ex_junction.1 <> []).
  { intros H. apply (f_equal length) in H. vm_compute in H. discriminate H. }
  split; [vm_compute; reflexivity|]. split; [exact Hne|].
  apply (construct_geometries_twice ex_length ex_round ex_junction);
    [vm_compute; reflexivity|exact Hne].
Defined.


(** The built sample graph has no geometries yet. *)
Lemma to_geojson_needs_geometry_witness :
  ex_first ∈ edges ex_built.1
  /\ ex_first.2 !! "geometry" = None
  /\ head (edges ex_built.1) = Some ex_first
  /\ to_geojson ex_built = inl "KeyError".
Proof.
  assert (Hh : head (edges ex_built.1) = Some ex_first).
  { assert (Hlen : length (edges ex_built.1) = 3%nat)
      by (vm_compute; reflexivity).
    unfold ex_first. destruct (edges ex_built.1); [discriminate Hlen|].
    reflexivity. }
  assert (Hin : ex_first ∈ edges ex_built.1).
  { revert Hh. generalize (edges ex_built.1) ex_first.
    intros [|e es] x H; [discriminate H|]. injection H as ->. left. }
  assert (Hg : ex_first.2 !! "geometry" = None) by (vm_compute; reflexivity).
  split; [exact Hin|]. split; [exact Hg|]. split; [exact Hh|].
  exact (proj2 (to_geojson_needs_geometry ex_built ex_first Hin Hg) Hh).
Defined.

(** The document of the finished sample graph has two features. *)
Lemma to_geojson_features_witness :
  to_geojson ex_finished = inr ex_finished_doc
  /\ exists fs,
       ex_finished_doc
       = JObj [("type", JStr "FeatureCollection"); ("features", JArr fs)]
       /\ length fs = 2%nat.
Proof.
  assert (H : to_geojson ex_finished = inr ex_finished_doc)
    by (vm_compute; reflexivity).
  split; [exact H|].
  destruct (to_geojson_features ex_finished ex_finished_doc H)
    as (fs & Hfc & Hall).
  exists fs. split; [exact Hfc|].
  apply Forall2_length in Hall. rewrite <- Hall. vm_compute. reflexivity.
Defined.



(** The graph of one way of two nodes has nothing to merge. *)
Lemma simplify_nothing_to_merge_witness :
  (forall n, n ∈ nodes ex_two.1 ->
     length (predecessors n ex_two.1) <> 1%nat
     \/ length (successors n ex_two.1) <> 1%nat)
  /\ simplify ex_two = (ex_two, inr tt).
Proof.
  assert (H : forall n, n ∈ nodes ex_two.1 ->
            length (predecessors n ex_two.1) <> 1%nat
            \/ length (successors n ex_two.1) <> 1%nat).
  { intros n Hn. change (nodes ex_two.1) with [1; 2] in Hn.
    apply elem_of_cons in Hn as [->|Hn].
    - left. vm_compute. discriminate.
    - apply list_elem_of_singleton in Hn as ->. right.
      vm_compute. discriminate. }
  split; [exact H|]. exact (simplify_nothing_to_merge ex_two H).
Defined.

(** ** A closed way on its own *)

(** ** A closed way *)

Section Spent.

Variable cyc : list edge.
Hypothesis Hsrc : NoDup (map (fun e : edge => e.1.1) cyc).

Lemma spent_adj_keys P :
  dict_keys (spent_adj P cyc) = map (fun e : edge => e.1.1) cyc.
Proof. unfold spent_adj, dict_keys. rewrite map_map. done. Qed.

Lemma spent_adj_get P u v d :
  (u, v, d) ∈ cyc ->
  dict_get u (spent_adj P cyc)
  = Some (if decide (u ∈ P) then [] else [(v, [d])]).
Proof.
  intros Hin. apply dict_get_NoDup; [by rewrite spent_adj_keys|].
  unfold spent_adj. apply list_elem_of_fmap. by exists (u, v, d).
Qed.

Lemma spent_adj_ext P P' :
  (forall x, x ∈ P <-> x ∈ P') -> spent_adj P cyc = spent_adj P' cyc.
Proof.
  intros H. unfold spent_adj. apply map_ext. intros e.
  destruct (decide (e.1.1 ∈ P)) as [Hp|Hp].
  - rewrite decide_True; [done|]. by apply H.
  - rewrite decide_False; [done|]. by rewrite <- H.
Qed.

End Spent.

Lemma spent_adj_absent u P cyc :
  u ∉ map (fun e : edge => e.1.1) cyc ->
  spent_adj (u :: P) cyc = spent_adj P cyc.
Proof.
  intros Hu. unfold spent_adj. apply map_ext_in. intros e He.
  assert (Hne : e.1.1 <> u).
  { intros <-. apply Hu. apply list_elem_of_fmap. exists e.
    split; [done|]. by apply list_elem_of_In. }
  destruct (decide (e.1.1 ∈ P)) as [Hp|Hp].
  - rewrite decide_True; [done|]. by right.
  - rewrite decide_False; [done|]. by apply not_elem_of_cons.
Qed.

Lemma spent_adj_set P cyc u v d :
  NoDup (map (fun e : edge => e.1.1) cyc) ->
  (u, v, d) ∈ cyc ->
  dict_set u [] (spent_adj P cyc) = spent_adj (u :: P) cyc.
Proof.
  induction cyc as [|e cyc IH]; intros Hnd Hin;
    [by apply elem_of_nil in Hin|].
  cbn [map] in Hnd. apply NoDup_cons in Hnd as [He Hnd].
  unfold spent_adj. cbn [map dict_set]. fold (spent_adj P cyc).
  fold (spent_adj (u :: P) cyc).
  destruct (decide (u = e.1.1)) as [->|Hne].
  - rewrite (decide_True (P := e.1.1 ∈ e.1.1 :: P)) by left.
    f_equal. symmetry. by apply spent_adj_absent.
  - apply elem_of_cons in Hin as [Heq|Hin]; [subst e; by destruct Hne|].
    rewrite IH by done. f_equal. f_equal.
    destruct (decide (e.1.1 ∈ P)) as [Hp|Hp].
    + rewrite decide_True; [done|]. by right.
    + rewrite decide_False; [done|]. apply not_elem_of_cons. split; congruence.
Qed.

Lemma first_successor_spent N P cyc u v d :
  NoDup (map (fun e : edge => e.1.1) cyc) ->
  (u, v, d) ∈ cyc -> u ∉ P ->
  first_successor u (mkGraph N (spent_adj P cyc)) = inr v.
Proof.
  intros Hnd Hin Hu. unfold first_successor, successors. cbn [_succ].
  rewrite (spent_adj_get cyc Hnd P u v d Hin). by rewrite decide_False.
Qed.

Lemma remove_edge_spent N P cyc u v d :
  NoDup (map (fun e : edge => e.1.1) cyc) ->
  (u, v, d) ∈ cyc -> u ∉ P ->
  remove_edge u v (mkGraph N (spent_adj P cyc))
  = inr (mkGraph N (spent_adj (u :: P) cyc)).
Proof.
  intros Hnd Hin Hu. unfold remove_edge. cbn [_succ _node].
  rewrite (spent_adj_get cyc Hnd P u v d Hin). rewrite decide_False by done.
  cbn [dict_get]. rewrite decide_True by done.
  cbn [removelast dict_del]. rewrite decide_True by done.
  by rewrite (spent_adj_set P cyc u v d Hnd Hin).
Qed.

Lemma merge_run_spent l N cyc :
  NoDup (map (fun e : edge => e.1.1) cyc) ->
  forall ns vs P (h : store),
    Forall2 (fun n v => exists d, (n, v, d) ∈ cyc) ns vs ->
    NoDup ns -> (forall n, n ∈ ns -> n ∉ P) ->
    merge_run l ns (mkGraph N (spent_adj P cyc), h)
    = ((mkGraph N (spent_adj (rev ns ++ P) cyc),
        alter (fun c => c ++ vs) l h), inr tt).
Proof.
  intros Hnd ns vs P h Hall. revert P h.
  induction Hall as [|n v ns vs [d Hin] Hall IH]; intros P h Hns HP.
  { cbn [merge_run rev app]. unfold ret. f_equal. f_equal.
    symmetry. apply list_alter_id. intros c. by rewrite app_nil_r. }
  apply NoDup_cons in Hns as [Hn Hns].
  rewrite merge_run_cons. cbn [fst snd].
  rewrite (first_successor_spent N P cyc n v d Hnd Hin) by (apply HP; left).
  cbn zeta.
  rewrite (remove_edge_spent N P cyc n v d Hnd Hin) by (apply HP; left).
  rewrite IH; [|done|].
  - f_equal. f_equal.
    + f_equal. cbn [rev]. by rewrite <- (assoc_L (++)).
    + rewrite list_alter_alter_eq. apply list_alter_ext; [|done].
      intros c _. cbn. by rewrite <- (assoc_L (++)).
  - intros m Hm. apply not_elem_of_cons. split; [by intros ->|].
    apply HP. by right.
Qed.

Lemma edges_spent_all N P cyc :
  (forall e, e ∈ cyc -> e.1.1 ∈ P) ->
  edges (mkGraph N (spent_adj P cyc)) = [].
Proof.
  intros H. unfold edges. cbn [_succ].
  induction cyc as [|e cyc IH]; [done|].
  unfold spent_adj. cbn [map flat_map]. fold (spent_adj P cyc).
  rewrite decide_True by (apply H; left). cbn [edges_from flat_map app].
  apply IH. intros e' He'. apply H. by right.
Qed.

Lemma predecessors_spent N cyc x :
  predecessors x (mkGraph N (spent_adj [] cyc))
  = map (fun e : edge => e.1.1) (filter (fun e : edge => e.1.2 = x) cyc).
Proof.
  unfold predecessors. cbn [_succ].
  induction cyc as [|e cyc IH]; [done|].
  unfold spent_adj. cbn [map]. fold (spent_adj [] cyc).
  rewrite decide_False by apply not_elem_of_nil.
  destruct (decide (e.1.2 = x)) as [Hx|Hx].
  - rewrite filter_cons_True.
    2:{ unfold dict_mem. cbn [dict_get]. by rewrite decide_True. }
    rewrite (filter_cons_True (fun e0 : edge => e0.1.2 = x)) by done.
    cbn [dict_keys map fst]. f_equal. exact IH.
  - rewrite filter_cons_False.
    2:{ unfold dict_mem. cbn [dict_get]. rewrite decide_False by congruence.
        done. }
    rewrite (filter_cons_False (fun e0 : edge => e0.1.2 = x)) by done.
    exact IH.
Qed.

Lemma filter_target_absent cyc x :
  x ∉ map (fun e : edge => e.1.2) cyc ->
  filter (fun e : edge => e.1.2 = x) cyc = [].
Proof.
  induction cyc as [|e cyc IH]; [done|]. cbn [map].
  intros [Hne Hx]%not_elem_of_cons.
  rewrite filter_cons_False by congruence. by apply IH.
Qed.

Lemma filter_target cyc p x d :
  NoDup (map (fun e : edge => e.1.2) cyc) ->
  (p, x, d) ∈ cyc ->
  filter (fun e : edge => e.1.2 = x) cyc = [(p, x, d)].
Proof.
  induction cyc as [|e cyc IH]; intros Hnd Hin;
    [by apply elem_of_nil in Hin|].
  cbn [map] in Hnd. apply NoDup_cons in Hnd as [He Hnd].
  apply elem_of_cons in Hin as [Heq|Hin].
  - subst e. cbn [fst snd] in He.
    rewrite filter_cons_True by done. f_equal.
    by apply filter_target_absent.
  - rewrite filter_cons_False; [by apply IH|].
    intros Hx. apply He. rewrite Hx.
    apply list_elem_of_fmap. by exists (p, x, d).
Qed.

Lemma edge0_spent N cyc u v d :
  NoDup (map (fun e : edge => e.1.1) cyc) ->
  (u, v, d) ∈ cyc ->
  edge0 u v (mkGraph N (spent_adj [] cyc)) = inr d.
Proof.
  intros Hnd Hin. unfold edge0. cbn [_succ].
  rewrite (spent_adj_get cyc Hnd [] u v d Hin).
  rewrite decide_False by apply not_elem_of_nil.
  cbn [dict_get]. by rewrite decide_True.
Qed.

(** In such a graph a node between two edges of the same way is filed. *)
Lemma classify_spent N cyc p x q din dout way_id s acc :
  NoDup (map (fun e : edge => e.1.1) cyc) ->
  NoDup (map (fun e : edge => e.1.2) cyc) ->
  (p, x, din) ∈ cyc -> (x, q, dout) ∈ cyc ->
  get_int "osm_id" din = inr way_id ->
  get_int "osm_id" dout = inr way_id ->
  get_int "segment" din = inr s ->
  classify (mkGraph N (spent_adj [] cyc)) (filed way_id acc) x
  = inr (filed way_id (acc ++ [(p, x, q, s)])).
Proof.
  intros Hs Ht Hin Hout Hid Hod Hseg. unfold classify.
  rewrite predecessors_spent, (filter_target cyc p x din Ht Hin).
  cbn [map fst]. unfold successors. cbn [_succ].
  rewrite (spent_adj_get cyc Hs [] x q dout Hout).
  rewrite decide_False by apply not_elem_of_nil.
  cbn [default from_option id dict_keys map fst].
  rewrite (edge0_spent N cyc p x din Hs Hin). cbn [ebind].
  rewrite (edge0_spent N cyc x q dout Hs Hout). cbn [ebind].
  rewrite Hid. cbn [ebind]. rewrite Hod. cbn [ebind].
  rewrite decide_False by (intros H; by apply H).
  rewrite Hseg. cbn [ebind].
  destruct acc as [|a acc]; cbn [filed dict_get app].
  - done.
  - rewrite decide_True by done. cbn [dict_set].
    by rewrite decide_True.
Qed.

Lemma collect_tuples G way_id ns ts :
  Forall2 (fun n t => forall acc,
             classify G (filed way_id acc) n
             = inr (filed way_id (acc ++ [t]))) ns ts ->
  forall acc, collect G ns (filed way_id acc)
              = inr (filed way_id (acc ++ ts)).
Proof.
  induction 1 as [|n t ns ts Hn Hall IH]; intros acc; simpl.
  - by rewrite app_nil_r.
  - rewrite Hn. cbn [ebind]. rewrite IH. by rewrite <- (assoc_L (++)).
Qed.

Lemma insert_sorted_last x l :
  Forall (fun y => segment_of y < segment_of x) l ->
  insert_sorted x l = l ++ [x].
Proof.
  induction 1 as [|y l Hy Hl IH]; [done|]. cbn [insert_sorted app].
  rewrite (proj2 (Z.ltb_lt _ _) Hy). by rewrite IH.
Qed.

Lemma path_triples_segments steps : forall r i,
  Forall (fun y => segment_of y
                   < i + Z.of_nat (length (path_triples r i steps)))
    (path_triples r i steps).
Proof.
  induction steps as [|[x d] steps IH]; intros r i; [constructor|].
  destruct steps as [|[q dq] rest]; [constructor|].
  change (path_triples r i ((x, d) :: (q, dq) :: rest))
    with ((r, x, q, i) :: path_triples x (i + 1) ((q, dq) :: rest)).
  constructor.
  - unfold segment_of. cbn [snd length]. lia.
  - eapply Forall_impl; [apply IH|]. intros y Hy. cbn [length].
    cbn beta in Hy. rewrite Nat2Z.inj_succ. lia.
Qed.

Lemma group_loop_app l1 : forall g l2,
  group_loop g (l1 ++ l2)
  = let? g' := group_loop g l1 in group_loop g' l2.
Proof.
  induction l1 as [|x l1 IH]; intros g l2; [done|]. cbn [app group_loop].
  destruct (group_step g x) as [e|g1]; [done|]. cbn [ebind]. apply IH.
Qed.

Lemma group_loop_run steps : forall x i (e : node * node) acc,
  group_loop (mkGrouping [(e, acc)] i (Some e))
    (path_triples x (i + 1) steps)
  = inr (mkGrouping
           [(e, acc ++ map nd_node (path_triples x (i + 1) steps))]
           (i + Z.of_nat (length (path_triples x (i + 1) steps)))
           (Some e)).
Proof.
  induction steps as [|[y d] steps IH]; intros x i e acc.
  { cbn. by rewrite app_nil_r, Z.add_0_r. }
  destruct steps as [|[q dq] rest].
  { cbn. by rewrite app_nil_r, Z.add_0_r. }
  change (path_triples x (i + 1) ((y, d) :: (q, dq) :: rest))
    with ((x, y, q, i + 1) :: path_triples y (i + 1 + 1) ((q, dq) :: rest)).
  cbn [group_loop]. unfold group_step at 1. cbn [last_s].
  rewrite decide_False by (intros H; apply H; lia).
  cbn [receiving_edge groups dict_get].
  rewrite decide_True by done. cbn [dict_set].
  rewrite decide_True by done. cbn [ebind].
  rewrite (IH y (i + 1) e (acc ++ [y])).
  cbn [map length]. unfold nd_node at 2. cbn [fst snd].
  rewrite <- (assoc_L (++)). do 2 f_equal. lia.
Qed.

(** The grouping loop on the tuples of a closed way: the tuple of the
    first node comes last and joins the one run. *)
Lemma group_loop_ring steps r x1 d1 p x q recv :
  head steps = Some (x1, d1) ->
  path_triples r 0 steps <> [] ->
  group_loop (mkGrouping [] (-10) recv)
    (path_triples r 0 steps
       ++ [((p, x, q, Z.of_nat (length (path_triples r 0 steps)))
            : node_data)])
  = inr (mkGrouping
           [((r, x1), map nd_node (path_triples r 0 steps) ++ [x])]
           (Z.of_nat (length (path_triples r 0 steps)))
           (Some (r, x1))).
Proof.
  intros Hhd Hne. rewrite group_loop_app.
  destruct steps as [|[y d] [|[q' dq] rest]]; [done|done|].
  injection Hhd as -> ->.
  change (path_triples r 0 ((x1, d1) :: (q', dq) :: rest))
    with ((r, x1, q', 0) :: path_triples x1 (0 + 1) ((q', dq) :: rest)).
  cbn [group_loop]. unfold group_step at 1. cbn [last_s].
  rewrite decide_True by lia.
  cbn [receiving_edge groups dict_get dict_set].
  rewrite decide_True by done. cbn [dict_set].
  rewrite decide_True by done. cbn [ebind app].
  rewrite (group_loop_run ((q', dq) :: rest) x1 0 (r, x1) [x1]).
  cbn [ebind group_loop]. unfold group_step. cbn [last_s length].
  rewrite decide_False by (intros H; apply H; lia).
  cbn [receiving_edge groups dict_get].
  rewrite decide_True by done. cbn [dict_set].
  rewrite decide_True by done. cbn [ebind map].
  unfold nd_node at 2. cbn [fst snd].
  do 2 f_equal.
Qed.

Lemma chain_sources steps : forall r,
  map (fun e : edge => e.1.1) (chain r steps)
  = removelast (r :: map fst steps).
Proof.
  induction steps as [|[x d] steps IH]; intros r; [done|].
  cbn [chain map fst]. rewrite IH. done.
Qed.

Lemma chain_targets steps : forall r,
  map (fun e : edge => e.1.2) (chain r steps) = map fst steps.
Proof.
  induction steps as [|[x d] steps IH]; intros r; [done|].
  cbn [chain map fst snd]. by rewrite IH.
Qed.

Lemma chain_dicts steps : forall r u v d,
  (u, v, d) ∈ chain r steps -> (v, d) ∈ steps.
Proof.
  induction steps as [|[x dx] steps IH]; intros r u v d Hin;
    [by apply elem_of_nil in Hin|].
  cbn [chain] in Hin. apply elem_of_cons in Hin as [[= -> -> ->]|Hin].
  - left.
  - right. by eapply IH.
Qed.

Lemma chain_app s1 : forall r s2,
  chain r (s1 ++ s2)
  = chain r s1 ++ chain (default r (last (map fst s1))) s2.
Proof.
  induction s1 as [|[x d] s1 IH]; intros r s2; [done|].
  cbn [app chain map fst]. rewrite IH. f_equal. f_equal. f_equal.
  destruct s1 as [|[y dy] s1]; [done|]. cbn [map fst].
  change (last (x :: y :: map fst s1)) with (last (y :: map fst s1)).
  apply default_last_cons.
Qed.

(** The tuples of the nodes inside a chain. *)
Lemma tuples_chain steps : forall r i,
  (forall j x d, steps !! j = Some (x, d) ->
     get_int "segment" d = inr (i + Z.of_nat j)) ->
  Forall2
    (fun n t => exists p q din dout s,
       t = (p, n, q, s)
       /\ (p, n, din) ∈ chain r steps /\ (n, q, dout) ∈ chain r steps
       /\ get_int "segment" din = inr s)
    (map fst (removelast steps)) (path_triples r i steps).
Proof.
  induction steps as [|[x d] steps IH]; intros r i Hseg; [constructor|].
  destruct steps as [|[q dq] rest]; [constructor|].
  change (path_triples r i ((x, d) :: (q, dq) :: rest))
    with ((r, x, q, i) :: path_triples x (i + 1) ((q, dq) :: rest)).
  change (removelast ((x, d) :: (q, dq) :: rest))
    with ((x, d) :: removelast ((q, dq) :: rest)).
  cbn [map fst]. constructor.
  - exists r, q, d, dq, i. split; [done|]. cbn [chain].
    split; [left|]. split; [right; left|].
    rewrite (Hseg 0%nat x d eq_refl). f_equal. lia.
  - eapply Forall2_impl.
    + apply (IH x (i + 1)). intros j y dy Hj.
      rewrite (Hseg (S j) y dy Hj). f_equal. lia.
    + intros n t (p & q' & din & dout & s & -> & H1 & H2 & H3).
      exists p, q', din, dout, s. split; [done|].
      split; [by right|]. split; [by right|done].
Qed.

(** [simplify] on the graph of a closed chain of edges of one way,
    numbered from 0: the nodes of the chain are all merged into the first
    edge, which becomes an edge from the first node to itself; its list
    gets the nodes around the chain and, once more, the second node. *)
Lemma simplify_ring N r x1 d0 body dk (h : store) way_id l :
  let steps := ((x1, d0) :: body) ++ [(r, dk)] in
  dict_keys N = r :: map fst ((x1, d0) :: body) ->
  NoDup (r :: map fst ((x1, d0) :: body)) ->
  (forall j x d, steps !! j = Some (x, d) ->
     get_int "osm_id" d = inr way_id
     /\ get_int "segment" d = inr (Z.of_nat j)) ->
  get_list "ndref" d0 = inr l ->
  exists G',
    simplify (mkGraph N (spent_adj [] (chain r steps)), h)
    = ((G', alter (fun c => c ++ map fst (tail steps) ++ [x1]) l h), inr tt)
    /\ edges G' = [(r, r, d0)].
Proof.
  intros steps HN Hnd Hattr Hl.
  set (pb := (x1, d0) :: body) in *.
  set (cyc := chain r steps).
  set (rk := default r (last (map fst pb))).
  assert (Hfst : map fst steps = map fst pb ++ [r])
    by (unfold steps; by rewrite map_app).
  assert (Hsources : map (fun e : edge => e.1.1) cyc = r :: map fst pb).
  { unfold cyc. rewrite chain_sources, Hfst.
    change (r :: map fst pb ++ [r]) with ((r :: map fst pb) ++ [r]).
    by rewrite removelast_last. }
  assert (Htargets : map (fun e : edge => e.1.2) cyc = map fst pb ++ [r]).
  { unfold cyc. by rewrite chain_targets. }
  assert (Hs : NoDup (map (fun e : edge => e.1.1) cyc))
    by (by rewrite Hsources).
  assert (Ht : NoDup (map (fun e : edge => e.1.2) cyc)).
  { rewrite Htargets.
    assert (Hp : map fst pb ++ [r] ≡ₚ r :: map fst pb)
      by (by rewrite Permutation_app_comm).
    by rewrite Hp. }
  assert (Hfirst : (r, x1, d0) ∈ cyc) by (unfold cyc, steps; cbn; left).
  assert (Hlast : (rk, r, dk) ∈ cyc).
  { unfold cyc, steps. rewrite chain_app. apply elem_of_app. right.
    cbn [chain]. left. }
  assert (Hosm : forall u v d, (u, v, d) ∈ cyc ->
            get_int "osm_id" d = inr way_id).
  { intros u v d Hin. apply chain_dicts in Hin.
    apply list_elem_of_lookup in Hin as [j Hj]. by apply (Hattr j v d). }
  set (PT := path_triples r 0 steps).
  assert (Hnodes : map nd_node PT = map fst pb).
  { unfold PT. rewrite path_triples_nodes. unfold steps.
    by rewrite removelast_last. }
  assert (Hlen : length PT = length pb).
  { rewrite <- (length_map nd_node), Hnodes. by rewrite length_map. }
  set (wrap := (rk, r, x1, Z.of_nat (length PT)) : node_data).
  set (G := mkGraph N (spent_adj [] cyc)).
  assert (Hcol : collect G (nodes G) [] = inr [(way_id, wrap :: PT)]).
  { unfold nodes, G. cbn [_node]. rewrite HN.
    apply (collect_tuples _ way_id _ (wrap :: PT)) with (acc := []).
    constructor.
    - intros acc. apply (classify_spent N cyc rk r x1 dk d0); try done.
      + by eapply Hosm.
      + by eapply Hosm.
      + rewrite Hlen.
        apply (Hattr (length pb) r dk). unfold steps.
        by rewrite lookup_app_r, Nat.sub_diag by lia.
    - pose proof (tuples_chain steps r 0) as Htc.
      assert (Hrl : removelast steps = pb)
        by (unfold steps; apply removelast_last).
      rewrite Hrl in Htc.
      eapply Forall2_impl; [apply Htc|].
      + intros j x d Hj. rewrite Z.add_0_l. by apply (Hattr j x d).
      + intros n t (p & q & din & dout & s & -> & H1 & H2 & H3) acc.
        apply (classify_spent N cyc p n q din dout); try done.
        * by eapply Hosm.
        * by eapply Hosm. }
  rewrite simplify_eq. cbn [fst snd]. fold G. rewrite Hcol.
  rewrite simplify_ways_cons.
  change (sorted (wrap :: PT)) with (insert_sorted wrap (sorted PT)).
  unfold PT at 1. rewrite sorted_path_triples. fold PT.
  rewrite insert_sorted_last.
  2:{ pose proof (path_triples_segments steps r 0) as Hb. fold PT in Hb.
      eapply Forall_impl; [exact Hb|]. intros y Hy. cbn beta in Hy.
      unfold wrap, segment_of at 2. cbn [snd]. lia. }
  unfold wrap. unfold PT at 1 2.
  rewrite (group_loop_ring steps r x1 d0 rk r x1 None); [|done|].
  2:{ fold PT. intros HPT. rewrite HPT in Hlen. done. }
  fold PT. cbn [groups receiving_edge merge_groups].
  unfold bind at 1. rewrite merge_group_eq. cbn [fst snd]. unfold G.
  rewrite (edge0_spent N cyc r x1 d0 Hs Hfirst), Hl.
  rewrite Hnodes.
  rewrite (merge_run_spent l N cyc Hs (map fst pb ++ [r])
             (map fst (tail steps) ++ [x1]) [] h).
  - rewrite last_snoc. cbn [fst snd simplify_ways]. unfold ret.
    eexists. split; [reflexivity|].
    apply Permutation_singleton_r.
    rewrite edges_add_edge, edges_spent_all; [done|].
    intros e He. rewrite app_nil_r.
    apply list_elem_of_In, (proj1 (in_rev _ _)), list_elem_of_In.
    assert (Hin : e.1.1 ∈ map (fun e : edge => e.1.1) cyc)
      by (apply list_elem_of_fmap; by exists e).
    rewrite Hsources in Hin. apply elem_of_app.
    apply elem_of_cons in Hin as [->|Hin]; [right; left|by left].
  - assert (Hall : Forall2 (fun n v => exists d, (n, v, d) ∈ cyc)
                     (map (fun e : edge => e.1.1) cyc)
                     (map (fun e : edge => e.1.2) cyc)).
    { apply Forall2_fmap, Forall_Forall2_diag, Forall_forall.
      intros [[u v] d] Hin. by exists d. }
    rewrite Hsources in Hall.
    assert (Htl : map (fun e : edge => e.1.2) cyc
                  = x1 :: map fst (tail steps)).
    { unfold cyc. rewrite chain_targets. done. }
    rewrite Htl in Hall.
    apply Forall2_cons in Hall as [H0 Hrest].
    apply Forall2_app; [exact Hrest|]. by constructor.
  - assert (Hp : map fst pb ++ [r] ≡ₚ r :: map fst pb)
      by (by rewrite Permutation_app_comm).
    by rewrite Hp.
  - intros n _. apply not_elem_of_nil.
Qed.

Lemma way_loop_snoc d2 ns : forall i x y st,
  way_loop d2 i (ns ++ [x; y]) st
  = way_segment d2 (i + Z.of_nat (length ns)) x y
      (way_loop d2 i (ns ++ [x]) st).
Proof.
  induction ns as [|u ns IH]; intros i x y st.
  { cbn [app length way_loop]. by rewrite Z.add_0_r. }
  destruct ns as [|n1 ns'].
  - change (way_loop d2 i ([u] ++ [x; y]) st)
      with (way_loop d2 (i + 1) ([] ++ [x; y]) (way_segment d2 i u x st)).
    rewrite IH. cbn [app length way_loop]. f_equal. lia.
  - change (way_loop d2 i ((u :: n1 :: ns') ++ [x; y]) st)
      with (way_loop d2 (i + 1) ((n1 :: ns') ++ [x; y])
              (way_segment d2 i u n1 st)).
    rewrite IH.
    change (way_loop d2 i ((u :: n1 :: ns') ++ [x]) st)
      with (way_loop d2 (i + 1) ((n1 :: ns') ++ [x])
              (way_segment d2 i u n1 st)).
    f_equal. cbn [length]. lia.
Qed.

Lemma path_adj_chain steps : forall r,
  path_adj r steps
  = spent_adj [] (chain r steps)
    ++ [(default r (last (map fst steps)), [])].
Proof.
  induction steps as [|[x d] steps IH]; intros r; [done|].
  cbn [path_adj chain map fst]. rewrite IH.
  unfold spent_adj. cbn [map app fst snd].
  rewrite decide_False by apply not_elem_of_nil. do 3 f_equal.
  destruct steps as [|[y dy] steps]; [done|]. cbn [map fst].
  change (last (x :: y :: map fst steps)) with (last (y :: map fst steps)).
  f_equal. apply default_last_cons.
Qed.

Lemma NoDup_last_removelast {A : Type} (l : list A) z :
  NoDup l -> last l = Some z -> z ∉ removelast l.
Proof.
  intros Hnd Hl. apply last_Some in Hl as [l' ->].
  rewrite removelast_last. apply NoDup_app in Hnd as (_ & H & _).
  intros Hz. apply (H z Hz). left.
Qed.

Lemma last_cons_default {A : Type} (r : A) (l : list A) :
  last (r :: l) = Some (default r (last l)).
Proof.
  revert r. induction l as [|x l IH]; intros r; [done|].
  change (last (r :: x :: l)) with (last (x :: l)). by rewrite IH.
Qed.

(** The adjacency of a path whose last node gets an edge back. *)
Lemma path_adj_close r steps x d :
  NoDup (r :: map fst steps) ->
  dict_set (default r (last (map fst steps))) [(x, [d])] (path_adj r steps)
  = spent_adj [] (chain r (steps ++ [(x, d)])).
Proof.
  intros Hnd. rewrite path_adj_chain.
  rewrite dict_set_app_r.
  2:{ rewrite spent_adj_keys, chain_sources.
      apply NoDup_last_removelast; [done|apply last_cons_default]. }
  cbn [dict_set]. rewrite decide_True by done.
  rewrite chain_app. unfold spent_adj. rewrite map_app. cbn [map chain].
  cbn [fst snd]. by rewrite decide_False by apply not_elem_of_nil.
Qed.

Lemma path_adj_last r steps :
  NoDup (r :: map fst steps) ->
  dict_get (default r (last (map fst steps))) (path_adj r steps) = Some [].
Proof.
  intros Hnd. rewrite path_adj_chain. rewrite dict_get_app_r.
  - cbn [dict_get]. by rewrite decide_True.
  - rewrite spent_adj_keys, chain_sources.
    apply NoDup_last_removelast; [done|apply last_cons_default].
Qed.

Lemma elem_of_last_default (r : node) (l : list node) :
  default r (last l) ∈ r :: l.
Proof.
  pose proof (last_cons_default r l) as H.
  apply last_Some in H as [l' H]. rewrite H.
  apply elem_of_app. right. left.
Qed.

(** The last segment of a closed way, on the path its other segments
    made. *)
Lemma way_segment_close d2 i x y (N : list (node * attrs)) r steps
    (h : store) :
  dict_keys N = r :: map fst steps ->
  NoDup (r :: map fst steps) ->
  ref x = default r (last (map fst steps)) -> ref y = r ->
  exists N',
    dict_keys N' = dict_keys N
    /\ way_segment d2 i x y (mkGraph N (path_adj r steps), h)
       = (mkGraph N'
            (spent_adj []
               (chain r (steps
                           ++ [(ref y, (segment_edge d2 (length h) i 0
                                      (x, y)).2)]))),
          h ++ [[ref x; ref y]]).
Proof.
  intros HN Hnd Hx Hy.
  set (G := mkGraph N (path_adj r steps)).
  assert (Hkeys : dict_keys (_succ G) = r :: map fst steps)
    by apply path_adj_keys.
  assert (Hxin : ref x ∈ dict_keys (_succ G)).
  { rewrite Hkeys, Hx. apply elem_of_last_default. }
  assert (Hyin : ref y ∈ dict_keys (_succ G)).
  { rewrite Hkeys, Hy. left. }
  unfold way_segment, add_edges_from. cbn [fold_left]. unfold add_edge.
  rewrite (touch_node_present (ref x) G Hxin).
  rewrite (touch_node_present (ref y) G Hyin).
  unfold G. cbn [_succ _node].
  pose proof (path_adj_last r steps Hnd) as Hl. rewrite <- Hx in Hl.
  rewrite Hl. cbn [default from_option id dict_get dict_set app].
  match goal with
  | |- context [dict_set (ref x) [(ref y, [?d])] _] =>
      pose proof (path_adj_close r steps (ref y) d Hnd) as Hc
  end.
  rewrite <- Hx in Hc. rewrite Hc. clear Hc Hl.
  set (A := spent_adj [] _).
  assert (HA : dict_keys A = r :: map fst steps).
  { unfold A. rewrite spent_adj_keys, chain_sources, map_app.
    change (r :: map fst steps ++ map fst [(ref y, _)])
      with ((r :: map fst steps) ++ [ref y]).
    apply removelast_last. }
  unfold add_node at 2. cbn [_succ _node].
  assert (Hmx : dict_mem (ref x) A = true).
  { apply dict_mem_true. rewrite HA, Hx. apply elem_of_last_default. }
  rewrite Hmx. unfold add_node. cbn [_succ _node].
  assert (Hmy : dict_mem (ref y) A = true).
  { apply dict_mem_true. rewrite HA, Hy. left. }
  rewrite Hmy.
  eexists. split; [|unfold A, segment_edge; cbn [fst snd];
                    rewrite Nat.add_0_r, Z.add_0_r; reflexivity].
  assert (Hset : forall k (v : attrs) (M : list (node * attrs)),
            k ∈ dict_keys M -> dict_keys (dict_set k v M) = dict_keys M).
  { intros k v M Hk. apply dict_mem_true in Hk. unfold dict_mem in Hk.
    destruct (dict_get k M) as [old|] eqn:E; [|done].
    by eapply dict_keys_set_in. }
  rewrite Hset.
  - apply Hset. rewrite HN, Hx. apply elem_of_last_default.
  - rewrite Hset; [rewrite HN, Hy; left|].
    rewrite HN, Hx. apply elem_of_last_default.
Qed.

Lemma way_steps_length d2 l0 i0 u ns :
  length (way_steps d2 l0 i0 (u :: ns)) = length ns.
Proof.
  rewrite <- (length_map fst), way_steps_targets. apply length_map.
Qed.

(** The graph the builder makes of one closed way: the path of its nodes
    with an edge from the last of them back to the first. *)
Lemma from_pbf_ring way_filter normalize (w : Way) a v rest a' :
  accepts way_filter w = true ->
  w_nodes w = a :: v :: rest ++ [a'] ->
  ref a' = ref a ->
  NoDup (map ref (a :: v :: rest)) ->
  let d2 := way_attrs normalize w in
  let steps := way_steps d2 0 0 (a :: v :: rest) in
  let h := map segment_chain (segment_pairs (a :: v :: rest)) in
  exists N' xl,
    dict_keys N' = map ref (a :: v :: rest)
    /\ from_pbf way_filter normalize [w]
       = (mkGraph N'
            (spent_adj []
               (chain (ref a)
                  (steps
                     ++ [(ref a,
                          (segment_edge d2 (length h)
                             (Z.of_nat (length steps)) 0 (xl, a')).2)]))),
          h ++ [[ref xl; ref a']]).
Proof.
  intros Hacc Hns Ha' Hnd d2 steps h.
  set (w' := mkWay (w_id w) (w_tags w) (a :: v :: rest)).
  assert (Hacc' : accepts way_filter w' = true) by exact Hacc.
  pose proof (from_pbf_path way_filter normalize w' a v rest Hacc' eq_refl
                Hnd) as Hpath.
  change (way_attrs normalize w') with d2 in Hpath.
  cbn [w_nodes w'] in Hpath. fold steps h in Hpath.
  assert (Hloop : from_pbf way_filter normalize [w']
                  = way_loop d2 0 (a :: v :: rest) (empty_graph, [])).
  { unfold from_pbf. cbn [fold_left]. unfold way. by rewrite Hacc'. }
  rewrite Hloop in Hpath. clear Hloop.
  destruct (@exists_last _ (v :: rest)) as (init & xl & Hsn); [done|].
  assert (Hnodes : w_nodes w = (a :: init) ++ [xl; a']).
  { rewrite Hns. cbn [app]. f_equal.
    change (v :: rest ++ [a']) with ((v :: rest) ++ [a']).
    rewrite Hsn, <- (assoc_L (++)). done. }
  unfold from_pbf. cbn [fold_left]. unfold way. rewrite Hacc, Hnodes.
  fold d2. rewrite way_loop_snoc.
  change ((a :: init) ++ [xl]) with (a :: (init ++ [xl])).
  rewrite <- Hsn, Hpath.
  assert (Hkeys : dict_keys (map node_entry (a :: v :: rest))
                  = ref a :: map fst steps).
  { unfold steps. rewrite way_steps_targets. unfold dict_keys.
    by rewrite map_map. }
  assert (Hnd' : NoDup (ref a :: map fst steps)).
  { unfold steps. by rewrite way_steps_targets. }
  assert (Hxl : ref xl = default (ref a) (last (map fst steps))).
  { unfold steps. rewrite way_steps_targets, Hsn, map_app.
    change (map ref [xl]) with [ref xl]. by rewrite last_snoc. }
  destruct (way_segment_close d2 (0 + Z.of_nat (length (a :: init))) xl a'
              (map node_entry (a :: v :: rest)) (ref a) steps h
              Hkeys Hnd' Hxl Ha') as (N' & HN' & Hseg).
  exists N', xl. split.
  { rewrite HN', Hkeys. unfold steps. by rewrite way_steps_targets. }
  assert (Hlen : 0 + Z.of_nat (length (a :: init))
                 = Z.of_nat (length steps)).
  { unfold steps. rewrite way_steps_length.
    apply (f_equal length) in Hsn. rewrite length_app in Hsn.
    cbn [length] in *. lia. }
  by rewrite Hseg, Hlen, Ha'.
Qed.

(** A closed way on its own is not dropped by [simplify]: with nodes
    [a, v, ..., a] that are otherwise distinct, all its segments are
    merged into the first edge, which is left as the only edge, from [a]
    to itself, and whose node list is the node sequence of the way
    followed once more by [v]. *)
Theorem simplify_closed_way way_filter normalize (w : Way) a v rest a' :
  accepts way_filter w = true ->
  w_nodes w = a :: v :: rest ++ [a'] ->
  ref a' = ref a ->
  NoDup (map ref (a :: v :: rest)) ->
  normalize (w_tags w) !! "osm_id" = None ->
  let d0 := (segment_edge (way_attrs normalize w) 0 0 0 (a, v)).2 in
  exists G' h',
    simplify (from_pbf way_filter normalize [w]) = ((G', h'), inr tt)
    /\ edges G' = [(ref a, ref a, d0)]
    /\ chain_of h' d0 = Some (map ref (w_nodes w) ++ [ref v]).
Proof.
  intros Hacc Hns Ha' Hnd Hosm d0.
  destruct (from_pbf_ring way_filter normalize w a v rest a' Hacc Hns Ha'
              Hnd) as (N' & xl & HN' & Hpbf).
  rewrite Hpbf. clear Hpbf.
  set (d2 := way_attrs normalize w) in *.
  set (h := map segment_chain (segment_pairs (a :: v :: rest))).
  assert (Hlen : length (way_steps d2 0 0 (a :: v :: rest))
                 = length (v :: rest)) by apply way_steps_length.
  rewrite (way_steps_cons d2 0 0 a v rest) in *. fold d0 in Hlen |- *.
  set (body := way_steps d2 (0 + 1) (0 + 1) (v :: rest)) in *.
  set (dk := (segment_edge d2 (length h)
                (Z.of_nat (length ((ref v, d0) :: body))) 0 (xl, a')).2).
  assert (Htargets : map fst ((ref v, d0) :: body) = map ref (v :: rest)).
  { unfold body. cbn [map fst]. by rewrite way_steps_targets. }
  destruct (simplify_ring N' (ref a) (ref v) d0 body dk
              (h ++ [[ref xl; ref a']]) (w_id w) 0%nat)
    as (G' & Hsim & Hedges).
  - by rewrite Htargets.
  - by rewrite Htargets.
  - intros j x d Hj.
    destruct (decide (j < length ((ref v, d0) :: body))%nat) as [Hlt|Hge].
    + rewrite lookup_app_l in Hj by done.
      assert (Hj' : way_steps d2 0 0 (a :: v :: rest) !! j = Some (x, d))
        by (by rewrite way_steps_cons).
      apply way_steps_lookup in Hj' as [p ->].
      unfold segment_edge, get_int. cbn [snd]. split.
      * rewrite !lookup_insert_ne by done. by apply way_attrs_osm_id.
      * rewrite lookup_insert_ne by done. by rewrite lookup_insert_eq.
    + rewrite lookup_app_r in Hj by lia.
      destruct (j - length ((ref v, d0) :: body))%nat as [|j'] eqn:Ej;
        [|done].
      injection Hj as _ <-.
      unfold dk, segment_edge, get_int. cbn [snd]. split.
      * rewrite !lookup_insert_ne by done. by apply way_attrs_osm_id.
      * rewrite lookup_insert_ne by done. rewrite lookup_insert_eq.
        do 3 f_equal. lia.
  - unfold d0, segment_edge, get_list. cbn [snd]. by rewrite lookup_insert_eq.
  - eexists G', _. split; [exact Hsim|]. split; [exact Hedges|].
    unfold chain_of, d0, segment_edge. cbn [snd].
    rewrite lookup_insert_eq. cbn [Nat.add].
    unfold h. rewrite segment_pairs_cons. cbn [map app].
    cbn [alter list_alter lookup list_lookup].
    unfold segment_chain at 1. cbn [fst snd app tail].
    rewrite Hns, !map_app.
    assert (Hb : map fst body = map ref rest)
      by (unfold body; by rewrite way_steps_targets).
    rewrite Hb. cbn [map fst app]. rewrite map_app. cbn [map].
    by rewrite Ha'.
Qed.

(** The closed way over the nodes 1, 2 and 3 is left as one edge from 1 to
    itself, with the node list 1, 2, 3, 1, 2. *)
Lemma simplify_closed_way_witness :
  accepts None ex_ring = true
  /\ w_nodes ex_ring
     = pt 1 (-122.125)%float 47.125%float
       :: pt 2 (-122.25)%float 47.25%float
       :: [pt 3 (-122.375)%float 47.375%float]
          ++ [pt 1 (-122.125)%float 47.125%float]
  /\ NoDup [1; 2; 3]
  /\ ex_normalize (w_tags ex_ring) !! "osm_id" = None
  /\ exists G' h',
       simplify (from_pbf None ex_normalize [ex_ring]) = ((G', h'), inr tt)
       /\ edges G' = [(1, 1, ex_ring_edge)]
       /\ chain_of h' ex_ring_edge = Some [1; 2; 3; 1; 2].
Proof.
  assert (Hnd : NoDup [1; 2; 3]).
  { apply (bool_decide_unpack _). vm_compute. exact I. }
  split; [reflexivity|]. split; [reflexivity|]. split; [exact Hnd|].
  split; [reflexivity|].
  exact (simplify_closed_way None ex_normalize ex_ring
           (pt 1 (-122.125)%float 47.125%float)
           (pt 2 (-122.25)%float 47.25%float)
           [pt 3 (-122.375)%float 47.375%float]
           (pt 1 (-122.125)%float 47.125%float)
           eq_refl eq_refl eq_refl Hnd eq_refl).
Defined.
